(** * Spider task workflow engine: a shallow embedding and its properties

    The development follows the TypeScript sources:
    - [src/functions.ts]               : buffer-type tags, [validateTaskGraph]
    - [src/main/lib/DependencyCounter.ts] : the per-task counter (two revisions)
    - [src/main/functions.ts]          : [initializeDependencies], [updateDependencies]
    - [src/main/api.ts]                : [executeWorkflow] (two revisions:
                                         [Api.V1] keeps [resultsMapToObj]
                                         in the file, [Api.V2] imports it)
    - [src/main/lib/RunnerPool.ts]     : the runner pool
    - [src/guards.ts]                  : the guards of messages
    - [src/util.ts]                    : [Deferred]
    - the module that holds the engine : the public [executeWorkflow]
    - the worker module of a runner    : its message listener

    JavaScript objects that are mutated in place are modelled by explicit
    state passing; a [throw] is a value of [result]. *)

From Stdlib Require Import ZArith Lia QArith Qround.
From stdpp Require Import base strings list gmap pretty.

Local Open Scope string_scope.
Local Open Scope Z_scope.

Set Warnings "-clear-no-such-hyp".

(** ** Errors and results *)

(** The error classes constructed by the sources. [JsError] is a plain
    [new Error(message)]; [TypeError] and [RangeError] are the built-in
    classes of the same name. *)
#[warnings="-register-all"]
Inductive error : Type :=
| CyclicDependencyError (dependency : string) (path : list string)
| DependencyNotFoundError (dependency : string)
| DuplicateTaskError (dependency : string)
| JsError (message : string)
| TypeError (message : string)
| RangeError (message : string)
| AbortError (message : string)
| AbortErrorOf (errors : list error) (message : string)
| AggregateError (errors : list error) (message : string)
| ErrorResponseReason (id : string) (err : string).

Inductive result (A : Type) : Type :=
| Ok (a : A)
| Throw (e : error).
Arguments Ok {A} a.
Arguments Throw {A} e.

(** The double-quote character that the messages of several errors put
    around a name. *)
Definition quote : string := String (Ascii.ascii_of_nat 34) EmptyString.

(** ** Buffer-type tags ([getBufferType], [fromSharedArrayBuffer]) *)
Module Buffers.

(** The eleven typed-array classes of the [BufferType] union. *)
Inductive TypedArrayClass : Type :=
| Float32Array | Float64Array | Int8Array | Int16Array | Int32Array
| Uint8Array | Uint16Array | Uint32Array | Uint8ClampedArray
| BigInt64Array | BigUint64Array.

#[export] Instance TypedArrayClass_eq_dec : EqDecision TypedArrayClass.
Proof. solve_decision. Defined.

(** [BYTES_PER_ELEMENT] of each class. *)
Definition BYTES_PER_ELEMENT (c : TypedArrayClass) : Z :=
  match c with
  | Int8Array | Uint8Array | Uint8ClampedArray => 1
  | Int16Array | Uint16Array => 2
  | Float32Array | Int32Array | Uint32Array => 4
  | Float64Array | BigInt64Array | BigUint64Array => 8
  end.

Record SharedArrayBuffer : Type := { byteLength : Z }.

(** A typed array is a view: its class and the buffer it views. *)
Record TypedArray : Type :=
  { class_of : TypedArrayClass; buffer_of : SharedArrayBuffer }.

(** The [name] of the constructor of each class. *)
Definition class_name (c : TypedArrayClass) : string :=
  match c with
  | Float32Array => "Float32Array"
  | Float64Array => "Float64Array"
  | Int8Array => "Int8Array"
  | Int16Array => "Int16Array"
  | Int32Array => "Int32Array"
  | Uint8Array => "Uint8Array"
  | Uint16Array => "Uint16Array"
  | Uint32Array => "Uint32Array"
  | Uint8ClampedArray => "Uint8ClampedArray"
  | BigInt64Array => "BigInt64Array"
  | BigUint64Array => "BigUint64Array"
  end.

(** The message of the [RangeError] below. The language fixes the class
    of the error only; the text is the one of V8, the engine of Node and
    Deno. *)
Definition misaligned (c : TypedArrayClass) : string :=
  "byte length of " ++ class_name c ++ " should be a multiple of " ++
  pretty (BYTES_PER_ELEMENT c).

(** [new C(buffer)]: the constructor of a typed array over a whole buffer
    raises a [RangeError] when the byte length is not a multiple of the
    element size. *)
Definition construct (c : TypedArrayClass) (buffer : SharedArrayBuffer)
  : result TypedArray :=
  if decide (byteLength buffer mod BYTES_PER_ELEMENT c = 0)
  then Ok {| class_of := c; buffer_of := buffer |}
  else Throw (RangeError (misaligned c)).

(** [a instanceof C]: the eleven classes are siblings (each one extends
    the hidden %TypedArray% class only), so the test is class equality. *)
Definition instanceof (a : TypedArray) (c : TypedArrayClass) : bool :=
  bool_decide (class_of a = c).

(** The error of both functions for a name they do not know: the name
    stands between double quotes. *)
Definition unsupported (name : string) : error :=
  JsError ("Unsupported buffer type: " ++ quote ++ name ++ quote).

(** The enumerated tag strings. *)
Definition buffer_type_tags : list string :=
  ["float32"; "float64"; "int8"; "int16"; "int32"; "uint8"; "uint16";
   "uint32"; "uint8_clamped"; "bigint64"; "biguint64"].

Definition getBufferType (buffer : TypedArray) : result string :=
  if instanceof buffer Float32Array then Ok "float32"
  else if instanceof buffer Float64Array then Ok "float64"
  else if instanceof buffer Int8Array then Ok "int8"
  else if instanceof buffer Int16Array then Ok "int16"
  else if instanceof buffer Int32Array then Ok "int32"
  else if instanceof buffer Uint8Array then Ok "uint8"
  else if instanceof buffer Uint16Array then Ok "uint16"
  else if instanceof buffer Uint32Array then Ok "uint32"
  else if instanceof buffer Uint8ClampedArray then Ok "uint8_clamped"
  else if instanceof buffer BigInt64Array then Ok "bigint64"
  else if instanceof buffer BigUint64Array then Ok "biguint64"
  else Throw (unsupported (class_name (class_of buffer))).

Definition fromSharedArrayBuffer (type : string) (buffer : SharedArrayBuffer)
  : result TypedArray :=
  if String.eqb type "float32" then construct Float32Array buffer
  else if String.eqb type "float64" then construct Float64Array buffer
  else if String.eqb type "int8" then construct Int8Array buffer
  else if String.eqb type "int16" then construct Int16Array buffer
  else if String.eqb type "int32" then construct Int32Array buffer
  else if String.eqb type "uint8" then construct Uint8Array buffer
  else if String.eqb type "uint16" then construct Uint16Array buffer
  else if String.eqb type "uint32" then construct Uint32Array buffer
  else if String.eqb type "uint8_clamped" then construct Uint8ClampedArray buffer
  else if String.eqb type "bigint64" then construct BigInt64Array buffer
  else if String.eqb type "biguint64" then construct BigUint64Array buffer
  else Throw (unsupported type).

(** The width a tag stands for, read off [fromSharedArrayBuffer]. *)
Definition tag_width (type : string) : Z :=
  if bool_decide (type ∈ ["int8"; "uint8"; "uint8_clamped"]) then 1
  else if bool_decide (type ∈ ["int16"; "uint16"]) then 2
  else if bool_decide (type ∈ ["float32"; "int32"; "uint32"]) then 4
  else 8.

End Buffers.

(** ** Task descriptors *)
Module Descriptor.

(** An element of a dependency group: a string, or any other JavaScript
    value (for which [typeof d === "string"] is false). *)
Inductive GroupElement : Type :=
| GStr (s : string)
| GOther.

(** The value stored under a dependency key: a task id, a group, or
    [null]. *)
Inductive DepRef : Type :=
| DScalar (s : string)
| DGroup (elems : list GroupElement)
| DNull.

(** [TaskDescriptor]; [dependencies] is [None] for [null], and otherwise
    lists the entries in the enumeration order of the object's keys. The
    [config] field is never read by the functions embedded here. *)
Record TaskDescriptor : Type :=
  { id : string;
    type : string;
    dependencies : option (list (string * DepRef)) }.

(** Truthiness of a string: only the empty string is falsy. *)
Definition truthy (s : string) : bool := negb (String.eqb s "").

End Descriptor.

(** ** Graph validation ([validateTaskGraph]) *)
Module GraphValidator.
Import Descriptor.

(** [taskMap] and [visited] are created by the literal [{}], so a property
    read that finds no own property continues in [Object.prototype], all of
    whose properties hold truthy values. *)
Definition Object_prototype_keys : list string :=
  ["constructor"; "__defineGetter__"; "__defineSetter__"; "hasOwnProperty";
   "__lookupGetter__"; "__lookupSetter__"; "isPrototypeOf";
   "propertyIsEnumerable"; "toString"; "valueOf"; "__proto__";
   "toLocaleString"].

Definition inherited (k : string) : bool :=
  bool_decide (k ∈ Object_prototype_keys).

Record VisitState : Type :=
  { visited : gset string; stack : list string }.

(** Truthiness of [taskMap[k]] and of [visited[k]]. *)
Definition has_task (taskMap : gmap string TaskDescriptor) (k : string) : bool :=
  bool_decide (is_Some (taskMap !! k)) || inherited k.

Definition has_visited (st : VisitState) (k : string) : bool :=
  bool_decide (k ∈ visited st) || inherited k.

(** A [for ... of] loop whose body may throw; [None] stands for a body
    that ran out of fuel. *)
Definition for_each {A S : Type} (body : A → S → option (result S))
  : list A → S → option (result S) :=
  fix go (l : list A) (s : S) : option (result S) :=
    match l with
    | [] => Some (Ok s)
    | x :: l' =>
        match body x s with
        | Some (Ok s') => go l' s'
        | r => r
        end
    end.

(** The check-then-visit of one string reference [d]. *)
Definition check_and_visit
    (visit_rec : string → VisitState → option (result VisitState))
    (taskMap : gmap string TaskDescriptor) (d : string) (st : VisitState)
  : option (result VisitState) :=
  if has_task taskMap d then visit_rec d st
  else Some (Throw (DependencyNotFoundError d)).

Definition visit_dep
    (visit_rec : string → VisitState → option (result VisitState))
    (taskMap : gmap string TaskDescriptor) (dep : DepRef) (st : VisitState)
  : option (result VisitState) :=
  match dep with
  | DNull => Some (Ok st)
  | DScalar s =>
      if truthy s then check_and_visit visit_rec taskMap s st
      else Some (Ok st)
  | DGroup elems =>
      for_each (fun d st =>
                  match d with
                  | GStr s => check_and_visit visit_rec taskMap s st
                  | GOther => Some (Ok st)
                  end) elems st
  end.

(** The inner function [visit]. The recursion of the source is bounded by
    [fuel]; [validateTaskGraph_total] shows the bound used below is never
    reached. *)
Fixpoint visit (fuel : nat) (taskMap : gmap string TaskDescriptor)
    (id : string) (st : VisitState) : option (result VisitState) :=
  match fuel with
  | O => None
  | S fuel' =>
      if has_visited st id
      then Some (Throw (CyclicDependencyError id (stack st ++ [id])))
      else
        let st1 := {| visited := {[id]} ∪ visited st;
                      stack := stack st ++ [id] |} in
        match taskMap !! id with
        | None =>
            Some (Throw (TypeError "Cannot read properties of undefined"))
        | Some task =>
            let body :=
              match dependencies task with
              | None => Some (Ok st1)
              | Some deps =>
                  for_each (fun kd st =>
                              visit_dep (visit fuel' taskMap) taskMap (snd kd) st)
                           deps st1
              end in
            match body with
            | Some (Ok st2) =>
                Some (Ok {| visited := visited st2;
                            stack := removelast (stack st2) |})
            | r => r
            end
        end
  end.

(** The first loop: fill [taskMap], raising on a collision. *)
Fixpoint build_taskMap (tasks : list TaskDescriptor)
    (taskMap : gmap string TaskDescriptor)
  : result (gmap string TaskDescriptor) :=
  match tasks with
  | [] => Ok taskMap
  | task :: rest =>
      if has_task taskMap (id task)
      then Throw (DuplicateTaskError (id task))
      else build_taskMap rest (<[id task := task]> taskMap)
  end.

Definition initial_state : VisitState := {| visited := ∅; stack := [] |}.

Definition validateTaskGraph_fuel (fuel : nat) (tasks : list TaskDescriptor)
  : option (result unit) :=
  match build_taskMap tasks ∅ with
  | Throw e => Some (Throw e)
  | Ok taskMap =>
      match for_each (fun task st => visit fuel taskMap (id task) st)
                     tasks initial_state with
      | Some (Ok _) => Some (Ok tt)
      | Some (Throw e) => Some (Throw e)
      | None => None
      end
  end.

(** [validateTaskGraph]: a visit marks a fresh own id before it recurses,
    so the depth of the recursion is at most the number of tasks. *)
Definition validateTaskGraph (tasks : list TaskDescriptor)
  : option (result unit) :=
  validateTaskGraph_fuel (S (length tasks)) tasks.

(** The references that the validator drops: a falsy value under a key,
    and a non-string element of a group. *)
Definition skipped_dep (dep : DepRef) : bool :=
  match dep with
  | DNull => true
  | DScalar s => negb (truthy s)
  | DGroup _ => false
  end.

Definition skipped_elem (d : GroupElement) : bool :=
  match d with GStr _ => false | GOther => true end.

Definition strip_dep (dep : DepRef) : DepRef :=
  match dep with
  | DGroup elems => DGroup (filter (fun d => skipped_elem d = false) elems)
  | _ => dep
  end.

(** The descriptor with every dropped reference erased. *)
Definition strip_task (task : TaskDescriptor) : TaskDescriptor :=
  {| id := id task;
     type := type task;
     dependencies :=
       option_map
         (fun deps =>
            map (fun kd => (fst kd, strip_dep (snd kd)))
                (filter (fun kd => skipped_dep (snd kd) = false) deps))
         (dependencies task) |}.

(** The string references the validator does follow. *)
Definition dep_targets (dep : DepRef) : list string :=
  match dep with
  | DNull => []
  | DScalar s => if truthy s then [s] else []
  | DGroup elems =>
      flat_map (fun d => match d with GStr s => [s] | GOther => [] end) elems
  end.

Definition task_targets (task : TaskDescriptor) : list string :=
  match dependencies task with
  | None => []
  | Some deps => flat_map (fun kd => dep_targets (snd kd)) deps
  end.

(** The task maps the first loop builds hold no key of
    [Object.prototype]. *)
Definition hygienic (taskMap : gmap string TaskDescriptor) : Prop :=
  ∀ k, is_Some (taskMap !! k) → inherited k = false.

End GraphValidator.

(** ** The specification's notion of a valid graph

    These definitions follow the words of the specification: unique ids,
    no missing reference, no cycle. *)
Module GraphSpec.
Import Descriptor GraphValidator.

(** [edge tasks u v]: the task [u] holds a reference to [v]. *)
Definition edge (tasks : list TaskDescriptor) (u v : string) : Prop :=
  ∃ t, t ∈ tasks ∧ id t = u ∧ v ∈ task_targets t.

Definition spec_valid (tasks : list TaskDescriptor) : Prop :=
  NoDup (id <$> tasks) ∧
  (∀ u v, edge tasks u v → v ∈ id <$> tasks) ∧
  (∀ u, ¬ tc (edge tasks) u u).

End GraphSpec.


(** ** A monad for code that mutates objects and may throw

    A computation maps the objects' state to an outcome and the state
    after it; the mutations made before a [throw] stay in place. *)
Definition M (S A : Type) : Type := S → result A * S.

Definition ret {S A : Type} (a : A) : M S A := fun s => (Ok a, s).

Definition throw {S A : Type} (e : error) : M S A := fun s => (Throw e, s).

Definition bind {S A B : Type} (m : M S A) (k : A → M S B) : M S B :=
  fun s =>
    match m s with
    | (Ok a, s') => k a s'
    | (Throw e, s') => (Throw e, s')
    end.

Notation "'let*' x ':=' m 'in' k" := (bind m (fun x => k))
  (at level 10, x pattern, m at level 100, k at level 200, only parsing).
Notation "m ';;' k" := (bind m (fun _ => k))
  (at level 100, k at level 200, right associativity, only parsing).

Definition gets {S A : Type} (f : S → A) : M S A := fun s => (Ok (f s), s).
Definition modify {S : Type} (f : S → S) : M S unit := fun s => (Ok tt, f s).

(** [for (const x of l) body(x)] *)
Fixpoint for_of {S A : Type} (l : list A) (body : A → M S unit) : M S unit :=
  match l with
  | [] => ret tt
  | x :: l' => body x ;; for_of l' body
  end.

(** [try { m } finally { f }] *)
Definition try_finally {S A : Type} (m : M S A) (f : M S unit) : M S A :=
  fun s =>
    match m s with
    | (r, s') =>
        match f s' with
        | (Ok _, s'') => (r, s'')
        | (Throw e, s'') => (Throw e, s'')
        end
    end.

(** ** [Deferred] (src/util.ts) *)
Module Deferred.

Inductive t (T : Type) : Type :=
| Pending
| Resolved (value : T)
| Rejected (reason : error).
Arguments Pending {T}.
Arguments Resolved {T} value.
Arguments Rejected {T} reason.

Definition settled {T} (d : t T) : bool :=
  match d with Pending => false | _ => true end.

Definition already_settled : error :=
  JsError "Deferred has already been settled".

Definition resolve {T} (value : T) (d : t T) : result (t T) :=
  if settled d then Throw already_settled else Ok (Resolved value).

Definition reject {T} (reason : error) (d : t T) : result (t T) :=
  if settled d then Throw already_settled else Ok (Rejected reason).

End Deferred.

(** ** [DependencyCounter], the revision with a constructor and [init]

    [#counts] is a [Map<string, number>]; the numbers are integers. A
    number of JavaScript is a double: the sums and differences below are
    those of the code as long as they stay within [exact]. *)
Module DependencyCounter.

(** The integers up to which the doubles count one by one: 2^53 + 1 is no
    double, and the code's 2^53 + 1 is 2^53 again. *)
Definition exact (count : Z) : Prop := - 2 ^ 53 <= count <= 2 ^ 53.

Definition init (deps : list string) (counts : gmap string Z) : gmap string Z :=
  foldl (fun m taskId => <[taskId := 0]> m) counts deps.

(** [new DependencyCounter(deps)] *)
Definition new (deps : list string) : gmap string Z := init deps ∅.

Definition set (taskId : string) (count : Z) : M (gmap string Z) Z :=
  fun counts => (Ok count, <[taskId := count]> counts).

Definition increment (taskId : string) (count : Z) : M (gmap string Z) Z :=
  fun counts =>
    let prevCount := default 0 (counts !! taskId) in
    let newCount := prevCount + count in
    (Ok newCount, <[taskId := newCount]> counts).

Definition already_zero (taskId : string) : error :=
  JsError ("Dependency count for task " ++ taskId ++ " is already zero").

Definition decrement (taskId : string) : M (gmap string Z) Z :=
  fun counts =>
    let prevCount := default 0 (counts !! taskId) in
    let newCount := prevCount - 1 in
    if newCount <? 0 then (Throw (already_zero taskId), counts)
    else (Ok newCount, <[taskId := newCount]> counts).

Definition get (taskId : string) (counts : gmap string Z) : option Z :=
  counts !! taskId.

Definition isZero (taskId : string) (counts : gmap string Z) : bool :=
  bool_decide (get taskId counts = Some 0).

Definition entries (counts : gmap string Z) : list (string * Z) :=
  map_to_list counts.

End DependencyCounter.

(** ** [DependencyCounter], the revision without a constructor

    It differs in [decrement], which stores [newCount - 1], and in [get],
    which reads an absent id as [0]. *)
Module DependencyCounter0.

Definition set (taskId : string) (count : Z) : M (gmap string Z) Z :=
  fun counts => (Ok count, <[taskId := count]> counts).

Definition increment (taskId : string) (count : Z) : M (gmap string Z) Z :=
  fun counts =>
    let prevCount := default 0 (counts !! taskId) in
    let newCount := prevCount + count in
    (Ok newCount, <[taskId := newCount]> counts).

Definition decrement (taskId : string) : M (gmap string Z) Z :=
  fun counts =>
    let prevCount := default 0 (counts !! taskId) in
    let newCount := prevCount - 1 in
    if newCount <? 0
    then (Throw (DependencyCounter.already_zero taskId), counts)
    else (Ok newCount, <[taskId := newCount - 1]> counts).

Definition get (taskId : string) (counts : gmap string Z) : Z :=
  default 0 (counts !! taskId).

Definition isZero (taskId : string) (counts : gmap string Z) : bool :=
  bool_decide (get taskId counts = 0).

End DependencyCounter0.

(** ** The scheduler's dependency bookkeeping (src/main/functions.ts)

    The counter is the revision of [DependencyCounter] with a constructor,
    which [executeWorkflow] calls with the task ids. *)
Module Scheduler.
Import Descriptor.

(** The value a [Task] holds under a dependency key: one buffer, or an
    array of buffers of the given length. *)
Inductive TaskDep : Type :=
| TSingle
| TGroup (length : nat).

Record Task : Type :=
  { task_id : string;
    task_dependencies : gmap string TaskDep }.

(** The messages a task's runner produces. [ok] is [Some false] exactly
    for an error response. *)
Record TaskResult : Type :=
  { msg_id : string;
    payload_taskId : string;
    finish : bool;
    ok : option bool;
    payload_output : Buffers.SharedArrayBuffer;
    msg_error : string }.

(** The objects [executeWorkflow] allocates. The [Deferred] objects made
    for [deferredMessage] live in [deferreds], in allocation order, and
    [deferredMessage] holds the index of the current one ([None] for
    [null]). [remainingTasks] and the sets of [dependents] are kept in
    insertion order, as [Set] iterates. *)
Record State : Type :=
  { results : gmap string Buffers.SharedArrayBuffer;
    taskReadiness : gmap string (Deferred.t unit);
    dependencyCount : gmap string Z;
    dependents : gmap string (list string);
    remainingTasks : list string;
    deferreds : list (Deferred.t TaskResult);
    deferredMessage : option nat;
    aborted : bool }.

Definition set_results f (s : State) : State :=
  {| results := f (results s); taskReadiness := taskReadiness s;
     dependencyCount := dependencyCount s; dependents := dependents s;
     remainingTasks := remainingTasks s; deferreds := deferreds s;
     deferredMessage := deferredMessage s; aborted := aborted s |}.
Definition set_taskReadiness f (s : State) : State :=
  {| results := results s; taskReadiness := f (taskReadiness s);
     dependencyCount := dependencyCount s; dependents := dependents s;
     remainingTasks := remainingTasks s; deferreds := deferreds s;
     deferredMessage := deferredMessage s; aborted := aborted s |}.
Definition set_dependencyCount f (s : State) : State :=
  {| results := results s; taskReadiness := taskReadiness s;
     dependencyCount := f (dependencyCount s); dependents := dependents s;
     remainingTasks := remainingTasks s; deferreds := deferreds s;
     deferredMessage := deferredMessage s; aborted := aborted s |}.
Definition set_dependents f (s : State) : State :=
  {| results := results s; taskReadiness := taskReadiness s;
     dependencyCount := dependencyCount s; dependents := f (dependents s);
     remainingTasks := remainingTasks s; deferreds := deferreds s;
     deferredMessage := deferredMessage s; aborted := aborted s |}.
Definition set_remainingTasks f (s : State) : State :=
  {| results := results s; taskReadiness := taskReadiness s;
     dependencyCount := dependencyCount s; dependents := dependents s;
     remainingTasks := f (remainingTasks s); deferreds := deferreds s;
     deferredMessage := deferredMessage s; aborted := aborted s |}.
Definition set_deferreds f (s : State) : State :=
  {| results := results s; taskReadiness := taskReadiness s;
     dependencyCount := dependencyCount s; dependents := dependents s;
     remainingTasks := remainingTasks s; deferreds := f (deferreds s);
     deferredMessage := deferredMessage s; aborted := aborted s |}.
Definition set_deferredMessage v (s : State) : State :=
  {| results := results s; taskReadiness := taskReadiness s;
     dependencyCount := dependencyCount s; dependents := dependents s;
     remainingTasks := remainingTasks s; deferreds := deferreds s;
     deferredMessage := v; aborted := aborted s |}.
Definition set_aborted v (s : State) : State :=
  {| results := results s; taskReadiness := taskReadiness s;
     dependencyCount := dependencyCount s; dependents := dependents s;
     remainingTasks := remainingTasks s; deferreds := deferreds s;
     deferredMessage := deferredMessage s; aborted := v |}.

(** A method of the counter, run on the scheduler's counter object. *)
Definition on_counter {A} (m : M (gmap string Z) A) : M State A :=
  fun s =>
    match m (dependencyCount s) with
    | (r, counts) => (r, set_dependencyCount (fun _ => counts) s)
    end.

Definition of_result {S A} (r : result A) : M S A := fun s => (r, s).

(** [Object.keys(descriptor.dependencies)], or [[]] for [null]. *)
Definition depKeys (descriptor : TaskDescriptor) : list string :=
  match dependencies descriptor with
  | Some deps => map fst deps
  | None => []
  end.

(** [descriptor.dependencies![depKey]] *)
Definition descriptor_dep (descriptor : TaskDescriptor) (depKey : string)
  : option DepRef :=
  match dependencies descriptor with
  | Some deps =>
      (fun r => snd (snd r)) <$> list_find (fun kd => fst kd = depKey) deps
  | None => None
  end.

(** [descriptor.dependencies![depKey][i]]. Indexing a group gives its
    element, indexing a string gives its [i]-th character, and indexing
    [null] throws. The result is [None] when the value read is not a
    string (an [undefined] past the end, or a non-string element). *)
Definition descriptor_dep_at (descriptor : TaskDescriptor) (depKey : string)
    (i : nat) : result (option string) :=
  match descriptor_dep descriptor depKey with
  | Some (DGroup elems) =>
      Ok (match elems !! i with Some (GStr s) => Some s | _ => None end)
  | Some (DScalar s) =>
      Ok ((fun c => String c EmptyString) <$> String.get i s)
  | Some DNull | None =>
      Throw (TypeError "Cannot read properties of null")
  end.

(** [Set.prototype.add] on an insertion-ordered set. *)
Definition set_add (x : string) (l : list string) : list string :=
  if bool_decide (x ∈ l) then l else l ++ [x].

(** [dependents.get(k)!.add(taskId)]; a [k] that is not a string is the
    key of no entry. *)
Definition add_dependent (k : option string) (taskId : string) : M State unit :=
  fun s =>
    match k ≫= (fun k' => (fun set => (k', set)) <$> dependents s !! k') with
    | Some (k', set) =>
        (Ok tt, set_dependents (fun d => <[k' := set_add taskId set]> d) s)
    | None =>
        (Throw (TypeError "Cannot read properties of undefined (reading 'add')"), s)
    end.

Definition missing_dependency (taskId depKey : string) : error :=
  JsError ("Task " ++ quote ++ taskId ++ quote ++
           " is missing a dependency for key " ++ quote ++ depKey ++ quote).

Definition initializeDependencies (task : Task) (descriptor : TaskDescriptor)
  : M State unit :=
  for_of (depKeys descriptor) (fun depKey =>
    match task_dependencies task !! depKey with
    | None => throw (missing_dependency (task_id task) depKey)
    | Some (TGroup length) =>
        on_counter (DependencyCounter.increment (task_id task) (Z.of_nat length)) ;;
        for_of (seq 0 length) (fun i =>
          let* depTaskId := of_result (descriptor_dep_at descriptor depKey i) in
          add_dependent depTaskId (task_id task))
    | Some TSingle =>
        on_counter (DependencyCounter.increment (task_id task) 1) ;;
        add_dependent (Some depKey) (task_id task)
    end).

(** [dependencyCounter.decrement(k)]; a [k] that is not a string has no
    stored count, so the decrement of it throws. *)
Definition decrement_key (k : option string) : M State Z :=
  match k with
  | Some k' => on_counter (DependencyCounter.decrement k')
  | None => throw (DependencyCounter.already_zero "undefined")
  end.

(** [taskReadiness.get(k)!.resolve()] *)
Definition resolve_readiness (k : option string) : M State unit :=
  fun s =>
    match k ≫= (fun k' => (fun d => (k', d)) <$> taskReadiness s !! k') with
    | Some (k', d) =>
        match Deferred.resolve tt d with
        | Ok d' => (Ok tt, set_taskReadiness (fun m => <[k' := d']> m) s)
        | Throw e => (Throw e, s)
        end
    | None =>
        (Throw (TypeError "Cannot read properties of undefined (reading 'resolve')"), s)
    end.

(** The step repeated by every loop of [updateDependencies]. *)
Definition decrement_and_resolve (k : option string) : M State unit :=
  let* newCount := decrement_key k in
  if newCount =? 0 then resolve_readiness k else ret tt.

Definition updateDependencies (task : Task) (descriptor : TaskDescriptor)
  : M State unit :=
  for_of (depKeys descriptor) (fun depKey =>
    match task_dependencies task !! depKey with
    | Some (TGroup length) =>
        for_of (seq 0 length) (fun i =>
          let* depTaskId := of_result (descriptor_dep_at descriptor depKey i) in
          decrement_and_resolve depTaskId)
    | _ => decrement_and_resolve (Some depKey)
    end) ;;
  let* set := (fun s =>
                 match dependents s !! task_id task with
                 | Some set => (Ok set, s)
                 | None => (Throw (TypeError "undefined is not iterable"), s)
                 end) in
  for_of set (fun dependent => decrement_and_resolve (Some dependent)).

End Scheduler.

(** ** [executeWorkflow] (src/main/api.ts, two revisions) *)
Module Api.
Import Descriptor Scheduler.

(** [tasks] is a [Map] and is listed in insertion order. *)
Record ExecutableWorkflow : Type :=
  { tasks : list (string * Task);
    taskDescriptors : gmap string TaskDescriptor }.

(** The events the generator yields; the constant [type] and the random
    request [id] are left out. *)
Inductive WorkflowResult : Type :=
| Intermediate (taskId : string) (output : option Buffers.SharedArrayBuffer)
| Final (results : gmap string Buffers.SharedArrayBuffer).

(** How the caller's iteration ends: the generator returns, it throws, or
    it stays suspended at an [await] that nothing settles. [OutOfFuel]
    marks a run cut short by the bound on the loop below. *)
Inductive Termination : Type :=
| Returned
| Threw (e : error)
| Suspended
| OutOfFuel.

Record Run : Type :=
  { yielded : list WorkflowResult; ended : Termination }.

(** What happens around the generator while it awaits: a runner's message
    reaches the loop of [execute] for some task, the task's generator
    throws into the [catch] of [execute], or the caller's signal fires.
    A script of actions is the environment's: it is not derived from
    [execute], which awaits the readiness of its task before it passes
    anything on. *)
Inductive Action : Type :=
| RunnerMessage (message : TaskResult)
| RunnerThrows (e : error)
| SignalAbort.

(** [isErrorResponse(message)]: every message carries [type] and [id]. *)
Definition isErrorResponse (message : TaskResult) : bool :=
  bool_decide (ok message = Some false).

Definition keys (workflow : ExecutableWorkflow) : list string :=
  map fst (tasks workflow).

(** [tasks.get(taskId)] *)
Definition tasks_get (workflow : ExecutableWorkflow) (taskId : string)
  : option Task :=
  (fun r => snd (snd r)) <$> list_find (fun kt => fst kt = taskId) (tasks workflow).

(** The objects as the declarations at the top of the body create them. *)
Definition fresh (workflow : ExecutableWorkflow) : State :=
  {| results := ∅;
     taskReadiness := ∅;
     dependencyCount := DependencyCounter.new (keys workflow);
     dependents := ∅;
     remainingTasks := keys workflow;
     deferreds := [];
     deferredMessage := None;
     aborted := false |}.

(** [deferredMessage = new Deferred()] *)
Definition new_deferredMessage : M State unit :=
  fun s =>
    (Ok tt,
     set_deferredMessage (Some (length (deferreds s)))
       (set_deferreds (fun ds => (ds ++ [Deferred.Pending])%list) s)).

Definition undefined_descriptor : error :=
  TypeError "Cannot read properties of undefined (reading 'dependencies')".

Definition no_initial_tasks : error :=
  JsError "Unable to execute workflow without initial tasks".

(** The body up to and including the first [new Deferred()]: the
    initialisation loop and the check for initial tasks. *)
Definition setup (workflow : ExecutableWorkflow) : M State unit :=
  for_of (map snd (tasks workflow)) (fun task =>
    modify (set_dependents (fun d => <[task_id task := []]> d)) ;;
    modify (set_taskReadiness (fun r => <[task_id task := Deferred.Pending]> r)) ;;
    match taskDescriptors workflow !! task_id task with
    | Some descriptor => initializeDependencies task descriptor
    | None => throw undefined_descriptor
    end) ;;
  let* initialTasks :=
    gets (fun s => filter (fun e => snd e = 0)
                     (DependencyCounter.entries (dependencyCount s))) in
  match initialTasks with
  | [] => throw no_initial_tasks
  | _ => new_deferredMessage
  end.

(** [taskReadiness.get(taskId)?.reject(reason)] *)
Definition reject_readiness (reason : error) (taskId : string) : M State unit :=
  fun s =>
    match taskReadiness s !! taskId with
    | None => (Ok tt, s)
    | Some d =>
        match Deferred.reject reason d with
        | Ok d' => (Ok tt, set_taskReadiness (fun m => <[taskId := d']> m) s)
        | Throw e => (Throw e, s)
        end
    end.

(** The loop over [remainingTasks.values()] that rejects the readiness of
    every remaining task. *)
Definition reject_remaining (reason : error) : M State unit :=
  let* remaining := gets remainingTasks in
  for_of remaining (reject_readiness reason).

(** [deferred.resolve(result)] and [deferred.reject(reason)] on the
    [Deferred] allocated at index [i]. *)
Definition settle_deferred (i : nat)
    (settle : Deferred.t TaskResult → result (Deferred.t TaskResult))
  : M State unit :=
  fun s =>
    match deferreds s !! i with
    | None => (Throw (TypeError "no such Deferred"), s)
    | Some d =>
        match settle d with
        | Ok d' => (Ok tt, set_deferreds (fun ds => <[i := d']> ds) s)
        | Throw e => (Throw e, s)
        end
    end.

(** The part of [resolve] shared by the two revisions, from the test of
    [result.finish] on. *)
Definition resolve_with (workflow : ExecutableWorkflow) (taskId : string)
    (deferred : nat) (result : TaskResult) : M State unit :=
  (if finish result then
     modify (set_remainingTasks (filter (fun k => k ≠ taskId))) ;;
     match tasks_get workflow taskId, taskDescriptors workflow !! taskId with
     | Some task, Some descriptor => updateDependencies task descriptor
     | _, _ => throw undefined_descriptor
     end ;;
     modify (set_results (fun r => <[taskId := payload_output result]> r))
   else ret tt) ;;
  let* remaining := gets remainingTasks in
  match remaining with
  | [] => modify (set_deferredMessage None)
  | _ => new_deferredMessage
  end ;;
  settle_deferred deferred (Deferred.resolve result).

(** *** The revision that defines [resultsMapToObj] in the file *)
Module V1.

Definition resolve (workflow : ExecutableWorkflow) (result : TaskResult)
  : M State unit :=
  let taskId := msg_id result in
  let* deferred := gets deferredMessage in
  match deferred with
  | None => ret tt
  | Some d => resolve_with workflow taskId d result
  end.

Definition reject (reason : error) : M State unit :=
  let* deferred := gets deferredMessage in
  modify (set_deferredMessage None) ;;
  reject_remaining reason ;;
  match deferred with
  | Some d => settle_deferred d (Deferred.reject reason)
  | None => ret tt
  end.

Definition abort (reason : error) : M State unit :=
  let* a := gets aborted in
  let* deferred := gets deferredMessage in
  if negb a && bool_decide (is_Some deferred) then
    modify (set_aborted true) ;;
    reject_remaining reason ;;
    reject (AggregateError [reason] "Workflow aborted")
  else ret tt.

(** The argument of [abort] when the signal is seen aborted. *)
Definition signal_reason : error := AbortError "Workflow aborted".

End V1.

(** *** The revision that imports [resultsMapToObj]

    Its [reject] returns at once when the workflow has ended and rejects
    the message [Deferred] in a [finally]; its [abort] leaves the
    rejection of the remaining tasks to [reject]. *)
Module V2.

Definition resolve (workflow : ExecutableWorkflow) (result : TaskResult)
  : M State unit :=
  let* deferred := gets deferredMessage in
  match deferred with
  | None => ret tt
  | Some d => resolve_with workflow (payload_taskId result) d result
  end.

Definition reject (reason : error) : M State unit :=
  let* deferred := gets deferredMessage in
  match deferred with
  | None => ret tt
  | Some d =>
      modify (set_deferredMessage None) ;;
      try_finally (reject_remaining reason)
                  (settle_deferred d (Deferred.reject reason))
  end.

Definition abort (reason : error) : M State unit :=
  let* a := gets aborted in
  let* deferred := gets deferredMessage in
  if negb a && bool_decide (is_Some deferred) then
    modify (set_aborted true) ;;
    reject (AbortErrorOf [reason] "Workflow aborted")
  else ret tt.

Definition signal_reason : error := JsError "Workflow aborted by signal".

End V2.

(** *** The generator, for either revision *)
Section generator.

Variable workflow : ExecutableWorkflow.
Variable resolve : ExecutableWorkflow → TaskResult → M State unit.
Variable reject : error → M State unit.
Variable abort : error → M State unit.
Variable signal_reason : error.

(** The body of the [for await] loop of [execute] with its [catch]: an
    error response goes to [reject], any other message to [resolve]; what
    either throws is passed to [reject], and what that throws is lost in
    [Promise.allSettled]. *)
Definition deliver (message : TaskResult) : State → State :=
  fun s =>
    let m := if isErrorResponse message
             then reject (ErrorResponseReason (msg_id message) (msg_error message))
             else resolve workflow message in
    match m s with
    | (Ok _, s') => s'
    | (Throw e, s') => snd (reject e s')
    end.

Definition act (a : Action) (signal : bool) (s : State) : bool * State :=
  match a with
  | RunnerMessage message => (signal, deliver message s)
  | RunnerThrows e => (signal, snd (reject e s))
  | SignalAbort => (true, s)
  end.

(** [await deferred.promise]: the actions of the script run until the
    [Deferred] at index [d] is settled. *)
Fixpoint await (d : nat) (signal : bool) (script : list Action) (s : State)
  : option (result TaskResult) * bool * list Action * State :=
  match deferreds s !! d with
  | Some (Deferred.Resolved message) => (Some (Ok message), signal, script, s)
  | Some (Deferred.Rejected reason) => (Some (Throw reason), signal, script, s)
  | _ =>
      match script with
      | [] => (None, signal, script, s)
      | a :: script' =>
          let '(signal', s') := act a signal s in
          await d signal' script' s'
      end
  end.

(** The statement after the loop: the final message, then the return. *)
Definition finish_run (acc : list WorkflowResult) (s : State) : Run :=
  {| yielded := acc ++ [Final (results s)]; ended := Returned |}.

(** The [while] loop. The caller asks for the next value as soon as it is
    handed one, so the actions of the script fall into the [await]s.
    Every iteration that yields has consumed an action, so [fuel] above
    the length of the script is never used up
    ([executeWorkflow_has_fuel]). *)
Fixpoint loop (fuel : nat) (signal : bool) (script : list Action)
    (acc : list WorkflowResult) (s : State) : Run :=
  match fuel with
  | O => {| yielded := acc; ended := OutOfFuel |}
  | S fuel' =>
      match deferredMessage s with
      | None => finish_run acc s
      | Some d =>
          if signal then
            match abort signal_reason s with
            | (Ok _, s') => finish_run acc s'
            | (Throw e, _) => {| yielded := acc; ended := Threw e |}
            end
          else
            match await d signal script s with
            | (None, _, _, _) => {| yielded := acc; ended := Suspended |}
            | (Some (Throw reason), _, _, _) =>
                {| yielded := acc; ended := Threw reason |}
            | (Some (Ok message), signal', script', s') =>
                if isErrorResponse message then
                  match abort (JsError (msg_error message)) s' with
                  | (Ok _, s'') => finish_run acc s''
                  | (Throw e, _) => {| yielded := acc; ended := Threw e |}
                  end
                else
                  loop fuel' signal' script'
                    (acc ++ [Intermediate (msg_id message)
                                          (results s' !! msg_id message)])
                    s'
            end
      end
  end.

(** [executeWorkflow(workflow, {pool, signal})] as the caller's iteration
    sees it; [signal] tells whether the signal is aborted at the call. *)
Definition executeWorkflow (signal : bool) (script : list Action) : Run :=
  match setup workflow (fresh workflow) with
  | (Throw e, _) => {| yielded := []; ended := Threw e |}
  | (Ok _, s) => loop (S (length script)) signal script [] s
  end.

End generator.

(** [keeps proj m]: the computation [m] leaves the part [proj] of the
    state as it was, whether it returns or throws. *)
Definition keeps {X A} (proj : State → X) (m : M State A) : Prop :=
  ∀ s, proj (snd (m s)) = proj s.

(** The objects that neither the counter nor the dependents map is. *)
Definition others (s : State) :=
  (results s, taskReadiness s, remainingTasks s, deferreds s,
   deferredMessage s, aborted s).

(** The message [Deferred]s and the current one. *)
Definition outbox (s : State) := (deferreds s, deferredMessage s).

(** [deferredMessage], when not [null], is a pending [Deferred]. *)
Definition outbox_pending (s : State) : Prop :=
  match deferredMessage s with
  | Some d => deferreds s !! d = Some Deferred.Pending
  | None => True
  end.

(** The state in which [setup] leaves the objects when it returns. *)
Definition ready_to_run (workflow : ExecutableWorkflow) (s : State) : Prop :=
  results s = ∅ ∧
  remainingTasks s = keys workflow ∧
  deferreds s = [Deferred.Pending] ∧
  deferredMessage s = Some 0%nat ∧
  aborted s = false ∧
  (∀ k d, taskReadiness s !! k = Some d → d = Deferred.Pending) ∧
  (∀ t, t ∈ (snd <$> tasks workflow) → is_Some (taskReadiness s !! task_id t)).

Definition executeWorkflow_v1 (workflow : ExecutableWorkflow) :=
  executeWorkflow workflow V1.resolve V1.reject V1.abort V1.signal_reason.

Definition executeWorkflow_v2 (workflow : ExecutableWorkflow) :=
  executeWorkflow workflow V2.resolve V2.reject V2.abort V2.signal_reason.

End Api.

(** ** [RunnerPool] (src/main/lib/RunnerPool.ts) *)
Module RunnerPool.

(** A runner is a [Worker]; workers are named in the order of their
    creation. A pending acquire is a [Deferred], named likewise. *)
Definition Runner : Type := nat.
Definition Waiter : Type := nat.

(** The private fields of the pool, and around them what the pool did to
    the outside: [listening] are the workers made by [#createRunner] whose
    message listener is attached (with the [idle] argument of the call),
    [terminated] the workers on which [terminate()] was called, [served]
    the pending acquires resolved so far with the runner handed to each,
    and [failed] the pending acquires rejected by [terminate]. *)
Record Pool : Type :=
  { runners : list Runner;
    idleRunners : list Runner;
    pending : list Waiter;
    min : Z;
    max : Z;
    listening : list (Runner * bool);
    next_runner : nat;
    next_waiter : nat;
    terminated : list Runner;
    served : list (Waiter * Runner);
    failed : list Waiter }.

Definition size (p : Pool) : Z := Z.of_nat (length (runners p)).
Definition idle (p : Pool) : Z := Z.of_nat (length (idleRunners p)).
Definition busy (p : Pool) : Z :=
  Z.of_nat (length (runners p)) - Z.of_nat (length (idleRunners p)).

(** [#createRunner(idle)] up to the point where it returns its promise: a
    worker is created and the listeners are attached. *)
Definition createRunner (is_idle : bool) (p : Pool) : Runner * Pool :=
  let w := next_runner p in
  (w, {| runners := runners p; idleRunners := idleRunners p;
         pending := pending p; min := min p; max := max p;
         listening := listening p ++ [(w, is_idle)];
         next_runner := S w; next_waiter := next_waiter p;
         terminated := terminated p; served := served p;
         failed := failed p |}).

(** [onMessage] of the worker [w]. A ready message admits the worker (the
    listener stays attached); any other message detaches the listener and
    terminates the worker. *)
Definition onMessage (w : Runner) (ready : bool) (p : Pool) : Pool :=
  match list_find (fun wi => fst wi = w) (listening p) with
  | None => p
  | Some (_, (_, is_idle)) =>
      if ready then
        {| runners := runners p ++ [w];
           idleRunners := if is_idle then idleRunners p ++ [w]
                          else idleRunners p;
           pending := pending p; min := min p; max := max p;
           listening := listening p;
           next_runner := next_runner p; next_waiter := next_waiter p;
           terminated := terminated p; served := served p;
           failed := failed p |}
      else
        {| runners := runners p; idleRunners := idleRunners p;
           pending := pending p; min := min p; max := max p;
           listening := filter (fun wi => fst wi ≠ w) (listening p);
           next_runner := next_runner p; next_waiter := next_waiter p;
           terminated := terminated p ++ [w]; served := served p;
           failed := failed p |}
  end.

(** [createRunner(true)] repeated for [i] from [from] while [i < upto]. *)
Definition create_idle_runners (from upto : Z) (p : Pool) : Pool :=
  Nat.iter (Z.to_nat (upto - from)) (fun q => snd (createRunner true q)) p.

(** [new RunnerPool(options)]; [hardwareConcurrency] is the default of
    [max]. An option is [None] when [options] has no such key, and an
    integer otherwise; [PoolOptions.construct] follows the constructor on
    the other values an option can hold. *)
Definition new (hardwareConcurrency : Z) (options_min options_max : option Z)
  : result Pool :=
  if match options_min with Some m => m <=? 0 | None => false end then
    Throw (TypeError "The minimum number of runners must be greater than 0")
  else if match options_max with Some m => m <=? 0 | None => false end then
    Throw (TypeError "The maximum number of runners must be greater than 0")
  else if match options_min, options_max with
          | Some a, Some b => a >? b
          | _, _ => false
          end then
    Throw (JsError "The minimum number of runners cannot exceed the maximum number of runners")
  else
    let p := {| runners := []; idleRunners := []; pending := [];
                min := default 1 options_min;
                max := default hardwareConcurrency options_max;
                listening := []; next_runner := 0; next_waiter := 0;
                terminated := []; served := []; failed := [] |} in
    Ok (if 0 <? min p then create_idle_runners 0 (min p) p else p).

(** [#terminateIdleRunners()] *)
Definition terminateIdleRunners (p : Pool) : Pool :=
  {| runners := filter (fun runner => runner ∉ idleRunners p) (runners p);
     idleRunners := [];
     pending := pending p; min := min p; max := max p;
     listening := listening p;
     next_runner := next_runner p; next_waiter := next_waiter p;
     terminated := terminated p ++ idleRunners p; served := served p;
     failed := failed p |}.

(** The argument of a setter: an integer, or a value that fails
    [typeof value === "number" && Number.isInteger(value)]. *)
Inductive SetterValue : Type :=
| Int (value : Z)
| NotAnInteger.

Definition with_min (v : Z) (p : Pool) : Pool :=
  {| runners := runners p; idleRunners := idleRunners p;
     pending := pending p; min := v; max := max p;
     listening := listening p;
     next_runner := next_runner p; next_waiter := next_waiter p;
     terminated := terminated p; served := served p; failed := failed p |}.

Definition with_max (v : Z) (p : Pool) : Pool :=
  {| runners := runners p; idleRunners := idleRunners p;
     pending := pending p; min := min p; max := v;
     listening := listening p;
     next_runner := next_runner p; next_waiter := next_waiter p;
     terminated := terminated p; served := served p; failed := failed p |}.

(** [set min(value)] *)
Definition set_min (value : SetterValue) (p : Pool) : result Pool :=
  match value with
  | NotAnInteger =>
      Throw (TypeError "The minimum number of runners must be an integer")
  | Int value =>
      if value <=? 0 then
        Throw (TypeError "The minimum number of runners must be greater than 0")
      else if value >? max p then
        Throw (TypeError "The minimum number of runners cannot exceed the maximum number of runners")
      else
        let p1 := with_min value p in
        let p2 := create_idle_runners (size p1) (min p1) p1 in
        Ok (if size p2 >? min p2 then terminateIdleRunners p2 else p2)
  end.

(** [set max(value)] *)
Definition set_max (value : SetterValue) (p : Pool) : result Pool :=
  match value with
  | NotAnInteger =>
      Throw (TypeError "The maximum number of runners must be an integer")
  | Int value =>
      if value <=? 0 then
        Throw (TypeError "The maximum number of runners must be greater than 0")
      else if value <? min p then
        Throw (TypeError "The maximum number of runners cannot be less than the minimum number of runners")
      else
        let p1 := with_max value p in
        Ok (if size p1 >? max p1 then terminateIdleRunners p1 else p1)
  end.

(** How a call of [acquire] is answered: with a runner at once, with the
    promise of [#createRunner(false)] for the new worker [w], or with the
    promise of a [Deferred] put on the pending queue. *)
Inductive Acquired : Type :=
| Immediately (runner : Runner)
| OnceReady (w : Runner)
| Queued (deferred : Waiter).

Definition acquire (p : Pool) : Acquired * Pool :=
  match idleRunners p with
  | runner :: rest =>
      (Immediately runner,
       {| runners := runners p; idleRunners := rest;
          pending := pending p; min := min p; max := max p;
          listening := listening p;
          next_runner := next_runner p; next_waiter := next_waiter p;
          terminated := terminated p; served := served p;
          failed := failed p |})
  | [] =>
      if size p <? max p then
        let '(w, p') := createRunner false p in (OnceReady w, p')
      else
        let deferred := next_waiter p in
        (Queued deferred,
         {| runners := runners p; idleRunners := idleRunners p;
            pending := pending p ++ [deferred]; min := min p; max := max p;
            listening := listening p;
            next_runner := next_runner p; next_waiter := S deferred;
            terminated := terminated p; served := served p;
            failed := failed p |})
  end.

(** [#dispatchPending()] *)
Definition dispatchPending (p : Pool) : Pool :=
  let count := Nat.min (length (pending p)) (length (idleRunners p)) in
  match pending p, idleRunners p with
  | deferred :: pending', runner :: idle' =>
      if (0 <? count)%nat then
        {| runners := runners p; idleRunners := idle';
           pending := pending'; min := min p; max := max p;
           listening := listening p;
           next_runner := next_runner p; next_waiter := next_waiter p;
           terminated := terminated p;
           served := served p ++ [(deferred, runner)];
           failed := failed p |}
      else p
  | _, _ => p
  end.

Definition release (runner : Runner) (p : Pool) : result Pool :=
  if bool_decide (runner ∈ runners p) then
    Ok (dispatchPending
          {| runners := runners p; idleRunners := idleRunners p ++ [runner];
             pending := pending p; min := min p; max := max p;
             listening := listening p;
             next_runner := next_runner p; next_waiter := next_waiter p;
             terminated := terminated p; served := served p;
             failed := failed p |})
  else Throw (JsError "The runner is not part of the pool").

Definition terminate (p : Pool) : Pool :=
  {| runners := []; idleRunners := []; pending := [];
     min := min p; max := max p; listening := listening p;
     next_runner := next_runner p; next_waiter := next_waiter p;
     terminated := terminated p ++ runners p; served := served p;
     failed := failed p ++ pending p |}.

(** The ids of the workers with a listener, and of the runners, are
    below the next id. Every operation of the pool keeps this. *)
Definition fresh_ids (p : Pool) : Prop :=
  Forall (λ wi, (fst wi < next_runner p)%nat) (listening p) ∧
  Forall (λ r, (r < next_runner p)%nat) (runners p).

(** Releasing a list of runners one after the other. *)
Fixpoint release_all (rs : list Runner) (p : Pool) : result Pool :=
  match rs with
  | [] => Ok p
  | r :: rs' =>
      match release r p with
      | Ok p' => release_all rs' p'
      | Throw e => Throw e
      end
  end.

(** A call on the pool, or a first message of a worker. *)
Inductive Op : Type :=
| Acquire
| Release (runner : Runner)
| Message (w : Runner) (ready : bool)
| SetMin (value : SetterValue)
| SetMax (value : SetterValue)
| Terminate.

(** The pool after a call; a call that throws leaves it as it was. *)
Definition step (p : Pool) (o : Op) : Pool :=
  match o with
  | Acquire => snd (acquire p)
  | Release runner => match release runner p with Ok p' => p' | Throw _ => p end
  | Message w ready => onMessage w ready p
  | SetMin value => match set_min value p with Ok p' => p' | Throw _ => p end
  | SetMax value => match set_max value p with Ok p' => p' | Throw _ => p end
  | Terminate => terminate p
  end.

End RunnerPool.


(** ** Concrete inputs *)
Module Examples.
Import Descriptor Scheduler Api RunnerPool.

Definition descriptor (i : string) (deps : option (list (string * DepRef)))
  : TaskDescriptor :=
  {| id := i; type := "task"; dependencies := deps |}.

Definition task_of (i : string) (deps : list (string * TaskDep)) : Task :=
  {| task_id := i; task_dependencies := list_to_map deps |}.

(** A workflow whose maps are keyed by the tasks' ids. *)
Definition workflow_of (l : list (Task * TaskDescriptor)) : ExecutableWorkflow :=
  {| tasks := map (λ p, (task_id (fst p), fst p)) l;
     taskDescriptors := list_to_map (map (λ p, (task_id (fst p), snd p)) l) |}.

Definition task_a : Task := task_of "a" [].
Definition descriptor_a : TaskDescriptor := descriptor "a" None.

(** The workflow of the README: [b] names [a] under the key ["a"] and
    once more in the group under the key ["b"]. *)
Definition readme_task_b : Task :=
  task_of "b" [("a", TSingle); ("b", TGroup 1)].
Definition readme_descriptor_b : TaskDescriptor :=
  descriptor "b" (Some [("a", DScalar "a"); ("b", DGroup [GStr "a"])]).
Definition readme_tasks : list TaskDescriptor :=
  [descriptor_a; readme_descriptor_b].
Definition readme_workflow : ExecutableWorkflow :=
  workflow_of [(task_a, descriptor_a); (readme_task_b, readme_descriptor_b)].

(** [b] depends on [a] alone, under the key ["a"]. *)
Definition chain_task_b : Task := task_of "b" [("a", TSingle)].
Definition chain_descriptor_b : TaskDescriptor :=
  descriptor "b" (Some [("a", DScalar "a")]).
Definition chain_workflow : ExecutableWorkflow :=
  workflow_of [(task_a, descriptor_a); (chain_task_b, chain_descriptor_b)].

(** [b] depends on [a] under a key that is the id of a third task. *)
Definition keyed_task_b : Task := task_of "b" [("c", TSingle)].
Definition keyed_descriptor_b : TaskDescriptor :=
  descriptor "b" (Some [("c", DScalar "a")]).
Definition keyed_workflow : ExecutableWorkflow :=
  workflow_of [(task_a, descriptor_a);
               (task_of "c" [], descriptor "c" None);
               (keyed_task_b, keyed_descriptor_b)].

Definition single_task_workflow : ExecutableWorkflow :=
  workflow_of [(task_a, descriptor_a)].


Definition buffer : Buffers.SharedArrayBuffer := {| Buffers.byteLength := 1 |}.

(** The final message of the task [i]. *)
Definition final_of (i : string) : TaskResult :=
  {| msg_id := i; payload_taskId := i; finish := true; ok := None;
     payload_output := buffer; msg_error := "" |}.

(** An error response for the task [i]. *)
Definition error_of (i : string) : TaskResult :=
  {| msg_id := i; payload_taskId := i; finish := false; ok := Some false;
     payload_output := buffer; msg_error := "task failed" |}.

(** Two tasks that share a dependency. *)
Definition shared_dependency : list TaskDescriptor :=
  [descriptor "a" None;
   descriptor "b" (Some [("a", DScalar "a")]);
   descriptor "c" (Some [("a", DScalar "a")])].

(** The chain A→B→C. *)
Definition chain : list TaskDescriptor :=
  [descriptor "A" (Some [("B", DScalar "B")]);
   descriptor "B" (Some [("C", DScalar "C")]);
   descriptor "C" None].


(** A ranking of task ids given by a table, [0] elsewhere. *)
Definition rank_of (ranks : list (string * nat)) (k : string) : nat :=
  default 0%nat ((list_to_map ranks : gmap string nat) !! k).

(** A pool built with [{min: 1, max: 3}] whose three runners, one made by
    the constructor and two by [acquire], have all been released. *)
Definition three_idle_runners : result Pool :=
  match new 4 (Some 1) (Some 3) with
  | Throw e => Throw e
  | Ok p0 =>
      let p1 := onMessage 0%nat true p0 in
      let p2 := snd (acquire p1) in
      let p3 := onMessage 1%nat true (snd (acquire p2)) in
      let p4 := onMessage 2%nat true (snd (acquire p3)) in
      release_all [0; 1; 2]%nat p4
  end.

(** A pool built with [{min: 1, max: 3}] whose three runners are all
    acquired. *)
Definition three_busy_runners : result Pool :=
  match new 4 (Some 1) (Some 3) with
  | Throw e => Throw e
  | Ok p0 =>
      let p1 := onMessage 0%nat true p0 in
      let p2 := snd (acquire p1) in
      let p3 := onMessage 1%nat true (snd (acquire p2)) in
      Ok (onMessage 2%nat true (snd (acquire p3)))
  end.

(** A pool built with [{min: 2, max: 3}] whose two runners are ready. *)
Definition two_idle_runners : result Pool :=
  match new 4 (Some 2) (Some 3) with
  | Throw e => Throw e
  | Ok p0 => Ok (onMessage 1%nat true (onMessage 0%nat true p0))
  end.

(** A pool with [{min: 1, max: 1}] whose only runner is taken and on
    which two more acquires wait. *)
Definition saturated_pool : Pool :=
  {| runners := [0%nat]; idleRunners := []; pending := [0%nat; 1%nat];
     min := 1; max := 1; listening := [(0%nat, true)];
     next_runner := 1; next_waiter := 2;
     terminated := []; served := []; failed := [] |}.

End Examples.

(** ** Runs of counter and [Deferred] operations *)
Module Runs.

(** [decrement(taskId)] called [n] times, stopping at the first throw. *)
Fixpoint decrements (n : nat) (taskId : string) : M (gmap string Z) unit :=
  match n with
  | O => ret tt
  | S n' => DependencyCounter.decrement taskId ;; decrements n' taskId
  end.

(** A call of [resolve(value)] or of [reject(reason)] on a [Deferred]. *)
Inductive Settle (T : Type) : Type :=
| DoResolve (value : T)
| DoReject (reason : error).
Arguments DoResolve {T} value.
Arguments DoReject {T} reason.

Definition settle {T} (op : Settle T) (d : Deferred.t T) : result (Deferred.t T) :=
  match op with
  | DoResolve value => Deferred.resolve value d
  | DoReject reason => Deferred.reject reason d
  end.

(** The [Deferred] after a call; a call that throws leaves it as it was. *)
Definition after {T} (d : Deferred.t T) (op : Settle T) : Deferred.t T :=
  match settle op d with Ok d' => d' | Throw _ => d end.

(** The state the promise of a [Deferred] takes from a call. *)
Definition outcome {T} (op : Settle T) : Deferred.t T :=
  match op with
  | DoResolve value => Deferred.Resolved value
  | DoReject reason => Deferred.Rejected reason
  end.

End Runs.

(** ** Messages and their guards (src/guards.ts) *)
Module Guards.

(** The values that the guards and the handlers read from a message:
    strings, booleans, [null], [undefined] and objects, the latter told
    apart by identity. *)
Inductive Value : Type :=
| VString (s : string)
| VBool (b : bool)
| VNull
| VUndefined
| VObject (ref : nat).

#[export] Instance Value_eq_dec : EqDecision Value.
Proof. solve_decision. Defined.

(** The [data] of a message event: [null], [undefined], another value for
    which [typeof data === "object"] is false, or an object with its
    properties. *)
Inductive Data : Type :=
| Null
| Undefined
| Primitive
| Object (fields : gmap string Value).

(** [key in data] *)
Definition has (key : string) (fields : gmap string Value) : bool :=
  bool_decide (is_Some (fields !! key)).

(** [data.key], read from a message that is an object. *)
Definition prop (data : Data) (key : string) : Value :=
  match data with
  | Object fields => default VUndefined (fields !! key)
  | _ => VUndefined
  end.

(** Truthiness of a value. *)
Definition truthy_value (v : Value) : bool :=
  match v with
  | VString s => Descriptor.truthy s
  | VBool b => b
  | VNull | VUndefined => false
  | VObject _ => true
  end.

(** [!arg || v === arg] for an optional string argument [arg]. *)
Definition expected (arg : option string) (v : Value) : bool :=
  match arg with
  | None => true
  | Some a => negb (Descriptor.truthy a) || bool_decide (v = VString a)
  end.

Definition isReadyMessage (data : Data) : bool :=
  match data with
  | Object fields =>
      has "type" fields && bool_decide (prop data "type" = VString "ready")
  | _ => false
  end.

Definition isRequest (data : Data) (type : option string) : bool :=
  match data with
  | Object fields =>
      has "type" fields && has "id" fields && has "input" fields &&
      expected type (prop data "type")
  | _ => false
  end.

Definition isResponse (data : Data) (type id : option string) : bool :=
  match data with
  | Object fields =>
      has "type" fields && has "id" fields &&
      expected type (prop data "type") && expected id (prop data "id")
  | _ => false
  end.

Definition isSuccessResponse (data : Data) (type id : option string) : bool :=
  isResponse data type id && bool_decide (prop data "ok" = VBool true).

Definition isFinishResponse (data : Data) (type id : option string) : bool :=
  isResponse data type id && bool_decide (prop data "finish" = VBool true).

Definition isErrorResponse (data : Data) (type id : option string) : bool :=
  isResponse data type id && bool_decide (prop data "ok" = VBool false).

End Guards.

(** ** [createResponseMessageHandler] (src/functions.ts) *)
Module ResponseHandler.
Import Guards.

(** The message of [new Error(v)]: the text of [v], and no text for
    [undefined]. An object is taken to print as a plain object does. *)
Definition error_text (v : Value) : string :=
  match v with
  | VString s => s
  | VBool true => "true"
  | VBool false => "false"
  | VNull => "null"
  | VUndefined => EmptyString
  | VObject _ => "[object Object]"
  end.

Definition unexpected_message : error := JsError "Unexpected message".

Definition createResponseMessageHandler {S : Type} (type requestId : string)
    (resolve : Data → M S unit) (reject : error → M S unit) (data : Data)
  : M S unit :=
  if isResponse data (Some type) (Some requestId) then
    if isErrorResponse data (Some type) (Some requestId) then
      reject (JsError (error_text (prop data "error")))
    else resolve data
  else reject unexpected_message.

End ResponseHandler.

(** ** The message listener of a runner's worker *)
Module RunnerWorker.
Import Guards.

(** The module variable [requestId] ([VNull] for [null]) and the messages
    the worker has posted. *)
Record Worker : Type :=
  { requestId : Value; posted : list Data }.

Definition set_requestId (v : Value) (w : Worker) : Worker :=
  {| requestId := v; posted := posted w |}.

Definition dispatch (message : Data) : M Worker unit :=
  modify (fun w => {| requestId := requestId w;
                      posted := (posted w ++ [message])%list |}).

Definition ErrorMessage (id : Value) (error : string) : Data :=
  Object (<["ok" := VBool false]> (<["id" := id]> (<["type" := VString "error"]>
            (<["error" := VString error]> ∅)))).

Definition ReadyMessage : Data := Object (<["type" := VString "ready"]> ∅).

(** [(data as any).id] *)
Definition read_id (data : Data) : result Value :=
  match data with
  | Null => Throw (TypeError "Cannot read properties of null (reading 'id')")
  | Undefined =>
      Throw (TypeError "Cannot read properties of undefined (reading 'id')")
  | Primitive => Ok VUndefined
  | Object fields => Ok (default VUndefined (fields !! "id"))
  end.

(** The listener; the handling of a request is still to be written in
    the source, so its [try] block is empty. *)
Definition onmessage (data : Data) : M Worker unit :=
  if isRequest data None then
    let* current := gets requestId in
    let idle := bool_decide (current = VNull) in
    if idle || bool_decide (current = prop data "id") then
      (if idle then modify (set_requestId (prop data "id")) else ret tt) ;;
      try_finally (ret tt) (modify (set_requestId VNull))
    else
      dispatch (ErrorMessage (prop data "id") "Worker is busy")
  else
    let* id := Scheduler.of_result (read_id data) in
    dispatch (ErrorMessage id "Invalid message").

(** The worker once the module has run: idle, the ready message posted. *)
Definition started : Worker :=
  {| requestId := VNull; posted := [ReadyMessage] |}.

(** A message event: what the listener throws is reported to the worker's
    global scope and the worker goes on. *)
Definition receive (w : Worker) (data : Data) : Worker :=
  snd (onmessage data w).

(** The reply the listener posts for a message that is no request and
    has an [id] to read. *)
Definition invalid_reply (data : Data) : option Data :=
  if isRequest data None then None
  else match read_id data with
       | Ok id => Some (ErrorMessage id "Invalid message")
       | Throw _ => None
       end.

End RunnerWorker.

(** ** The public [executeWorkflow] (the module that holds the engine)

    The generator sends the workflow to the engine's port and yields the
    responses that arrive on it. *)
Module Facade.
Import Guards ResponseHandler.

(** The messages the module posts to the engine; [payload] of the abort
    message is [error.message]. *)
Inductive Request : Type :=
| ExecuteWorkflowRequest (id : string) (payload : list Descriptor.TaskDescriptor)
| AbortWorkflowMessage (id : string) (payload : string).

(** The variables of one call and of the module: the [Deferred] objects
    made for [deferredResult], in allocation order, with the index of the
    current one ([None] for [null]); [aborted]; whether [engine] is not
    [null]; whether [handleMessage] is attached to the port; and the
    messages posted. *)
Record State : Type :=
  { deferreds : list (Deferred.t Data);
    deferredResult : option nat;
    aborted : bool;
    engine : bool;
    listening : bool;
    posted : list Request }.

Definition set_deferreds f (s : State) : State :=
  {| deferreds := f (deferreds s); deferredResult := deferredResult s;
     aborted := aborted s; engine := engine s; listening := listening s;
     posted := posted s |}.
Definition set_deferredResult v (s : State) : State :=
  {| deferreds := deferreds s; deferredResult := v;
     aborted := aborted s; engine := engine s; listening := listening s;
     posted := posted s |}.
Definition set_aborted v (s : State) : State :=
  {| deferreds := deferreds s; deferredResult := deferredResult s;
     aborted := v; engine := engine s; listening := listening s;
     posted := posted s |}.
Definition set_engine v (s : State) : State :=
  {| deferreds := deferreds s; deferredResult := deferredResult s;
     aborted := aborted s; engine := v; listening := listening s;
     posted := posted s |}.
Definition set_listening v (s : State) : State :=
  {| deferreds := deferreds s; deferredResult := deferredResult s;
     aborted := aborted s; engine := engine s; listening := v;
     posted := posted s |}.
Definition set_posted f (s : State) : State :=
  {| deferreds := deferreds s; deferredResult := deferredResult s;
     aborted := aborted s; engine := engine s; listening := listening s;
     posted := f (posted s) |}.

Definition engine_not_started : error := JsError "The engine is not started.".

(** The module's [dispatch]; the port of a [SharedWorker] is always
    there. *)
Definition dispatch (message : Request) : M State unit :=
  fun s =>
    if engine s then (Ok tt, set_posted (fun l => (l ++ [message])%list) s)
    else (Throw engine_not_started, s).

(** [deferredResult = new Deferred()] *)
Definition new_deferredResult : M State unit :=
  fun s =>
    (Ok tt,
     set_deferredResult (Some (length (deferreds s)))
       (set_deferreds (fun ds => (ds ++ [Deferred.Pending])%list) s)).

(** [deferred.resolve(result)] and [deferred.reject(reason)] on the
    [Deferred] allocated at index [i]. *)
Definition settle_deferred (i : nat)
    (settle : Deferred.t Data → result (Deferred.t Data)) : M State unit :=
  fun s =>
    match deferreds s !! i with
    | None => (Throw (TypeError "no such Deferred"), s)
    | Some d =>
        match settle d with
        | Ok d' => (Ok tt, set_deferreds (fun ds => <[i := d']> ds) s)
        | Throw e => (Throw e, s)
        end
    end.

Definition resolve (result : Data) : M State unit :=
  let* deferred := gets deferredResult in
  match deferred with
  | None => ret tt
  | Some d =>
      (if truthy_value (prop result "finish")
       then modify (set_deferredResult None)
       else new_deferredResult) ;;
      settle_deferred d (Deferred.resolve result)
  end.

Definition reject (reason : error) : M State unit :=
  let* deferred := gets deferredResult in
  modify (set_deferredResult None) ;;
  match deferred with
  | Some d => settle_deferred d (Deferred.reject reason)
  | None => ret tt
  end.

(** [abort(error)], for an [error] whose [message] is [message]. *)
Definition abort (requestId : string) (error : error) (message : string)
  : M State unit :=
  let* a := gets aborted in
  (if negb a then
     modify (set_aborted true) ;;
     dispatch (AbortWorkflowMessage requestId message)
   else ret tt) ;;
  reject error.

Definition handleMessage (requestId : string) : Data → M State unit :=
  createResponseMessageHandler "workflow:execute" requestId resolve reject.

(** What happens around the generator, while it awaits or while it is
    parked at a [yield]: a message arrives on the port, the caller's
    signal fires, or the engine reports an error (its listener sets
    [engine] to [null]). *)
Inductive Action : Type :=
| PortMessage (data : Data)
| SignalAbort
| EngineError.

(** What a listener throws does not reach the generator. *)
Definition act (requestId : string) (a : Action) (signal : bool) (s : State)
  : bool * State :=
  match a with
  | PortMessage data =>
      (signal, if listening s then snd (handleMessage requestId data s) else s)
  | SignalAbort => (true, s)
  | EngineError => (signal, set_engine false s)
  end.

(** [await deferred.promise] for the [Deferred] at index [d]. *)
Fixpoint await (requestId : string) (d : nat) (signal : bool)
    (script : list Action) (s : State)
  : option (result Data) * bool * list Action * State :=
  match deferreds s !! d with
  | Some (Deferred.Resolved data) => (Some (Ok data), signal, script, s)
  | Some (Deferred.Rejected reason) => (Some (Throw reason), signal, script, s)
  | _ =>
      match script with
      | [] => (None, signal, script, s)
      | a :: script' =>
          let '(signal', s') := act requestId a signal s in
          await requestId d signal' script' s'
      end
  end.

(** The generator is parked at a [yield] until the caller asks for the
    next value. What arrives in between is handled by the listeners at
    once: a message settles the current [Deferred] and replaces it, and
    the loop, which reads [deferredResult] afresh when it goes on, never
    awaits the one that was settled. *)
Fixpoint parked (requestId : string) (actions : list Action) (signal : bool)
    (s : State) : bool * State :=
  match actions with
  | [] => (signal, s)
  | a :: actions' =>
      let '(signal', s') := act requestId a signal s in
      parked requestId actions' signal' s'
  end.

(** The caller's view of a call: the values yielded, how the iteration
    ends, the messages posted to the engine, and whether the listener is
    still attached to the port. *)
Record Run : Type :=
  { yielded : list Data;
    ended : Api.Termination;
    sent : list Request;
    attached : bool }.

Definition null_promise : error :=
  TypeError "Cannot read properties of null (reading 'promise')".

Definition workflow_aborted : error := AbortError "Workflow aborted".

(** The [while] loop inside the [try]; an error it raises is returned
    as [Api.Threw], to be wrapped by the [catch]. The actions of [script]
    arrive while the generator awaits; [pauses i] lists the ones that
    arrive while it is parked at the [yield] of its [i]-th value, counted
    from 0, and is empty for a caller that asks for the next value as soon
    as it is handed one (a [for await] loop with a synchronous body).
    Every iteration that yields has consumed an action of [script], so
    [fuel] above its length is never used up. *)
Fixpoint loop (requestId : string) (fuel : nat) (signal : bool)
    (script : list Action) (pauses : nat → list Action) (acc : list Data)
    (s : State) : list Data * Api.Termination * State :=
  match fuel with
  | O => (acc, Api.OutOfFuel, s)
  | S fuel' =>
      match deferredResult s with
      | None => (acc, Api.Returned, s)
      | Some _ =>
          match (if signal
                 then abort requestId workflow_aborted "Workflow aborted"
                 else ret tt) s with
          | (Throw e, s1) => (acc, Api.Threw e, s1)
          | (Ok _, s1) =>
              match deferredResult s1 with
              | None => (acc, Api.Threw null_promise, s1)
              | Some d =>
                  match await requestId d signal script s1 with
                  | (None, _, _, s2) => (acc, Api.Suspended, s2)
                  | (Some (Throw reason), _, _, s2) => (acc, Api.Threw reason, s2)
                  | (Some (Ok Null), _, _, s2) =>
                      (acc, Api.Threw (JsError "Unexpected null result"), s2)
                  | (Some (Ok result), signal', script', s2) =>
                      let '(signal'', s3) :=
                        parked requestId (pauses (length acc)) signal' s2 in
                      loop requestId fuel' signal'' script' pauses
                        (acc ++ [result])%list s3
                  end
              end
          end
      end
  end.

(** The caller that asks for the next value at once, every time. *)
Definition prompt : nat → list Action := fun _ => [].

(** The caller that is late once, after the value numbered [n]: the
    [actions] arrive before it asks for the next one. *)
Definition late (n : nat) (actions : list Action) : nat → list Action :=
  fun i => if Nat.eqb i n then actions else [].

(** The state when the [try] is entered: the first [Deferred] made, the
    listener attached, the engine started. *)
Definition entered : State :=
  {| deferreds := [Deferred.Pending]; deferredResult := Some 0%nat;
     aborted := false; engine := true; listening := true; posted := [] |}.

Definition workflow_failed (e : error) : error :=
  AggregateError [e] "Workflow failed".

(** The check made before anything else, unless [skipValidation] is
    set. *)
Definition validated (tasks : list Descriptor.TaskDescriptor)
    (skipValidation : bool) : option (result unit) :=
  if skipValidation then Some (Ok tt)
  else GraphValidator.validateTaskGraph tasks.

(** The body of the [try]. *)
Definition attempt (requestId : string)
    (tasks : list Descriptor.TaskDescriptor) (signal : bool)
    (script : list Action) (pauses : nat → list Action)
  : list Data * Api.Termination * State :=
  match dispatch (ExecuteWorkflowRequest requestId tasks) entered with
  | (Throw e, s) => ([], Api.Threw e, s)
  | (Ok _, s) => loop requestId (S (length script)) signal script pauses [] s
  end.

(** [executeWorkflow(workflow, options)]: [ready] is how
    [await waitForReady()] ends, [requestId] the id drawn for the request,
    [signal] whether the signal is aborted at the call. The [catch] wraps
    what the body throws. The [finally] runs when the generator ends, not
    while it is suspended at an [await]; it detaches the listener when
    [engine] is not [null]. *)
Definition executeWorkflow (tasks : list Descriptor.TaskDescriptor)
    (skipValidation : bool) (ready : result unit) (requestId : string)
    (signal : bool) (script : list Action) (pauses : nat → list Action)
  : Run :=
  let stopped t :=
    {| yielded := []; ended := t; sent := []; attached := false |} in
  match validated tasks skipValidation with
  | None => stopped Api.OutOfFuel
  | Some (Throw e) => stopped (Api.Threw e)
  | Some (Ok _) =>
      match ready with
      | Throw e => stopped (Api.Threw e)
      | Ok _ =>
          let '(acc, t, s) := attempt requestId tasks signal script pauses in
          {| yielded := acc;
             ended := match t with
                      | Api.Threw e => Api.Threw (workflow_failed e)
                      | _ => t
                      end;
             sent := posted s;
             attached := match t with
                         | Api.Suspended => listening s
                         | _ => if engine s then false else listening s
                         end |}
      end
  end.

(** The messages that [handleMessage] passes to [resolve]. *)
Definition accepted (requestId : string) (data : Data) : bool :=
  isResponse data (Some "workflow:execute") (Some requestId) &&
  negb (isErrorResponse data (Some "workflow:execute") (Some requestId)).

(** The reason with which [handleMessage] calls [reject] for a message
    it does not accept. *)
Definition refusal (requestId : string) (data : Data) : error :=
  if isResponse data (Some "workflow:execute") (Some requestId)
  then JsError (error_text (prop data "error"))
  else unexpected_message.

(** [deferredResult], when not [null], is a pending [Deferred]. *)
Definition live (s : State) : Prop :=
  match deferredResult s with
  | Some d => deferreds s !! d = Some Deferred.Pending
  | None => True
  end.

(** The state in which the loop waits for a message. *)
Definition waiting (s : State) : Prop :=
  (∃ d, deferredResult s = Some d ∧ deferreds s !! d = Some Deferred.Pending) ∧
  listening s = true.

(** The errors that the body of the [try] can raise. *)
Definition raised (e : error) : Prop :=
  e = null_promise ∨ e = engine_not_started ∨ e = unexpected_message ∨
  ∃ v, e = JsError (error_text v).

(** What an [await] can hand to the loop. *)
Definition handed (r : result Data) : Prop :=
  match r with
  | Ok v => ∃ fields, v = Object fields
  | Throw e => raised e
  end.

(** An accepted message that does not finish the workflow. *)
Definition intermediate (requestId : string) (data : Data) : Prop :=
  accepted requestId data = true ∧ truthy_value (prop data "finish") = false.

End Facade.

(** ** Concrete messages *)
Module MessageExamples.
Import Guards.

(** A response to the request [requestId] of the public
    [executeWorkflow]. *)
Definition response (requestId : string) (finish : bool) : Data :=
  Object (<["type" := VString "workflow:execute"]>
            (<["id" := VString requestId]> (<["finish" := VBool finish]> ∅))).

(** An error response to the same request. *)
Definition error_response (requestId error : string) : Data :=
  Object (<["type" := VString "workflow:execute"]>
            (<["id" := VString requestId]>
               (<["ok" := VBool false]> (<["error" := VString error]> ∅)))).

End MessageExamples.

(** ** [resolveDependencies] (src/main/functions.ts) *)
Module Resolution.
Import Descriptor Scheduler.

(** The value of a key of the [DependencyRecord]: a buffer, or an array
    of buffers. *)
Inductive Dependency : Type :=
| One (buffer : Buffers.SharedArrayBuffer)
| Many (buffers : list Buffers.SharedArrayBuffer).

Definition missing_from_results (key : string) : error :=
  JsError ("Dependency " ++ quote ++ key ++ quote ++ " is missing from the results").

(** The text of [depTaskId] in the message. An element that is not a
    string prints as its value does; the text of [undefined] stands for
    it here. *)
Definition element_text (depTaskId : GroupElement) : string :=
  match depTaskId with GStr s => s | GOther => "undefined" end.

(** [results.get(depTaskId)]: the keys of [results] are strings. *)
Definition results_get (results : gmap string Buffers.SharedArrayBuffer)
    (depTaskId : GroupElement) : option Buffers.SharedArrayBuffer :=
  match depTaskId with GStr s => results !! s | GOther => None end.

Definition getOrError (results : gmap string Buffers.SharedArrayBuffer)
    (depTaskId : GroupElement) (index : option nat)
  : result Buffers.SharedArrayBuffer :=
  match results_get results depTaskId with
  | Some value => Ok value
  | None =>
      Throw (missing_from_results
               (element_text depTaskId ++
                match index with
                | Some i => "[" ++ pretty i ++ "]"
                | None => EmptyString
                end))
  end.

(** [dep.map((depTaskId, index) => getOrError(depTaskId, index))], from
    the index [i] on. *)
Fixpoint map_getOrError (results : gmap string Buffers.SharedArrayBuffer)
    (i : nat) (dep : list GroupElement)
  : result (list Buffers.SharedArrayBuffer) :=
  match dep with
  | [] => Ok []
  | depTaskId :: rest =>
      match getOrError results depTaskId (Some i) with
      | Throw e => Throw e
      | Ok value =>
          match map_getOrError results (S i) rest with
          | Throw e => Throw e
          | Ok values => Ok (value :: values)
          end
      end
  end.

(** The body of the loop over [depKeys]. A value of the descriptor that
    is no array, whatever it is, leads to the lookup of the key itself.
    The assignment [dependencies[depKey] = ...] stores a property of the
    record for every key but [__proto__], the setter of
    [Object.prototype]. *)
Definition resolve_key (descriptor : TaskDescriptor)
    (results : gmap string Buffers.SharedArrayBuffer) (depKey : string)
  : M (gmap string Dependency) unit :=
  match descriptor_dep descriptor depKey with
  | Some (DGroup dep) =>
      let* values := of_result (map_getOrError results 0 dep) in
      modify (fun dependencies => <[depKey := Many values]> dependencies)
  | _ =>
      let* value := of_result (getOrError results (GStr depKey) None) in
      modify (fun dependencies => <[depKey := One value]> dependencies)
  end.

(** [resolveDependencies(task, descriptor, results)]. The task is used
    for [Object.keys(task.dependencies)] alone, which is [depKeys]
    here. *)
Definition resolveDependencies (depKeys : list string)
    (descriptor : TaskDescriptor)
    (results : gmap string Buffers.SharedArrayBuffer)
  : result (gmap string Dependency) :=
  match for_of depKeys (resolve_key descriptor results) ∅ with
  | (Ok _, dependencies) => Ok dependencies
  | (Throw e, _) => Throw e
  end.

(** What [resolveDependencies] looks up for a key. *)
Definition wanted (descriptor : TaskDescriptor)
    (results : gmap string Buffers.SharedArrayBuffer) (depKey : string)
  : option Dependency :=
  match descriptor_dep descriptor depKey with
  | Some (DGroup dep) => Many <$> mapM (results_get results) dep
  | _ => One <$> results !! depKey
  end.

End Resolution.

(** ** The references of a task *)
Module References.
Import Scheduler.

(** The number of references a task makes under the keys [depKeys], as
    [initializeDependencies] counts them: one for a buffer, the length
    for an array. *)
Definition references (task : Task) (depKeys : list string) : Z :=
  foldr (fun depKey n =>
           match task_dependencies task !! depKey with
           | Some TSingle => 1 + n
           | Some (TGroup length) => Z.of_nat length + n
           | None => n
           end) 0 depKeys.

End References.

(** ** What a run of [executeWorkflow] does to the readiness of a task *)
Module Progress.
Import Scheduler Api.

(** What changes the objects of [executeWorkflow] once the loop runs: an
    action of the script, or a call of [abort] by the loop. *)
Inductive Event : Type :=
| Acted (a : Action)
| Aborted (reason : error).

Section revision.

Variable workflow : ExecutableWorkflow.
Variable resolve : ExecutableWorkflow → TaskResult → M State unit.
Variable reject : error → M State unit.
Variable abort : error → M State unit.

Definition after (s : State) (e : Event) : State :=
  match e with
  | Acted a => snd (act workflow resolve reject a false s)
  | Aborted reason => snd (abort reason s)
  end.

End revision.

(** The task [k] has the count 0 and its readiness is not resolved. *)
Definition held (k : string) (s : State) : Prop :=
  dependencyCount s !! k = Some 0 ∧
  taskReadiness s !! k ≠ Some (Deferred.Resolved tt).

(** [preserves P m]: the computation [m] leaves a state in [P] in [P],
    whether it returns or throws. *)
Definition preserves {A} (P : State → Prop) (m : M State A) : Prop :=
  ∀ s, P s → P (snd (m s)).

(** The counter and the readiness map. *)
Definition gates (s : State) := (dependencyCount s, taskReadiness s).

End Progress.

(** ** Dependency chains *)
Module Chains.

(** [chain E path]: each element of [path] is related to the next. *)
Definition chain (E : string → string → Prop) (path : list string) : Prop :=
  ∀ i u v, path !! i = Some u → path !! S i = Some v → E u v.

(** The task stored under [u] in [taskMap] holds a reference to [v]. *)
Definition holds (taskMap : gmap string Descriptor.TaskDescriptor)
    (u v : string) : Prop :=
  ∃ t, taskMap !! u = Some t ∧ v ∈ GraphValidator.task_targets t.

(** The errors of a visit started from the top-level task [top]. *)
Definition visit_error (taskMap : gmap string Descriptor.TaskDescriptor)
    (top : string) (e : error) : Prop :=
  (∃ d u, e = DependencyNotFoundError d ∧
          GraphValidator.has_task taskMap d = false ∧ holds taskMap u d) ∨
  (∃ d path, e = CyclicDependencyError d path ∧ chain (holds taskMap) path ∧
             last path = Some d ∧ head path = Some top).

End Chains.

(** ** Runs of [decrement] in the revision without a constructor *)
Module Runs0.

(** [decrement(taskId)] called [n] times, stopping at the first throw. *)
Fixpoint decrements (n : nat) (taskId : string) : M (gmap string Z) unit :=
  match n with
  | O => ret tt
  | S n' => DependencyCounter0.decrement taskId ;; decrements n' taskId
  end.

End Runs0.

(** ** Runs in which no task reports *)
Module Quiet.
Import Api.

(** [execute] is the only caller of [resolve] and [reject] outside the
    generator: it awaits the readiness of its task, and then passes on
    what [executeTask] yields, which has an empty body. A script is quiet
    when nothing in it reaches [resolve] or [reject]: the signal may
    fire. *)
Definition quiet (script : list Action) : Prop :=
  Forall (fun a => a = SignalAbort) script.

End Quiet.

(** ** The options of [new RunnerPool(options)], value by value

    [RunnerPool.new] takes each option as absent or as an integer. The
    type of an option is [number | undefined]: here the constructor is
    followed for every such value. *)
Module PoolOptions.

(** A number of JavaScript: a finite one (every finite double is a
    rational), [NaN], or an infinity. *)
Inductive Number : Type :=
| Finite (q : Q)
| NaN
| PlusInfinity
| MinusInfinity.

(** What the options object holds for a key: no such key (or no object
    at all), the value [undefined], or a number. *)
Inductive OptionValue : Type :=
| Absent
| Undefined
| Num (n : Number).

(** [options?.key], when it is not [undefined]. *)
Definition read (v : OptionValue) : option Number :=
  match v with Num n => Some n | _ => None end.

(** [a < b], [a <= b] and [a > b]: false as soon as one side is [NaN]. *)
Definition lt (a b : Number) : bool :=
  match a, b with
  | Finite p, Finite q => negb (Qle_bool q p)
  | Finite _, PlusInfinity => true
  | MinusInfinity, Finite _ => true
  | MinusInfinity, PlusInfinity => true
  | _, _ => false
  end.

Definition le (a b : Number) : bool :=
  match a, b with
  | Finite p, Finite q => Qle_bool p q
  | Finite _, PlusInfinity => true
  | MinusInfinity, (Finite _ | PlusInfinity | MinusInfinity) => true
  | PlusInfinity, PlusInfinity => true
  | _, _ => false
  end.

Definition gt (a b : Number) : bool := lt b a.

(** The value of a key of [{...DEFAULT_OPTIONS, ...options}]: a key that
    [options] has wins over the default, also when it holds [undefined]
    ([None] here). *)
Definition spread (fallback : Number) (v : OptionValue) : option Number :=
  match v with
  | Absent => Some fallback
  | Undefined => None
  | Num n => Some n
  end.

(** The number that a comparison makes of a stored option. *)
Definition to_number (v : option Number) : Number :=
  match v with Some n => n | None => NaN end.

(** [i++] on a counter that started at 0: 2^53 + 1 is no double, and the
    sum is 2^53 again. *)
Definition next (i : Z) : Z := if i <? 2 ^ 53 then i + 1 else i.

(** [for (let i = 0; i < min; i++) this.#createRunner(true)], from [i]
    on: the number of workers created, or [None] when [fuel] iterations
    do not end the loop. *)
Fixpoint create_runners (fuel : nat) (i : Z) (min : Number) (created : nat)
  : option nat :=
  match fuel with
  | O => None
  | S fuel' =>
      if lt (Finite (inject_Z i)) min
      then create_runners fuel' (next i) min (S created)
      else Some created
  end.

(** What the constructor leaves: the two stored options, and the number
    of workers it has started. *)
Record Built : Type :=
  { stored_min : option Number;
    stored_max : option Number;
    workers : nat }.

Definition construct (fuel : nat) (hardwareConcurrency : Z)
    (options_min options_max : OptionValue) : option (result Built) :=
  if match read options_min with
     | Some m => le m (Finite 0)
     | None => false
     end then
    Some (Throw (TypeError "The minimum number of runners must be greater than 0"))
  else if match read options_max with
          | Some m => le m (Finite 0)
          | None => false
          end then
    Some (Throw (TypeError "The maximum number of runners must be greater than 0"))
  else if match read options_min, read options_max with
          | Some a, Some b => gt a b
          | _, _ => false
          end then
    Some (Throw (JsError "The minimum number of runners cannot exceed the maximum number of runners"))
  else
    let min := spread (Finite 1) options_min in
    let max := spread (Finite (inject_Z hardwareConcurrency)) options_max in
    if gt (to_number min) (Finite 0) then
      match create_runners fuel 0 (to_number min) 0 with
      | Some n => Some (Ok {| stored_min := min; stored_max := max; workers := n |})
      | None => None
      end
    else Some (Ok {| stored_min := min; stored_max := max; workers := 0 |}).

(** The options that the constructor refuses. *)
Definition refused (options_min options_max : OptionValue) : Prop :=
  (∃ m, read options_min = Some m ∧ le m (Finite 0) = true) ∨
  (∃ m, read options_max = Some m ∧ le m (Finite 0) = true) ∨
  (∃ a b, read options_min = Some a ∧ read options_max = Some b ∧
          gt a b = true).

(** An option of [RunnerPool.new] as a value. *)
Definition integer (option : option Z) : OptionValue :=
  match option with
  | Some m => Num (Finite (inject_Z m))
  | None => Absent
  end.

End PoolOptions.

(** * Properties *)

Local Open Scope list_scope.

(** Decide a closed decidable proposition by evaluation. *)
Ltac by_compute := apply (bool_decide_unpack _); vm_compute; exact I.

(** ** Buffer-type tags *)
Section buffer_tags.
Import Buffers.

Ltac tag_cases H :=
  repeat (apply elem_of_cons in H as [-> | H]);
  [.. | by apply elem_of_nil in H].

Lemma buffer_type_tags_NoDup : NoDup buffer_type_tags.
Proof. by_compute. Qed.

Lemma construct_aligned (c : TypedArrayClass) (buffer : SharedArrayBuffer) :
  byteLength buffer mod BYTES_PER_ELEMENT c = 0 →
  construct c buffer = Ok {| class_of := c; buffer_of := buffer |}.
Proof. intros H. unfold construct. by rewrite decide_True. Qed.

(** The class [fromSharedArrayBuffer] picks for a tag determines the tag
    that [getBufferType] reads back. *)
Lemma getBufferType_of_from (t : string) (buffer : SharedArrayBuffer)
    (a : TypedArray) :
  t ∈ buffer_type_tags →
  fromSharedArrayBuffer t buffer = Ok a →
  getBufferType a = Ok t.
Proof.
  intros Ht Ha. tag_cases Ht;
    unfold fromSharedArrayBuffer in Ha; simpl in Ha; unfold construct in Ha;
    destruct (decide _); try discriminate;
    injection Ha as <-; reflexivity.
Qed.

(** Every typed array has one of the eleven tags, and that tag builds an
    array of the same class again. *)
Lemma kind_tag_kind (a : TypedArray) :
  ∃ t, t ∈ buffer_type_tags ∧ getBufferType a = Ok t ∧
       fromSharedArrayBuffer t (buffer_of a) =
         construct (class_of a) (buffer_of a).
Proof.
  destruct a as [c b]. destruct c; eexists; (split; [|split; reflexivity]);
    by_compute.
Qed.

(** C9. For each of the eleven tags [t] and each buffer whose byte length
    is a multiple of the element width of [t], [fromSharedArrayBuffer]
    returns a typed array whose tag, read back by [getBufferType], is [t];
    and two tags of the set that build arrays of the same class are the
    same tag, so that tags and classes are in bijection. *)
Theorem tag_kind_tag_roundtrip (t : string) (buffer : SharedArrayBuffer)
    (Ht : t ∈ buffer_type_tags)
    (Hlen : byteLength buffer mod tag_width t = 0) :
  (∃ a, fromSharedArrayBuffer t buffer = Ok a ∧ getBufferType a = Ok t) ∧
  (∀ t' buffer' a a',
      t' ∈ buffer_type_tags →
      fromSharedArrayBuffer t buffer = Ok a →
      fromSharedArrayBuffer t' buffer' = Ok a' →
      class_of a' = class_of a → t' = t).
Proof.
  split.
  - assert (∃ a, fromSharedArrayBuffer t buffer = Ok a) as [a Ha].
    { tag_cases Ht;
        match type of Hlen with
        | context [tag_width ?s] =>
            let w := eval vm_compute in (tag_width s) in
            change (tag_width s) with w in Hlen
        end;
        unfold fromSharedArrayBuffer; simpl; rewrite construct_aligned;
        eauto. }
    exists a. split; [done|]. by eapply getBufferType_of_from.
  - intros t' buffer' a a' Ht' Ha Ha' Hc.
    pose proof (getBufferType_of_from _ _ _ Ht Ha) as H1.
    pose proof (getBufferType_of_from _ _ _ Ht' Ha') as H2.
    assert (getBufferType a' = getBufferType a) as Heq.
    { unfold getBufferType, instanceof. by rewrite Hc. }
    congruence.
Qed.

Lemma tag_kind_tag_roundtrip_witness :
  (∃ a, fromSharedArrayBuffer "uint8_clamped" {| byteLength := 3 |} = Ok a ∧
        getBufferType a = Ok "uint8_clamped") ∧
  (∀ t' buffer' a a',
      t' ∈ buffer_type_tags →
      fromSharedArrayBuffer "uint8_clamped" {| byteLength := 3 |} = Ok a →
      fromSharedArrayBuffer t' buffer' = Ok a' →
      class_of a' = class_of a → t' = "uint8_clamped").
Proof.
  apply (tag_kind_tag_roundtrip "uint8_clamped" {| byteLength := 3 |}).
  - by_compute.
  - vm_compute. reflexivity.
Defined.

End buffer_tags.

(** ** Graph validation *)
Section graph_validator.
Import Descriptor GraphValidator GraphSpec Examples.

(** *** Loops *)

Lemma for_each_cons {A S} (body : A → S → option (result S)) x l s :
  for_each body (x :: l) s =
    match body x s with
    | Some (Ok s') => for_each body l s'
    | r => r
    end.
Proof. reflexivity. Qed.

(** A loop whose body keeps an invariant, and returns whenever the
    invariant holds, returns and keeps the invariant. *)
Lemma for_each_returns {A S} (P : S → Prop) (body : A → S → option (result S))
    (l : list A) :
  (∀ x s, x ∈ l → P s →
     ∃ r, body x s = Some r ∧ ∀ s', r = Ok s' → P s') →
  ∀ s, P s → ∃ r, for_each body l s = Some r ∧ ∀ s', r = Ok s' → P s'.
Proof.
  induction l as [|x l IH]; intros Hbody s Hs.
  - exists (Ok s). split; [done|]. by intros s' [= <-].
  - rewrite for_each_cons.
    destruct (Hbody x s) as (r & -> & Hr); [left | done |].
    destruct r as [s1|e].
    + apply IH; [|by apply Hr]. intros y s2 Hy. apply Hbody. by right.
    + exists (Throw e). split; [done|]. by intros s' [=].
Qed.

Lemma for_each_ext {A S} (b1 b2 : A → S → option (result S)) (l : list A) :
  (∀ x s, x ∈ l → b1 x s = b2 x s) →
  ∀ s, for_each b1 l s = for_each b2 l s.
Proof.
  induction l as [|x l IH]; intros Hb s; [done|].
  rewrite !for_each_cons, Hb by left.
  destruct (b2 x s) as [[s1|e]|]; try done.
  apply IH. intros y t Hy. apply Hb. by right.
Qed.

(** Entries on which the body does nothing can be filtered out. *)
Lemma for_each_filter_map {A S} (P : A → Prop) `{!∀ x, Decision (P x)}
    (g : A → A) (b1 b2 : A → S → option (result S)) (l : list A) :
  (∀ x s, P x → b2 (g x) s = b1 x s) →
  (∀ x s, ¬ P x → b1 x s = Some (Ok s)) →
  ∀ s, for_each b2 (map g (filter P l)) s = for_each b1 l s.
Proof.
  intros Hkeep Hskip. induction l as [|x l IH]; intros s; [done|].
  rewrite for_each_cons. destruct (decide (P x)) as [Hx|Hx].
  - rewrite filter_cons_True by done. simpl map. rewrite for_each_cons, Hkeep by done.
    destruct (b1 x s) as [[s1|e]|]; try done.
  - rewrite filter_cons_False by done. by rewrite Hskip, IH.
Qed.

(** A successful loop adds up what each iteration adds to a measure. *)
Lemma for_each_ok_count {A B S} (Q : S → Prop) (measure : S → nat)
    (weight : A → list B) (body : A → S → option (result S)) (l : list A) :
  (∀ x s s', x ∈ l → Q s → body x s = Some (Ok s') →
     Q s' ∧ measure s + length (weight x) ≤ measure s')%nat →
  ∀ s s', Q s → for_each body l s = Some (Ok s') →
    (Q s' ∧ measure s + length (flat_map weight l) ≤ measure s')%nat.
Proof.
  induction l as [|x l IH]; intros Hbody s s' Hs.
  - intros [= <-]. simpl. split; [done|lia].
  - rewrite for_each_cons. destruct (body x s) as [[s1|e]|] eqn:Hx; try done.
    intros Hl. destruct (Hbody x s s1) as [Hs1 Hm]; [left|done|done|].
    destruct (IH (λ y t t' Hy, Hbody y t t' (list_elem_of_further _ _ _ Hy)) s1 s' Hs1 Hl)
      as [Hs' Hm'].
    split; [done|]. simpl. rewrite length_app. lia.
Qed.

(** *** The task map *)

Lemma has_task_false taskMap k :
  has_task taskMap k = false ↔ taskMap !! k = None ∧ inherited k = false.
Proof.
  unfold has_task. rewrite orb_false_iff, bool_decide_eq_false.
  rewrite <-eq_None_not_Some. done.
Qed.

Lemma has_visited_false st k :
  has_visited st k = false ↔ (k ∉ visited st) ∧ inherited k = false.
Proof.
  unfold has_visited. by rewrite orb_false_iff, bool_decide_eq_false.
Qed.

Lemma build_taskMap_ok tasks : ∀ m0 m,
  hygienic m0 →
  build_taskMap tasks m0 = Ok m →
  hygienic m ∧
  NoDup (id <$> tasks) ∧
  Forall (λ t, inherited (id t) = false ∧ m0 !! id t = None) tasks ∧
  (∀ t, t ∈ tasks → m !! id t = Some t) ∧
  (∀ k, k ∉ id <$> tasks → m !! k = m0 !! k) ∧
  (size m = size m0 + length tasks)%nat.
Proof.
  induction tasks as [|t tasks IH]; intros m0 m Hm0; simpl.
  - intros [= <-]. split_and!; [done|constructor|constructor|set_solver|done|lia].
  - destruct (has_task m0 (id t)) eqn:Ht; [done|].
    apply has_task_false in Ht as [Hnone Hinh]. intros Hb.
    apply IH in Hb as (Hm & Hnd & Hall & Hget & Hother & Hsize).
    2:{ intros k [v Hk]. destruct (decide (id t = k)) as [<-|Hne]; [done|].
        rewrite lookup_insert_ne in Hk by done. by apply Hm0. }
    assert (id t ∉ id <$> tasks) as Hfresh.
    { intros Hin. apply list_elem_of_fmap in Hin as (t' & Heq & Hin).
      rewrite Forall_forall in Hall. destruct (Hall t' Hin) as [_ Hl].
      rewrite <-Heq in Hl. by rewrite lookup_insert_eq in Hl. }
    repeat split; try done.
    + by constructor.
    + constructor; [done|]. eapply Forall_impl; [exact Hall|].
      intros t' [? Hl]. split; [done|].
      destruct (decide (id t = id t')) as [Heq|Hne].
      * rewrite Heq in Hl. by rewrite lookup_insert_eq in Hl.
      * by rewrite lookup_insert_ne in Hl.
    + intros t' [->|Hin]%elem_of_cons; [|by apply Hget].
      rewrite Hother by done. apply lookup_insert_eq.
    + intros k Hk. apply not_elem_of_cons in Hk as [Hk1 Hk2].
      rewrite Hother by done. by rewrite lookup_insert_ne.
    + rewrite Hsize, map_size_insert_None by done. lia.
Qed.

Lemma build_taskMap_returns tasks : ∀ m0,
  NoDup (id <$> tasks) →
  Forall (λ t, inherited (id t) = false ∧ m0 !! id t = None) tasks →
  ∃ m, build_taskMap tasks m0 = Ok m.
Proof.
  induction tasks as [|t tasks IH]; intros m0 Hnd Hall; simpl; [by eexists|].
  apply NoDup_cons in Hnd as [Hfresh Hnd]. apply Forall_cons in Hall as [[Hi Hn] Hall].
  assert (has_task m0 (id t) = false) as -> by by apply has_task_false.
  apply IH; [done|]. eapply Forall_forall. intros t' Hin.
  rewrite Forall_forall in Hall. destruct (Hall t' Hin) as [? Hl]. split; [done|].
  rewrite lookup_insert_ne; [done|]. intros Heq. apply Hfresh.
  rewrite Heq. apply list_elem_of_fmap. eauto.
Qed.


(** *** The inner function [visit] *)

Lemma visit_S fuel taskMap id st :
  visit (S fuel) taskMap id st =
    if has_visited st id
    then Some (Throw (CyclicDependencyError id (stack st ++ [id])))
    else
      let st1 := {| visited := {[id]} ∪ visited st;
                    stack := stack st ++ [id] |} in
      match taskMap !! id with
      | None => Some (Throw (TypeError "Cannot read properties of undefined"))
      | Some task =>
          let body :=
            match dependencies task with
            | None => Some (Ok st1)
            | Some deps =>
                for_each (fun kd st =>
                            visit_dep (visit fuel taskMap) taskMap (snd kd) st)
                         deps st1
            end in
          match body with
          | Some (Ok st2) =>
              Some (Ok {| visited := visited st2;
                          stack := removelast (stack st2) |})
          | r => r
          end
      end.
Proof. reflexivity. Qed.

(** With more fuel than there are unvisited tasks, [visit] returns; the
    visited set only grows, within the ids of the task map. *)
Lemma visit_returns taskMap (Hm : hygienic taskMap) : ∀ fuel id st,
  visited st ⊆ dom taskMap →
  (size (dom taskMap ∖ visited st) < fuel)%nat →
  ∃ r, visit fuel taskMap id st = Some r ∧
       ∀ st', r = Ok st' → visited st ⊆ visited st' ∧ visited st' ⊆ dom taskMap.
Proof.
  induction fuel as [|fuel IH]; intros id st Hsub Hfuel; [lia|].
  rewrite visit_S. destruct (has_visited st id) eqn:Hv.
  { eexists. split; [done|]. by intros st' [=]. }
  apply has_visited_false in Hv as [Hv Hinh].
  destruct (taskMap !! id) as [task|] eqn:Hid.
  2:{ eexists. split; [done|]. by intros st' [=]. }
  simpl. set (st1 := {| visited := {[id]} ∪ visited st; stack := stack st ++ [id] |}).
  set (P := λ s : VisitState, visited st1 ⊆ visited s ∧ visited s ⊆ dom taskMap).
  assert (id ∈ dom taskMap) as Hdom by (apply elem_of_dom; eauto).
  assert (P st1) as HP1 by (split; [done|]; simpl; set_solver).
  assert (∀ d s, P s →
            ∃ r, visit fuel taskMap d s = Some r ∧ ∀ s', r = Ok s' → P s') as Hrec.
  { intros d s [Hs1 Hs2].
    destruct (IH d s Hs2) as (r & Hr & Hmono).
    - assert (dom taskMap ∖ visited s ⊂ dom taskMap ∖ visited st) as Hlt.
      { simpl in Hs1. split; [set_solver|]. intros Hc. apply Hv.
        assert (id ∈ dom taskMap ∖ visited st) as Hin by set_solver.
        apply Hc in Hin. set_solver. }
      apply subset_size in Hlt. lia.
    - exists r. split; [done|]. intros s' ->. destruct (Hmono s' eq_refl).
      split; [by etrans|done]. }
  assert (∀ d s, P s →
            ∃ r, check_and_visit (visit fuel taskMap) taskMap d s = Some r ∧
                 ∀ s', r = Ok s' → P s') as Hcheck.
  { intros d s HP. unfold check_and_visit. destruct (has_task taskMap d); [by apply Hrec|].
    eexists. split; [done|]. by intros s' [=]. }
  assert (∀ dep s, P s →
            ∃ r, visit_dep (visit fuel taskMap) taskMap dep s = Some r ∧
                 ∀ s', r = Ok s' → P s') as Hdep.
  { intros [d|elems|] s HP; simpl.
    - destruct (truthy d); [by apply Hcheck|].
      eexists. split; [done|]. by intros s' [= <-].
    - apply (for_each_returns P); [|done]. intros [d|] s0 _ HP0; [by apply Hcheck|].
      eexists. split; [done|]. by intros s' [= <-].
    - eexists. split; [done|]. by intros s' [= <-]. }
  assert (∃ r, match dependencies task with
               | None => Some (Ok st1)
               | Some deps =>
                   for_each (fun kd st =>
                      visit_dep (visit fuel taskMap) taskMap (snd kd) st) deps st1
               end = Some r ∧ ∀ s', r = Ok s' → P s') as (r & -> & Hr).
  { destruct (dependencies task) as [deps|].
    - apply (for_each_returns P); [|done]. intros kd s _ HP. by apply Hdep.
    - eexists. split; [done|]. by intros s' [= <-]. }
  destruct r as [st2|e].
  - eexists. split; [done|]. intros st' [= <-]. simpl.
    destruct (Hr st2 eq_refl) as [H1 H2]. simpl in H1. split; [set_solver|done].
  - eexists. split; [done|]. by intros st' [=].
Qed.

(** A [visit] that succeeds has marked its own id, which was unmarked, and
    has made one successful nested visit for each reference it follows. *)
Lemma visit_ok_size taskMap : ∀ fuel id st st',
  visited st ⊆ dom taskMap →
  visit fuel taskMap id st = Some (Ok st') →
  ∃ task, taskMap !! id = Some task ∧
          visited st' ⊆ dom taskMap ∧
          (size (visited st) + length (id :: task_targets task)
             ≤ size (visited st'))%nat.
Proof.
  induction fuel as [|fuel IH]; intros id st st' Hsub; [done|].
  rewrite visit_S. destruct (has_visited st id) eqn:Hv; [done|].
  apply has_visited_false in Hv as [Hv Hinh].
  destruct (taskMap !! id) as [task|] eqn:Hid; [|done].
  simpl. set (st1 := {| visited := {[id]} ∪ visited st; stack := stack st ++ [id] |}).
  set (Q := λ s : VisitState, visited s ⊆ dom taskMap).
  assert (Q st1) as HQ1.
  { unfold Q. simpl. apply elem_of_dom_2 in Hid. set_solver. }
  assert (size ({[id]} ∪ visited st) = S (size (visited st))) as Hsize1.
  { rewrite size_union by set_solver. by rewrite size_singleton. }
  assert (∀ d s s', Q s →
            check_and_visit (visit fuel taskMap) taskMap d s = Some (Ok s') →
            Q s' ∧ (size (visited s) + length [d] ≤ size (visited s'))%nat)
    as Hcheck.
  { intros d s s' HQ. unfold check_and_visit. destruct (has_task taskMap d); [|done].
    intros Hd. apply IH in Hd as (t & _ & Hs' & Hsz); [|done].
    split; [done|]. simpl in *. lia. }
  assert (∀ dep s s', Q s →
            visit_dep (visit fuel taskMap) taskMap dep s = Some (Ok s') →
            Q s' ∧ (size (visited s) + length (dep_targets dep)
                      ≤ size (visited s'))%nat) as Hdep.
  { intros [d|elems|] s s' HQ; simpl.
    - destruct (truthy d); [by apply Hcheck|]. intros [= <-]. simpl. split; [done|lia].
    - apply (for_each_ok_count Q (λ s, size (visited s))); [|done].
      intros [d|] s0 s0' _ HQ0; [by apply Hcheck|].
      intros [= <-]. simpl. split; [done|lia].
    - intros [= <-]. simpl. split; [done|lia]. }
  destruct (dependencies task) as [deps|] eqn:Hdeps.
  - destruct (for_each _ deps st1) as [[st2|e]|] eqn:Hloop; try done.
    intros [= <-]. simpl.
    apply (for_each_ok_count Q (λ s, size (visited s))
             (λ kd, dep_targets (snd kd))) in Hloop as [HQ2 Hsz]; [| |done].
    2:{ intros kd s s' _ HQ. by apply Hdep. }
    exists task. split; [done|]. split; [done|].
    unfold task_targets. rewrite Hdeps.
    change (visited st1) with ({[id]} ∪ visited st) in Hsz. simpl. lia.
  - intros [= <-]. exists task. split; [done|]. split; [done|].
    unfold task_targets. rewrite Hdeps.
    change (visited st1) with ({[id]} ∪ visited st). simpl. lia.
Qed.

Lemma visit_dep_no_targets visit_rec taskMap dep st :
  dep_targets dep = [] →
  visit_dep visit_rec taskMap dep st = Some (Ok st).
Proof.
  destruct dep as [d|elems|]; simpl; [by destruct (truthy d)| |done].
  revert st. induction elems as [|[d|] elems IH]; intros st; simpl; [done..|].
  intros H. by apply IH.
Qed.

(** The visit of a task that follows no reference. *)
Lemma visit_no_targets fuel taskMap id task st :
  taskMap !! id = Some task →
  task_targets task = [] →
  has_visited st id = false →
  visit (S fuel) taskMap id st =
    Some (Ok {| visited := {[id]} ∪ visited st; stack := stack st |}).
Proof.
  intros Hid Ht Hv. rewrite visit_S, Hv, Hid. simpl.
  unfold task_targets in Ht. destruct (dependencies task) as [deps|].
  - set (st1 := {| visited := _; stack := _ |}).
    assert (for_each (λ kd st, visit_dep (visit fuel taskMap) taskMap (snd kd) st)
              deps st1 = Some (Ok st1)) as ->.
    { clear -Ht. induction deps as [|kd deps IH]; [done|].
      simpl in Ht. apply app_eq_nil in Ht as [H1 H2].
      rewrite for_each_cons, visit_dep_no_targets by done. by apply IH. }
    simpl. by rewrite removelast_last.
  - simpl. by rewrite removelast_last.
Qed.


(** *** [validateTaskGraph] *)

Lemma hygienic_empty : hygienic ∅.
Proof. intros k [v Hk]. by rewrite lookup_empty in Hk. Qed.

(** The fuel given to [visit] by [validateTaskGraph] is never used up:
    the function returns, normally or by a [throw], on every input. *)
Lemma validateTaskGraph_total (tasks : list TaskDescriptor) :
  ∃ r, validateTaskGraph tasks = Some r.
Proof.
  unfold validateTaskGraph, validateTaskGraph_fuel.
  destruct (build_taskMap tasks ∅) as [m|e] eqn:Hb; [|by eexists].
  apply build_taskMap_ok in Hb as (Hm & _ & _ & _ & _ & Hsize);
    [|apply hygienic_empty].
  rewrite map_size_empty in Hsize.
  destruct (for_each_returns (λ s, visited s ⊆ dom m)
              (λ task st, visit (S (length tasks)) m (id task) st) tasks)
    with (s := initial_state) as (r & -> & _).
  - intros t s _ Hs.
    destruct (visit_returns m Hm (S (length tasks)) (id t) s Hs) as (r & Hr & Hmono).
    + assert (size (dom m ∖ visited s) ≤ size (dom m))%nat
        by (apply subseteq_size; set_solver).
      rewrite size_dom in *. lia.
    + exists r. split; [done|]. intros s' ->. by apply Hmono.
  - simpl. set_solver.
  - destruct r; by eexists.
Qed.

Lemma flat_map_cons_length {A B} (a : A → B) (f : A → list B) (l : list A) :
  length (flat_map (λ x, a x :: f x) l) = (length l + length (flat_map f l))%nat.
Proof.
  induction l as [|x l IH]; [done|]. simpl. rewrite !length_app, IH. lia.
Qed.

Lemma flat_map_nil_Forall {A B} (f : A → list B) (l : list A) :
  flat_map f l = [] → Forall (λ x, f x = []) l.
Proof.
  induction l as [|x l IH]; [constructor|]. simpl.
  intros [? ?]%app_eq_nil. constructor; auto.
Qed.

(** What the validator accepts: the ids are pairwise distinct, none of
    them is a property of [Object.prototype], and no task holds a
    reference that the validator follows. *)
Lemma validateTaskGraph_ok_iff (tasks : list TaskDescriptor) :
  validateTaskGraph tasks = Some (Ok tt) ↔
  NoDup (id <$> tasks) ∧
  Forall (λ t, inherited (id t) = false) tasks ∧
  Forall (λ t, task_targets t = []) tasks.
Proof.
  unfold validateTaskGraph, validateTaskGraph_fuel. split.
  - destruct (build_taskMap tasks ∅) as [m|e] eqn:Hb; [|done].
    apply build_taskMap_ok in Hb as (Hm & Hnd & Hall & Hget & _ & Hsize);
      [|apply hygienic_empty].
    rewrite map_size_empty in Hsize.
    destruct (for_each _ tasks initial_state) as [[st'|e]|] eqn:Hloop; try done.
    intros _. split; [done|]. split.
    { eapply Forall_impl; [exact Hall|]. by intros t [? _]. }
    apply (for_each_ok_count (λ s, visited s ⊆ dom m) (λ s, size (visited s))
             (λ t, id t :: task_targets t)) in Hloop as [Hsub Hcount].
    + apply subseteq_size in Hsub. rewrite size_dom in Hsub.
      rewrite flat_map_cons_length in Hcount.
      change (visited initial_state) with (∅ : gset string) in Hcount.
      rewrite size_empty in Hcount.
      apply flat_map_nil_Forall, nil_length_inv. lia.
    + intros t s s' Ht Hs Hv.
      apply visit_ok_size in Hv as (t' & Ht' & Hs' & Hsz); [|done].
      rewrite (Hget t Ht) in Ht'. injection Ht' as <-. done.
    + simpl. set_solver.
  - intros (Hnd & Hinh & Hnone).
    destruct (build_taskMap_returns tasks ∅) as [m Hb]; [done| |].
    { eapply Forall_impl; [exact Hinh|]. intros t Ht. split; [done|].
      apply lookup_empty. }
    rewrite Hb.
    apply build_taskMap_ok in Hb as (_ & _ & _ & Hget & _ & _);
      [|apply hygienic_empty].
    assert (∀ ts st,
              ts ⊆ tasks → NoDup (id <$> ts) →
              (∀ t, t ∈ ts → id t ∉ visited st) →
              ∃ st', for_each (λ task st, visit (S (length tasks)) m (id task) st)
                       ts st = Some (Ok st')) as Hloop.
    { induction ts as [|t ts IH]; intros st Hsub Hnd' Hfresh; [by eexists|].
      rewrite for_each_cons.
      assert (t ∈ tasks) as Ht by (apply Hsub; left).
      rewrite Forall_forall in Hinh, Hnone.
      rewrite (visit_no_targets _ _ _ t); [|by apply Hget|by apply Hnone|].
      2:{ apply has_visited_false. split; [apply Hfresh; left|by apply Hinh]. }
      rewrite fmap_cons in Hnd'. apply NoDup_cons in Hnd' as [Hnew Hnd'].
      apply IH; [set_solver|done|]. intros t' Ht'. simpl.
      assert (id t' ≠ id t).
      { intros Heq. apply Hnew. rewrite <-Heq. apply list_elem_of_fmap. eauto. }
      assert (id t' ∉ visited st) by (apply Hfresh; by right).
      set_solver. }
    destruct (Hloop tasks initial_state) as [st' ->]; [done..|set_solver|done].
Qed.


(** *** Dropped references *)

Lemma for_each_map {A B S} (g : A → B) (body : B → S → option (result S))
    (l : list A) (s : S) :
  for_each body (map g l) s = for_each (λ x, body (g x)) l s.
Proof.
  revert s. induction l as [|x l IH]; intros s; [done|].
  simpl map. rewrite !for_each_cons. by destruct (body (g x) s) as [[s1|e]|].
Qed.

Lemma has_task_strip taskMap k :
  has_task (strip_task <$> taskMap) k = has_task taskMap k.
Proof.
  unfold has_task. f_equal. apply bool_decide_ext.
  rewrite lookup_fmap. apply fmap_is_Some.
Qed.

Lemma visit_dep_strip rec' rec taskMap dep st :
  (∀ d s, rec' d s = rec d s) →
  skipped_dep dep = false →
  visit_dep rec' (strip_task <$> taskMap) (strip_dep dep) st =
  visit_dep rec taskMap dep st.
Proof.
  intros Hrec _. destruct dep as [d|elems|]; simpl; [| |done].
  - unfold check_and_visit. by rewrite has_task_strip, Hrec.
  - rewrite <-(map_id (filter _ elems)).
    apply (for_each_filter_map (λ d, skipped_elem d = false) (λ d, d)).
    + intros [d|] s _; [|done].
      unfold check_and_visit. by rewrite has_task_strip, Hrec.
    + by intros [d|] s.
Qed.

Lemma visit_dep_skipped rec taskMap dep st :
  skipped_dep dep ≠ false → visit_dep rec taskMap dep st = Some (Ok st).
Proof.
  destruct dep as [d|elems|]; simpl; [|done..].
  by destruct (truthy d).
Qed.

Lemma visit_strip taskMap : ∀ fuel id st,
  visit fuel (strip_task <$> taskMap) id st = visit fuel taskMap id st.
Proof.
  induction fuel as [|fuel IH]; intros id st; [done|].
  rewrite !visit_S, lookup_fmap.
  destruct (has_visited st id); [done|].
  destruct (taskMap !! id) as [task|]; [|done]. simpl.
  destruct (dependencies task) as [deps|]; [|done]. simpl.
  rewrite (for_each_filter_map (λ kd, skipped_dep (snd kd) = false)
             (λ kd, (fst kd, strip_dep (snd kd)))
             (λ kd st, visit_dep (visit fuel taskMap) taskMap (snd kd) st)).
  - done.
  - intros kd s Hkd. simpl. by apply visit_dep_strip.
  - intros kd s Hkd. by apply visit_dep_skipped.
Qed.

Lemma build_taskMap_strip tasks : ∀ m0,
  build_taskMap (map strip_task tasks) (strip_task <$> m0) =
    match build_taskMap tasks m0 with
    | Ok m => Ok (strip_task <$> m)
    | Throw e => Throw e
    end.
Proof.
  induction tasks as [|t tasks IH]; intros m0; [done|].
  simpl. rewrite has_task_strip. destruct (has_task m0 (id t)); [done|].
  by rewrite <-IH, fmap_insert.
Qed.

Lemma validateTaskGraph_strip (tasks : list TaskDescriptor) :
  validateTaskGraph (map strip_task tasks) = validateTaskGraph tasks.
Proof.
  unfold validateTaskGraph, validateTaskGraph_fuel.
  pose proof (build_taskMap_strip tasks ∅) as Hb. rewrite fmap_empty in Hb.
  rewrite length_map, Hb. clear Hb.
  destruct (build_taskMap tasks ∅) as [m|e]; [|done].
  rewrite for_each_map.
  rewrite (for_each_ext _ (λ task st, visit (S (length tasks)) m (id task) st));
    [done|].
  intros t s _. exact (visit_strip m _ (id t) s).
Qed.


(** No error is raised by a dropped reference alone: tasks whose
    references are all dropped pass, whatever those references are. *)
Lemma only_skipped_references_pass (tasks : list TaskDescriptor) :
  NoDup (id <$> tasks) →
  Forall (λ t, inherited (id t) = false) tasks →
  Forall (λ t, task_targets (strip_task t) = []) tasks →
  validateTaskGraph tasks = Some (Ok tt).
Proof.
  intros Hnd Hinh Hnone. rewrite <-validateTaskGraph_strip.
  apply validateTaskGraph_ok_iff.
  change (map strip_task tasks) with (strip_task <$> tasks). split_and!.
  - rewrite <-list_fmap_compose. exact Hnd.
  - rewrite Forall_forall in Hinh. rewrite Forall_forall.
    intros t' (t & -> & Ht)%list_elem_of_fmap. simpl. by apply Hinh.
  - rewrite Forall_forall in Hnone. rewrite Forall_forall.
    intros t' (t & -> & Ht)%list_elem_of_fmap. by apply Hnone.
Qed.

(** A ranking that decreases along every edge excludes cycles. *)
Lemma ranked_acyclic (tasks : list TaskDescriptor) (rank : string → nat) :
  (∀ u v, edge tasks u v → (rank v < rank u)%nat) →
  ∀ u, ¬ tc (edge tasks) u u.
Proof.
  intros Hrank u Hu.
  assert (∀ a b, tc (edge tasks) a b → (rank b < rank a)%nat) as Hlt.
  { induction 1 as [a b Hab|a b c Hab _ IH]; [by apply Hrank|].
    apply Hrank in Hab. lia. }
  apply Hlt in Hu. lia.
Qed.

Ltac edge_cases H :=
  destruct H as (t & Ht & <- & Hv);
  repeat (apply elem_of_cons in Ht as [-> | Ht]);
  [.. | by apply elem_of_nil in Ht];
  vm_compute in Hv;
  repeat (apply elem_of_cons in Hv as [-> | Hv]);
  try (by apply elem_of_nil in Hv).

Lemma shared_dependency_valid : spec_valid shared_dependency.
Proof.
  split_and!.
  - by_compute.
  - intros u v H. edge_cases H; by_compute.
  - apply (ranked_acyclic _ (rank_of [("b", 1%nat); ("c", 1%nat)])).
    intros u v H. edge_cases H; vm_compute; lia.
Qed.

Lemma chain_valid : spec_valid chain.
Proof.
  split_and!.
  - by_compute.
  - intros u v H. edge_cases H; by_compute.
  - apply (ranked_acyclic _ (rank_of [("A", 2%nat); ("B", 1%nat)])).
    intros u v H. edge_cases H; vm_compute; lia.
Qed.

Lemma readme_tasks_valid : spec_valid readme_tasks.
Proof.
  split_and!.
  - by_compute.
  - intros u v H. edge_cases H; by_compute.
  - apply (ranked_acyclic _ (rank_of [("b", 1%nat)])).
    intros u v H. edge_cases H; vm_compute; lia.
Qed.

(** Every graph with an edge is rejected. *)
Lemma validateTaskGraph_rejects_edges (tasks : list TaskDescriptor) (u v : string) :
  edge tasks u v → validateTaskGraph tasks ≠ Some (Ok tt).
Proof.
  intros (t & Ht & _ & Hv) Hok.
  apply validateTaskGraph_ok_iff in Hok as (_ & _ & Hnone).
  rewrite Forall_forall in Hnone. rewrite (Hnone t Ht) in Hv.
  by apply elem_of_nil in Hv.
Qed.

(** One half of the equivalence holds: what the validator accepts is
    valid, for it has no edge at all. *)
Lemma validateTaskGraph_ok_valid (tasks : list TaskDescriptor) :
  validateTaskGraph tasks = Some (Ok tt) → spec_valid tasks.
Proof.
  intros Hok.
  assert (∀ u v, ¬ edge tasks u v) as Hnone.
  { intros u v He. by eapply validateTaskGraph_rejects_edges. }
  apply validateTaskGraph_ok_iff in Hok as (Hnd & _ & _).
  split_and!; [done| |].
  - intros u v He. by apply Hnone in He.
  - intros u Hu. destruct Hu as [u v He|u v w He _]; by apply Hnone in He.
Qed.

(** C1. The equivalence fails on the code: the three graphs below have
    pairwise-distinct ids, no missing reference and no cycle, and
    [validateTaskGraph] raises [CyclicDependencyError] on each of them,
    at the second visit of a task that is already marked. *)
Theorem validateTaskGraph_throws_on_acyclic_graphs :
  (spec_valid shared_dependency ∧
   validateTaskGraph shared_dependency =
     Some (Throw (CyclicDependencyError "a" ["b"; "a"]))) ∧
  (spec_valid chain ∧
   validateTaskGraph chain = Some (Throw (CyclicDependencyError "B" ["B"]))) ∧
  (spec_valid readme_tasks ∧
   validateTaskGraph readme_tasks =
     Some (Throw (CyclicDependencyError "a" ["b"; "a"]))).
Proof.
  split_and!;
    [apply shared_dependency_valid | by vm_compute
    |apply chain_valid | by vm_compute
    |apply readme_tasks_valid | by vm_compute].
Qed.



End graph_validator.

(** ** The dependency counter *)
Section dependency_counter.

(** The revision with a constructor decrements once: it throws on a
    count of zero and on an absent id, and otherwise stores what it
    returns. *)
Lemma decrement_fails (counts : gmap string Z) (taskId : string) :
  counts !! taskId = None ∨ counts !! taskId = Some 0 →
  DependencyCounter.decrement taskId counts =
    (Throw (DependencyCounter.already_zero taskId), counts).
Proof. unfold DependencyCounter.decrement. by intros [-> | ->]. Qed.

Lemma decrement_returns (counts : gmap string Z) (taskId : string) (c : Z) :
  counts !! taskId = Some c → 0 < c →
  ∃ counts',
    DependencyCounter.decrement taskId counts = (Ok (c - 1), counts') ∧
    DependencyCounter.get taskId counts' = Some (c - 1) ∧
    ∀ k, k ≠ taskId →
         DependencyCounter.get k counts' = DependencyCounter.get k counts.
Proof.
  intros Hc Hpos. unfold DependencyCounter.decrement, DependencyCounter.get.
  rewrite Hc. simpl. destruct (Z.ltb_spec (c - 1) 0) as [?|_]; [lia|].
  eexists. split; [done|]. split; [apply lookup_insert_eq|].
  intros k Hk. by apply lookup_insert_ne.
Qed.

Lemma decrement0_fails (counts : gmap string Z) (taskId : string) :
  counts !! taskId = None ∨ counts !! taskId = Some 0 →
  DependencyCounter0.decrement taskId counts =
    (Throw (DependencyCounter.already_zero taskId), counts).
Proof. unfold DependencyCounter0.decrement. by intros [-> | ->]. Qed.

(** C5. In the revision without a constructor, [decrement] on a stored
    count [c > 0] returns [c - 1] and stores [c - 2], so a following
    [get] returns [c - 2] and not the [c - 1] that was returned. *)
Theorem decrement_first_revision_stores_two_less
    (counts : gmap string Z) (taskId : string) (c : Z)
    (Hc : counts !! taskId = Some c) (Hpos : 0 < c) :
  ∃ counts',
    DependencyCounter0.decrement taskId counts = (Ok (c - 1), counts') ∧
    counts' !! taskId = Some (c - 2) ∧
    DependencyCounter0.get taskId counts' = c - 2 ∧
    DependencyCounter0.get taskId counts' ≠ c - 1.
Proof.
  unfold DependencyCounter0.decrement, DependencyCounter0.get.
  rewrite Hc. simpl. destruct (Z.ltb_spec (c - 1) 0) as [?|_]; [lia|].
  eexists. split; [done|]. rewrite lookup_insert_eq. simpl.
  split_and!; [f_equal; lia|lia|lia].
Qed.

Lemma decrement_first_revision_stores_two_less_witness :
  ∃ counts',
    DependencyCounter0.decrement "a" {["a" := 2]} = (Ok (2 - 1), counts') ∧
    counts' !! "a" = Some (2 - 2) ∧
    DependencyCounter0.get "a" counts' = 2 - 2 ∧
    DependencyCounter0.get "a" counts' ≠ 2 - 1.
Proof.
  apply (decrement_first_revision_stores_two_less {["a" := 2]} "a" 2).
  - vm_compute. reflexivity.
  - lia.
Defined.

End dependency_counter.

(** ** Dependency bookkeeping *)
Section scheduler.
Import Descriptor GraphValidator Scheduler Api Examples.

(** The scalar branch of [initializeDependencies] files the task under
    the dependency key; the target [S] plays no role. *)
Lemma initializeDependencies_scalar (task : Task) (i type key target : string)
    (set : list string) (s : State) :
  task_dependencies task !! key = Some TSingle →
  dependents s !! key = Some set →
  initializeDependencies task
    {| id := i; type := type; dependencies := Some [(key, DScalar target)] |} s =
  (Ok tt,
   set_dependents (λ d, <[key := set_add (task_id task) set]> d)
     (set_dependencyCount
        (λ c, <[task_id task := default 0 (c !! task_id task) + 1]> c) s)).
Proof.
  intros Ht Hd. unfold initializeDependencies, depKeys. simpl.
  unfold bind at 1. rewrite Ht.
  unfold bind, on_counter, DependencyCounter.increment, add_dependent, ret. simpl.
  by rewrite Hd.
Qed.

(** C4. After the initialisation of a workflow in which [b] lists [a] as
    its only dependency, under the key ["c"], the dependents of [a] are
    empty and [b] is among the dependents of [c]: the scalar branch files
    the task under the dependency key, not under the target. *)
Theorem scalar_dependency_is_filed_under_its_key :
  let run := setup keyed_workflow (fresh keyed_workflow) in
  fst run = Ok tt ∧
  task_targets keyed_descriptor_b = ["a"] ∧
  dependents (snd run) !! "a" = Some [] ∧
  dependents (snd run) !! "c" = Some ["b"].
Proof. by vm_compute. Qed.

(** The last loop of [updateDependencies] takes one from the count of
    each dependent, whatever the number of its references. *)
Lemma decrement_each_dependent (l : list string) : ∀ s,
  NoDup l →
  (∀ U, U ∈ l → ∃ c, dependencyCount s !! U = Some c ∧ 1 < c) →
  ∃ s', for_of l (λ dependent, decrement_and_resolve (Some dependent)) s =
          (Ok tt, s') ∧
        (∀ U, U ∈ l →
              dependencyCount s' !! U = (λ c, c - 1) <$> dependencyCount s !! U) ∧
        (∀ U, U ∉ l → dependencyCount s' !! U = dependencyCount s !! U) ∧
        taskReadiness s' = taskReadiness s.
Proof.
  induction l as [|k l IH]; intros s Hnd Hc.
  - exists s. split_and!; try done. intros U HU. by apply elem_of_nil in HU.
  - apply NoDup_cons in Hnd as [Hk Hnd].
    destruct (Hc k) as (c & Hkc & Hgt); [left|].
    simpl. unfold bind at 1, decrement_and_resolve at 1, bind at 1.
    unfold decrement_key, on_counter, DependencyCounter.decrement.
    rewrite Hkc. simpl.
    destruct (Z.ltb_spec (c - 1) 0) as [?|_]; [lia|].
    destruct (Z.eqb_spec (c - 1) 0) as [?|_]; [lia|]. simpl.
    destruct (IH (set_dependencyCount
                    (λ _, <[k := c - 1]> (dependencyCount s)) s))
      as (s' & Hrun & Hin & Hout & Hready); [done| |].
    { intros U HU. simpl. rewrite lookup_insert_ne by set_solver.
      apply Hc. by right. }
    exists s'. rewrite Hrun. split_and!; [done| | |done].
    + intros U [->|HU]%elem_of_cons.
      * rewrite Hout by done. simpl. rewrite lookup_insert_eq, Hkc. done.
      * rewrite Hin by done. simpl. by rewrite lookup_insert_ne by set_solver.
    + intros U [Hne HU]%not_elem_of_cons. rewrite Hout by done.
      simpl. by rewrite lookup_insert_ne.
Qed.

Lemma updateDependencies_once_per_dependent (task : Task)
    (descriptor : TaskDescriptor) (set : list string) (s : State) :
  dependencies descriptor = None →
  dependents s !! task_id task = Some set →
  NoDup set →
  (∀ U, U ∈ set → ∃ c, dependencyCount s !! U = Some c ∧ 1 < c) →
  ∃ s', updateDependencies task descriptor s = (Ok tt, s') ∧
        (∀ U, U ∈ set →
              dependencyCount s' !! U = (λ c, c - 1) <$> dependencyCount s !! U) ∧
        (∀ U, U ∉ set → dependencyCount s' !! U = dependencyCount s !! U) ∧
        taskReadiness s' = taskReadiness s.
Proof.
  intros Hdeps Hset Hnd Hc. unfold updateDependencies, depKeys.
  rewrite Hdeps. simpl. unfold bind at 1, ret. unfold bind at 1.
  rewrite Hset. by apply decrement_each_dependent.
Qed.

(** C3. In the workflow of the README the task [b] refers to [a] twice
    and starts with a count of 2; when [a] finishes, [updateDependencies]
    decrements the count of [b] once, to 1, and the readiness of [b] stays
    pending. *)
Theorem updateDependencies_decrements_once :
  let s0 := snd (setup readme_workflow (fresh readme_workflow)) in
  let upd := updateDependencies task_a descriptor_a s0 in
  fst (setup readme_workflow (fresh readme_workflow)) = Ok tt ∧
  task_targets readme_descriptor_b = ["a"; "a"] ∧
  dependencyCount s0 !! "b" = Some 2 ∧
  dependents s0 !! "a" = Some ["b"] ∧
  fst upd = Ok tt ∧
  dependencyCount (snd upd) !! "b" = Some 1 ∧
  taskReadiness (snd upd) !! "b" = Some Deferred.Pending.
Proof. by vm_compute. Qed.

(** The first loop of [updateDependencies] decrements the counts filed
    under the finished task's own dependency keys: when [b] finishes in the
    chain a→b, the decrement of [a] throws. *)
Lemma updateDependencies_decrements_own_dependency :
  let s0 := snd (setup chain_workflow (fresh chain_workflow)) in
  let s1 := snd (updateDependencies task_a descriptor_a s0) in
  fst (updateDependencies task_a descriptor_a s0) = Ok tt ∧
  taskReadiness s1 !! "b" = Some (Deferred.Resolved tt) ∧
  fst (updateDependencies chain_task_b chain_descriptor_b s1) =
    Throw (DependencyCounter.already_zero "a").
Proof. by vm_compute. Qed.

End scheduler.

(** ** [executeWorkflow] *)
Section execute_workflow.
Import Descriptor GraphValidator Scheduler Api Examples.

Lemma setup_no_tasks (descriptors : gmap string TaskDescriptor) :
  let workflow := {| tasks := []; taskDescriptors := descriptors |} in
  setup workflow (fresh workflow) = (Throw no_initial_tasks, fresh workflow).
Proof. reflexivity. Qed.

(** C6, as amended. For a workflow with zero tasks validation passes, and
    [executeWorkflow] raises "Unable to execute workflow without initial
    tasks" before it yields any event, in both revisions. *)
Theorem zero_task_workflow_throws
    (descriptors : gmap string TaskDescriptor) (signal : bool)
    (script : list Action) :
  let workflow := {| tasks := []; taskDescriptors := descriptors |} in
  validateTaskGraph [] = Some (Ok tt) ∧
  executeWorkflow_v1 workflow signal script =
    {| yielded := []; ended := Threw no_initial_tasks |} ∧
  executeWorkflow_v2 workflow signal script =
    {| yielded := []; ended := Threw no_initial_tasks |}.
Proof.
  split; [by vm_compute|].
  unfold executeWorkflow_v1, executeWorkflow_v2, executeWorkflow.
  by rewrite setup_no_tasks.
Qed.

(** C6, as stated, fails: the run of the empty workflow is not a single
    [Final] event followed by a normal return. *)
Lemma zero_task_workflow_yields_no_final :
  ¬ (validateTaskGraph [] = Some (Ok tt) ∧
     executeWorkflow_v1 {| tasks := []; taskDescriptors := ∅ |} false [] =
       {| yielded := [Final ∅]; ended := Returned |}) ∧
  ¬ (validateTaskGraph [] = Some (Ok tt) ∧
     executeWorkflow_v2 {| tasks := []; taskDescriptors := ∅ |} false [] =
       {| yielded := [Final ∅]; ended := Returned |}).
Proof. split; intros [_ H]; vm_compute in H; discriminate H. Qed.

(** *** What the dependency bookkeeping leaves alone *)


Lemma keeps_bind {X A B} (proj : State → X) (m : M State A)
    (k : A → M State B) :
  keeps proj m → (∀ a, keeps proj (k a)) → keeps proj (bind m k).
Proof.
  intros Hm Hk s. unfold bind. specialize (Hm s).
  destruct (m s) as [[a|e] s']; simpl in *; [|done].
  by rewrite Hk.
Qed.

Lemma keeps_for_of {X A} (proj : State → X) (l : list A)
    (body : A → M State unit) :
  (∀ x, keeps proj (body x)) → keeps proj (for_of l body).
Proof.
  intros Hbody. induction l as [|x l IH]; [done|].
  simpl. apply keeps_bind; [apply Hbody|done].
Qed.

Lemma keeps_others_on_counter {A} (m : M (gmap string Z) A) :
  keeps others (on_counter m).
Proof. intros s. unfold on_counter. by destruct (m (dependencyCount s)). Qed.

Lemma keeps_others_add_dependent k taskId :
  keeps others (add_dependent k taskId).
Proof.
  intros s. unfold add_dependent.
  by destruct (k ≫= _) as [[k' set]|].
Qed.

Lemma keeps_others_initializeDependencies task descriptor :
  keeps others (initializeDependencies task descriptor).
Proof.
  apply keeps_for_of. intros depKey.
  destruct (task_dependencies task !! depKey) as [[|n]|]; [| |done].
  - apply keeps_bind; [apply keeps_others_on_counter|].
    intros _. apply keeps_others_add_dependent.
  - apply keeps_bind; [apply keeps_others_on_counter|].
    intros _. apply keeps_for_of. intros i.
    apply keeps_bind; [done|]. intros depTaskId.
    apply keeps_others_add_dependent.
Qed.

(** A loop keeps what each run of its body keeps, thrown or not. *)
Lemma for_of_keeps {S A} (P : S → Prop) (l : list A) (body : A → M S unit) :
  (∀ x s, P s → P (snd (body x s))) →
  ∀ s, P s → P (snd (for_of l body s)).
Proof.
  intros Hbody. induction l as [|x l IH]; intros s Hs; [done|].
  simpl. unfold bind. specialize (Hbody x s Hs).
  destruct (body x s) as [[[]|e] s']; simpl in *; [by apply IH|done].
Qed.

Lemma setup_ready (workflow : ExecutableWorkflow) (s : State) :
  setup workflow (fresh workflow) = (Ok tt, s) → ready_to_run workflow s.
Proof.
  unfold setup.
  set (body := λ task : Task, _).
  set (P := λ (done_ : list Task) (s : State),
         others s = (∅, taskReadiness s, keys workflow, [], None, false) ∧
         (∀ k d, taskReadiness s !! k = Some d → d = Deferred.Pending) ∧
         (∀ t, t ∈ done_ → is_Some (taskReadiness s !! task_id t))).
  assert (∀ l done_ s0 s1, P done_ s0 →
            for_of l body s0 = (Ok tt, s1) → P (done_ ++ l) s1) as Hloop.
  { induction l as [|t l IH]; intros done_ s0 s1 HP.
    - intros [= <-]. by rewrite app_nil_r.
    - simpl. unfold bind at 1.
      destruct (body t s0) as [[[]|e] s'] eqn:Hbody; [|done].
      intros Hl. rewrite (cons_middle t), app_assoc. eapply IH; [|exact Hl].
      clear Hl IH. unfold body in Hbody.
      unfold bind at 1, modify at 1 in Hbody. simpl in Hbody.
      unfold bind at 1, modify at 1 in Hbody. simpl in Hbody.
      set (s0' := set_taskReadiness _ (set_dependents _ s0)) in Hbody.
      assert (others s' = others s0') as Hkeep.
      { destruct (taskDescriptors workflow !! task_id t) as [descriptor|].
        - pose proof (keeps_others_initializeDependencies t descriptor s0') as H.
          by rewrite Hbody in H.
        - unfold throw in Hbody. discriminate Hbody. }
      destruct HP as (Ho & Hpend & Hdone).
      unfold others in *. simpl in Hkeep.
      injection Ho as Hr Hrem Hd Hdm Ha.
      injection Hkeep as Hr' Htr' Hrem' Hd' Hdm' Ha'.
      split_and!.
      + congruence.
      + intros k d. rewrite Htr'.
        destruct (decide (task_id t = k)) as [<-|Hne].
        * rewrite lookup_insert_eq. by intros [= <-].
        * rewrite lookup_insert_ne by done. apply Hpend.
      + intros t' [Ht'|Ht']%elem_of_app; rewrite Htr'.
        * destruct (decide (task_id t = task_id t')) as [->|Hne].
          -- rewrite lookup_insert_eq. by eexists.
          -- rewrite lookup_insert_ne by done. by apply Hdone.
        * apply list_elem_of_singleton in Ht' as ->.
          rewrite lookup_insert_eq. by eexists. }
  unfold bind at 1.
  destruct (for_of (map snd (tasks workflow)) body (fresh workflow))
    as [[[]|e] s1] eqn:Hfor; [|done].
  apply (Hloop _ []) in Hfor; [|by split_and!; [done|intros k d; simpl; by rewrite lookup_empty|set_solver]].
  destruct Hfor as (Ho & Hpend & Hdone). simpl in Hdone.
  unfold bind, gets. simpl.
  destruct (filter _ _) as [|? ?]; [done|].
  unfold new_deferredMessage. intros [= <-]. unfold others in Ho.
  injection Ho as Hr Hrem Hd Hdm Ha.
  unfold ready_to_run. simpl. rewrite Hr, Hrem, Hd, Ha. split_and!; try done.
Qed.

(** *** The bound on the loop *)

Lemma keeps_outbox_decrement_and_resolve k :
  keeps outbox (decrement_and_resolve k).
Proof.
  apply keeps_bind.
  - destruct k as [k|]; [|done]. intros s. unfold decrement_key, on_counter.
    by destruct (DependencyCounter.decrement k (dependencyCount s)).
  - intros n. destruct (n =? 0); [|done]. intros s. unfold resolve_readiness.
    destruct (k ≫= _) as [[k' d]|]; [|done].
    by destruct (Deferred.resolve () d).
Qed.

Lemma keeps_outbox_updateDependencies task descriptor :
  keeps outbox (updateDependencies task descriptor).
Proof.
  apply keeps_bind.
  - apply keeps_for_of. intros depKey.
    destruct (task_dependencies task !! depKey) as [[|n]|];
      try apply keeps_outbox_decrement_and_resolve.
    apply keeps_for_of. intros i. apply keeps_bind; [done|].
    intros depTaskId. apply keeps_outbox_decrement_and_resolve.
  - intros _. apply keeps_bind.
    + intros s. by destruct (dependents s !! task_id task).
    + intros set. apply keeps_for_of. intros dependent.
      apply keeps_outbox_decrement_and_resolve.
Qed.

Lemma keeps_outbox_reject_remaining reason :
  keeps outbox (reject_remaining reason).
Proof.
  apply keeps_bind; [done|]. intros l. apply keeps_for_of. intros k s.
  unfold reject_readiness. destruct (taskReadiness s !! k) as [d|]; [|done].
  by destruct (Deferred.reject reason d).
Qed.

(** Settling a [Deferred] does not move [deferredMessage]. *)
Lemma keeps_deferredMessage_settle i settle :
  keeps deferredMessage (settle_deferred i settle).
Proof.
  intros s. unfold settle_deferred. destruct (deferreds s !! i) as [d|]; [|done].
  by destruct (settle d).
Qed.

Lemma resolve_with_pending workflow taskId d result s :
  deferredMessage s = Some d →
  deferreds s !! d = Some Deferred.Pending →
  outbox_pending (snd (resolve_with workflow taskId d result s)).
Proof.
  intros Hdm Hd. unfold resolve_with.
  set (first := if finish result then _ else _).
  assert (keeps outbox first) as Hfirst.
  { unfold first. destruct (finish result); [|done].
    apply keeps_bind; [done|]. intros _. apply keeps_bind; [|done].
    destruct (tasks_get workflow taskId), (taskDescriptors workflow !! taskId);
      try done. apply keeps_outbox_updateDependencies. }
  unfold bind at 1. specialize (Hfirst s).
  destruct (first s) as [[[]|e] s1]; simpl in Hfirst.
  2:{ simpl. unfold outbox_pending. unfold outbox in Hfirst.
      injection Hfirst as -> ->. by rewrite Hdm. }
  unfold outbox in Hfirst. injection Hfirst as Hds1 Hdm1.
  unfold bind at 1, gets at 1. unfold bind at 1.
  destruct (remainingTasks s1) as [|k l].
  - unfold modify. pose proof (keeps_deferredMessage_settle d
      (Deferred.resolve result) (set_deferredMessage None s1)) as Hk.
    destruct (settle_deferred _ _ _) as [r s2]. simpl in *.
    unfold outbox_pending. by rewrite Hk.
  - unfold new_deferredMessage, settle_deferred. simpl.
    assert (d < length (deferreds s))%nat as Hlt by by eapply lookup_lt_Some.
    rewrite Hds1, lookup_app_l, Hd by done. simpl.
    unfold outbox_pending. simpl.
    rewrite ?Hds1, list_lookup_insert_ne by lia.
    by rewrite lookup_app_r, Nat.sub_diag by lia.
Qed.

Lemma V1_resolve_pending workflow result s :
  outbox_pending s → outbox_pending (snd (V1.resolve workflow result s)).
Proof.
  intros Hs. unfold V1.resolve, bind, gets. unfold outbox_pending in Hs.
  destruct (deferredMessage s) as [d|] eqn:Hdm.
  - by apply resolve_with_pending.
  - simpl. unfold outbox_pending. by rewrite Hdm.
Qed.

Lemma V2_resolve_pending workflow result s :
  outbox_pending s → outbox_pending (snd (V2.resolve workflow result s)).
Proof.
  intros Hs. unfold V2.resolve, bind, gets. unfold outbox_pending in Hs.
  destruct (deferredMessage s) as [d|] eqn:Hdm.
  - by apply resolve_with_pending.
  - simpl. unfold outbox_pending. by rewrite Hdm.
Qed.

Lemma V1_reject_pending reason s :
  outbox_pending (snd (V1.reject reason s)).
Proof.
  unfold V1.reject, bind at 1, gets at 1. unfold bind at 1, modify at 1.
  unfold bind at 1.
  pose proof (keeps_outbox_reject_remaining reason
                (set_deferredMessage None s)) as Hk.
  destruct (reject_remaining reason _) as [[[]|e] s1]; simpl in *;
    unfold outbox in Hk; injection Hk as _ Hdm1.
  - destruct (deferredMessage s) as [d|].
    + pose proof (keeps_deferredMessage_settle d (Deferred.reject reason) s1) as Hk.
      destruct (settle_deferred _ _ _) as [r s2]. simpl in *.
      unfold outbox_pending. by rewrite Hk, Hdm1.
    + simpl. unfold outbox_pending. by rewrite Hdm1.
  - unfold outbox_pending. by rewrite Hdm1.
Qed.

Lemma V2_reject_pending reason s :
  outbox_pending s → outbox_pending (snd (V2.reject reason s)).
Proof.
  intros Hs. unfold V2.reject, bind at 1, gets at 1.
  destruct (deferredMessage s) as [d|] eqn:Hdm.
  2:{ simpl. unfold outbox_pending. by rewrite Hdm. }
  unfold bind, modify, try_finally. simpl.
  pose proof (keeps_outbox_reject_remaining reason
                (set_deferredMessage None s)) as Hk.
  destruct (reject_remaining reason _) as [r1 s1]. simpl in Hk.
  unfold outbox in Hk. injection Hk as _ Hdm1.
  pose proof (keeps_deferredMessage_settle d (Deferred.reject reason) s1) as Hk.
  destruct (settle_deferred _ _ _) as [[[]|e] s2]; simpl in *;
    unfold outbox_pending; by rewrite Hk, Hdm1.
Qed.

End execute_workflow.

Section loop_fuel.
Import Descriptor Scheduler Api.

Variable workflow : ExecutableWorkflow.
Variable resolve : ExecutableWorkflow → TaskResult → M State unit.
Variable reject : error → M State unit.
Variable abort : error → M State unit.
Variable signal_reason : error.

Hypothesis resolve_keeps_pending : ∀ result s,
  outbox_pending s → outbox_pending (snd (resolve workflow result s)).
Hypothesis reject_keeps_pending : ∀ reason s,
  outbox_pending s → outbox_pending (snd (reject reason s)).

Lemma act_pending a signal s :
  outbox_pending s →
  outbox_pending (snd (act workflow resolve reject a signal s)).
Proof.
  intros Hs. destruct a as [message|e|]; simpl; [|by apply reject_keeps_pending|done].
  unfold deliver. destruct (isErrorResponse message).
  - pose proof (reject_keeps_pending
                  (ErrorResponseReason (msg_id message) (msg_error message)) s Hs) as H.
    destruct (reject _ s) as [[[]|e] s']; simpl in *; [done|].
    by apply reject_keeps_pending.
  - pose proof (resolve_keeps_pending message s Hs) as H.
    destruct (resolve workflow message s) as [[[]|e] s']; simpl in *; [done|].
    by apply reject_keeps_pending.
Qed.

(** An [await] keeps the outbox pending and uses up the script; when it
    returns from a [Deferred] that was pending, it has used an action. *)
Lemma await_uses_script d : ∀ script signal s r signal' script' s',
  outbox_pending s →
  await workflow resolve reject d signal script s = (r, signal', script', s') →
  outbox_pending s' ∧
  (length script' ≤ length script)%nat ∧
  (deferreds s !! d = Some Deferred.Pending → is_Some r →
   (length script' < length script)%nat).
Proof.
  induction script as [|a script IH]; intros signal s r signal' script' s' Hs.
  - simpl. destruct (deferreds s !! d) as [[| |]|];
      intros [= <- <- <- <-]; (split_and!; [done|done|]); try done;
      intros _ [? [=]].
  - simpl. destruct (deferreds s !! d) as [[|v|e]|] eqn:Hd.
    + destruct (act workflow resolve reject a signal s) as [signal1 s1] eqn:Ha.
      intros Hrec. apply IH in Hrec as (? & ? & _).
      * split_and!; [done|simpl; lia|]. intros _ _. simpl. lia.
      * pose proof (act_pending a signal s Hs) as H. by rewrite Ha in H.
    + intros [= <- <- <- <-]. split_and!; [done|done|]. by intros [=].
    + intros [= <- <- <- <-]. split_and!; [done|done|]. by intros [=].
    + destruct (act workflow resolve reject a signal s) as [signal1 s1] eqn:Ha.
      intros Hrec. apply IH in Hrec as (? & ? & _).
      * split_and!; [done|simpl; lia|]. by intros [=].
      * pose proof (act_pending a signal s Hs) as H. by rewrite Ha in H.
Qed.

Lemma loop_has_fuel : ∀ fuel signal script acc s,
  outbox_pending s → (length script < fuel)%nat →
  ended (loop workflow resolve reject abort signal_reason
           fuel signal script acc s) ≠ OutOfFuel.
Proof.
  induction fuel as [|fuel IH]; intros signal script acc s Hs Hfuel; [lia|].
  simpl. destruct (deferredMessage s) as [d|] eqn:Hdm; [|done].
  destruct signal.
  { by destruct (abort signal_reason s) as [[[]|e] s']. }
  destruct (await workflow resolve reject d false script s)
    as [[[r signal'] script'] s'] eqn:Haw.
  destruct r as [[message|e]|]; [|done..].
  destruct (isErrorResponse message).
  { by destruct (abort _ s') as [[[]|e] s'']. }
  apply await_uses_script in Haw as (Hs' & _ & Hlt); [|done].
  apply IH; [done|].
  unfold outbox_pending in Hs. rewrite Hdm in Hs.
  specialize (Hlt Hs (mk_is_Some _ _ eq_refl)). lia.
Qed.

End loop_fuel.

Section has_fuel.
Import Descriptor Scheduler Api.

Lemma executeWorkflow_has_fuel (workflow : ExecutableWorkflow) (signal : bool)
    (script : list Action) :
  ended (executeWorkflow_v1 workflow signal script) ≠ OutOfFuel ∧
  ended (executeWorkflow_v2 workflow signal script) ≠ OutOfFuel.
Proof.
  unfold executeWorkflow_v1, executeWorkflow_v2, executeWorkflow.
  destruct (setup workflow (fresh workflow)) as [[[]|e] s] eqn:Hsetup; [|done].
  apply setup_ready in Hsetup as (_ & _ & Hds & Hdm & _).
  assert (outbox_pending s) as Hs.
  { unfold outbox_pending. by rewrite Hdm, Hds. }
  split; apply loop_has_fuel; try done; try lia.
  - apply V1_resolve_pending.
  - intros reason s' _. apply V1_reject_pending.
  - apply V2_resolve_pending.
  - apply V2_reject_pending.
Qed.

End has_fuel.

Section execute_workflow_abort.
Import Descriptor GraphValidator Scheduler Api Examples.

(** *** Abort *)

(** Rejecting the readiness of distinct tasks, all pending, succeeds and
    touches nothing but the readiness of those tasks. *)
Lemma reject_pending (reason : error) (l : list string) : ∀ s,
  NoDup l →
  (∀ k d, k ∈ l → taskReadiness s !! k = Some d → d = Deferred.Pending) →
  ∃ s', for_of l (reject_readiness reason) s = (Ok tt, s') ∧
        results s' = results s ∧ deferreds s' = deferreds s ∧
        deferredMessage s' = deferredMessage s ∧
        remainingTasks s' = remainingTasks s ∧ aborted s' = aborted s ∧
        (∀ k, k ∈ l → is_Some (taskReadiness s !! k) →
              taskReadiness s' !! k = Some (Deferred.Rejected reason)) ∧
        (∀ k, k ∉ l → taskReadiness s' !! k = taskReadiness s !! k).
Proof.
  induction l as [|k l IH]; intros s Hnd Hpend.
  - exists s. split_and!; try done. intros k Hk. by apply elem_of_nil in Hk.
  - apply NoDup_cons in Hnd as [Hk Hnd]. simpl. unfold bind at 1.
    unfold reject_readiness at 1.
    destruct (taskReadiness s !! k) as [d|] eqn:Hd.
    + rewrite (Hpend k d) by (done || left). simpl.
      destruct (IH (set_taskReadiness
                      (λ m, <[k := Deferred.Rejected reason]> m) s))
        as (s' & Hrun & ? & ? & ? & ? & ? & Hin & Hout); [done| |].
      { intros k' d' Hk'. simpl. rewrite lookup_insert_ne by set_solver.
        apply Hpend. by right. }
      exists s'. rewrite Hrun. split_and!; try done.
      * intros k' [->|Hk']%elem_of_cons Hsome.
        -- rewrite Hout by done. simpl. apply lookup_insert_eq.
        -- apply Hin; [done|]. simpl. rewrite lookup_insert_ne by set_solver. done.
      * intros k' [Hne Hk']%not_elem_of_cons. rewrite Hout by done.
        simpl. by rewrite lookup_insert_ne.
    + destruct (IH s) as (s' & Hrun & ? & ? & ? & ? & ? & Hin & Hout); [done| |].
      { intros k' d' Hk'. apply Hpend. by right. }
      exists s'. rewrite Hrun. split_and!; try done.
      * intros k' [->|Hk']%elem_of_cons Hsome; [|by apply Hin].
        rewrite Hd in Hsome. by destruct Hsome.
      * intros k' [Hne Hk']%not_elem_of_cons. by apply Hout.
Qed.

(** Rejecting a readiness that is settled throws. *)
Lemma reject_settled (reason : error) (k : string) (l : list string)
    (d : Deferred.t unit) (s : State) :
  taskReadiness s !! k = Some d → Deferred.settled d = true →
  for_of (k :: l) (reject_readiness reason) s =
    (Throw Deferred.already_settled, s).
Proof.
  intros Hk Hd. simpl. unfold bind, reject_readiness, Deferred.reject.
  by rewrite Hk, Hd.
Qed.

Lemma setup_has_tasks (workflow : ExecutableWorkflow) (s : State) :
  setup workflow (fresh workflow) = (Ok tt, s) → tasks workflow ≠ [].
Proof. destruct workflow as [[|kt l] d]; [discriminate|done]. Qed.

(** In the revision [V2], a signal that is aborted at the call makes
    every workflow that starts yield [Final] and return. *)
Lemma abort_at_call_v2 (workflow : ExecutableWorkflow) (s : State)
    (script : list Action) :
  setup workflow (fresh workflow) = (Ok tt, s) →
  NoDup (keys workflow) →
  executeWorkflow_v2 workflow true script =
    {| yielded := [Final ∅]; ended := Returned |}.
Proof.
  intros Hsetup Hnd. unfold executeWorkflow_v2, executeWorkflow. rewrite Hsetup.
  apply setup_ready in Hsetup as (Hres & Hrem & Hds & Hdm & Hab & Hpend & _).
  simpl. rewrite Hdm.
  unfold V2.abort, V2.reject, bind, gets, modify. simpl. rewrite Hab, Hdm. simpl.
  unfold try_finally, reject_remaining, bind, gets. simpl. rewrite Hdm. simpl.
  rewrite Hrem.
  destruct (reject_pending (AbortErrorOf [V2.signal_reason] "Workflow aborted")
              (keys workflow)
              (set_deferredMessage None (set_aborted true s)))
    as (s' & -> & Hres' & Hds' & _); [done|by intros k d _; apply Hpend|].
  unfold settle_deferred. rewrite Hds'. simpl. rewrite Hds. simpl.
  unfold finish_run. simpl. simpl in Hres'. by rewrite Hres', Hres.
Qed.

(** In the revision [V1], the same abort makes every workflow that
    starts, and whose tasks are filed under their ids, throw the error of
    [Deferred]. *)
Lemma abort_at_call_v1 (workflow : ExecutableWorkflow) (s : State)
    (script : list Action) :
  setup workflow (fresh workflow) = (Ok tt, s) →
  NoDup (keys workflow) →
  Forall (λ kt, fst kt = task_id (snd kt)) (tasks workflow) →
  executeWorkflow_v1 workflow true script =
    {| yielded := []; ended := Threw Deferred.already_settled |}.
Proof.
  intros Hsetup Hnd Hkeyed. unfold executeWorkflow_v1, executeWorkflow.
  rewrite Hsetup. pose proof (setup_has_tasks _ _ Hsetup) as Hne.
  apply setup_ready in Hsetup as (Hres & Hrem & Hds & Hdm & Hab & Hpend & Hhas).
  simpl. rewrite Hdm.
  unfold V1.abort, bind at 1, gets at 1. rewrite Hab.
  unfold bind at 1, gets at 1. rewrite Hdm. simpl.
  unfold bind at 1, modify at 1. simpl.
  unfold bind at 1, reject_remaining at 1, bind at 1, gets at 1. simpl.
  rewrite Hrem.
  destruct (reject_pending V1.signal_reason (keys workflow) (set_aborted true s))
    as (s' & -> & _ & _ & Hdm' & Hrem' & _ & Hin & _);
    [done|by intros k d _; apply Hpend|].
  unfold V1.reject, bind at 1, gets at 1.
  unfold bind at 1, modify at 1. simpl.
  unfold bind at 1, reject_remaining, bind at 1, gets at 1. simpl.
  rewrite Hrem'. simpl. rewrite Hrem.
  unfold keys in *. destruct (tasks workflow) as [|[k t] l] eqn:Htasks; [done|].
  apply Forall_cons in Hkeyed as [Hk _]. simpl in Hk. subst k.
  simpl map.
  rewrite (reject_settled _ _ _ (Deferred.Rejected V1.signal_reason)); [done| |done].
  simpl. apply Hin; [left|]. simpl. apply Hhas. simpl. left.
Qed.


(** An error response that [execute] hands to [reject] while the
    readiness of the task is pending ends the stream with that response
    as the error, and no event follows. *)
Lemma error_response_ends_the_stream :
  executeWorkflow_v1 single_task_workflow false [RunnerMessage (error_of "a")] =
    {| yielded := []; ended := Threw (ErrorResponseReason "a" "task failed") |} ∧
  executeWorkflow_v2 single_task_workflow false [RunnerMessage (error_of "a")] =
    {| yielded := []; ended := Threw (ErrorResponseReason "a" "task failed") |}.
Proof. split; by vm_compute. Qed.

(** An error response of a task that was started: its readiness is
    resolved, so the rejection of it throws. In [V2] the [finally] still
    rejects the message [Deferred] and the stream ends with the response
    as the error; in [V1] the message [Deferred] is never settled and the
    stream stays suspended, with no terminal error. *)
Lemma error_response_of_a_started_task :
  executeWorkflow_v2 chain_workflow false
    [RunnerMessage (final_of "a"); RunnerMessage (error_of "b")] =
    {| yielded := [Intermediate "a" (Some buffer)];
       ended := Threw (ErrorResponseReason "b" "task failed") |} ∧
  executeWorkflow_v1 chain_workflow false
    [RunnerMessage (final_of "a"); RunnerMessage (error_of "b")] =
    {| yielded := [Intermediate "a" (Some buffer)]; ended := Suspended |}.
Proof. split; by vm_compute. Qed.

End execute_workflow_abort.

(** ** The runner pool *)
Section runner_pool.
Import RunnerPool Examples.

(** *** The ids of workers *)

Lemma fresh_ids_of (p q : Pool) :
  fresh_ids p →
  listening q ⊆ listening p → runners q ⊆ runners p →
  (next_runner p ≤ next_runner q)%nat →
  fresh_ids q.
Proof.
  unfold fresh_ids. rewrite !Forall_forall. intros [Hl Hr] Hsubl Hsubr Hle.
  split.
  - intros wi Hwi. apply Hsubl, Hl in Hwi. lia.
  - intros r Hr'. apply Hsubr, Hr in Hr'. lia.
Qed.

Lemma fresh_ids_createRunner (is_idle : bool) (p : Pool) :
  fresh_ids p → fresh_ids (snd (createRunner is_idle p)).
Proof.
  unfold fresh_ids, createRunner. simpl. intros [Hl Hr]. split.
  - apply Forall_app. split.
    + eapply Forall_impl; [exact Hl|]. simpl. lia.
    + apply Forall_singleton. simpl. lia.
  - eapply Forall_impl; [exact Hr|]. simpl. lia.
Qed.

Lemma fresh_ids_create_idle_runners (from upto : Z) (p : Pool) :
  fresh_ids p → fresh_ids (create_idle_runners from upto p).
Proof.
  unfold create_idle_runners. intros Hp.
  induction (Z.to_nat (upto - from)) as [|n IH]; [done|].
  simpl. by apply fresh_ids_createRunner.
Qed.

Lemma fresh_ids_onMessage (w : Runner) (ready : bool) (p : Pool) :
  fresh_ids p → fresh_ids (onMessage w ready p).
Proof.
  intros Hp. unfold onMessage.
  destruct (list_find _ _) as [[i [w' is_idle]]|] eqn:Hfind; [|done].
  apply list_find_Some in Hfind as (Hi & Hw & _). simpl in Hw. subst w'.
  destruct ready.
  - destruct Hp as [Hl Hr]. split; simpl; [done|].
    apply Forall_app. split; [done|]. apply Forall_singleton.
    rewrite Forall_forall in Hl.
    by apply (Hl (w, is_idle)), list_elem_of_lookup_2 with i.
  - apply (fresh_ids_of p); [done| |done|done]. simpl.
    intros x Hx. by apply list_elem_of_filter in Hx as [_ Hx].
Qed.

Lemma fresh_ids_terminateIdleRunners (p : Pool) :
  fresh_ids p → fresh_ids (terminateIdleRunners p).
Proof.
  intros Hp. apply (fresh_ids_of p); [done|done| |done]. simpl.
  intros x Hx. by apply list_elem_of_filter in Hx as [_ Hx].
Qed.

Lemma fresh_ids_new (hardwareConcurrency : Z) (options_min options_max : option Z)
    (p : Pool) :
  new hardwareConcurrency options_min options_max = Ok p → fresh_ids p.
Proof.
  unfold new.
  destruct (match options_min with Some m => m <=? 0 | None => false end);
    [done|].
  destruct (match options_max with Some m => m <=? 0 | None => false end);
    [done|].
  destruct (match options_min, options_max with
            | Some a, Some b => a >? b
            | _, _ => false
            end); [done|].
  intros [= <-]. simpl.
  destruct (0 <? default 1 options_min).
  - apply fresh_ids_create_idle_runners. split; constructor.
  - split; constructor.
Qed.

Lemma fresh_ids_acquire (p : Pool) :
  fresh_ids p → fresh_ids (snd (acquire p)).
Proof.
  intros Hp. unfold acquire. destruct (idleRunners p) as [|r rest].
  - destruct (size p <? max p).
    + by apply fresh_ids_createRunner.
    + by apply (fresh_ids_of p).
  - by apply (fresh_ids_of p).
Qed.

Lemma fresh_ids_release (r : Runner) (p p' : Pool) :
  fresh_ids p → release r p = Ok p' → fresh_ids p'.
Proof.
  intros Hp. unfold release. destruct (bool_decide _); [|done].
  intros [= <-]. apply (fresh_ids_of p); [done|..];
    unfold dispatchPending; simpl; repeat case_match; done.
Qed.

Lemma fresh_ids_set_min (v : SetterValue) (p p' : Pool) :
  fresh_ids p → set_min v p = Ok p' → fresh_ids p'.
Proof.
  intros Hp. unfold set_min. repeat case_match; try done; intros [= <-].
  - apply fresh_ids_terminateIdleRunners, fresh_ids_create_idle_runners.
    by apply (fresh_ids_of p).
  - apply fresh_ids_create_idle_runners. by apply (fresh_ids_of p).
Qed.

Lemma fresh_ids_set_max (v : SetterValue) (p p' : Pool) :
  fresh_ids p → set_max v p = Ok p' → fresh_ids p'.
Proof.
  intros Hp. unfold set_max. repeat case_match; try done; intros [= <-].
  - apply fresh_ids_terminateIdleRunners. by apply (fresh_ids_of p).
  - by apply (fresh_ids_of p).
Qed.

Lemma fresh_ids_terminate (p : Pool) : fresh_ids p → fresh_ids (terminate p).
Proof.
  intros Hp. apply (fresh_ids_of p); [done|done| |done]. simpl.
  intros x Hx. by apply elem_of_nil in Hx.
Qed.

(** In every state that calls and messages lead to from a new pool, the
    ids in use are below the next id. *)
Lemma fresh_ids_reachable (hardwareConcurrency : Z)
    (options_min options_max : option Z) (p0 : Pool) (ops : list Op) :
  new hardwareConcurrency options_min options_max = Ok p0 →
  fresh_ids (foldl step p0 ops).
Proof.
  intros Hnew%fresh_ids_new. revert p0 Hnew.
  induction ops as [|o ops IH]; intros p Hp; [done|].
  simpl. apply IH. destruct o as [|r|w ready|v|v|]; simpl.
  - by apply fresh_ids_acquire.
  - destruct (release r p) eqn:Hr; [by eapply fresh_ids_release|done].
  - by apply fresh_ids_onMessage.
  - destruct (set_min v p) eqn:Hv; [by eapply fresh_ids_set_min|done].
  - destruct (set_max v p) eqn:Hv; [by eapply fresh_ids_set_max|done].
  - by apply fresh_ids_terminate.
Qed.

(** *** The setters *)

(** Creating workers changes neither the bounds nor the queues: a worker
    joins the pool only at its ready message. *)
Lemma create_idle_runners_keeps (from upto : Z) (p : Pool) :
  let p' := create_idle_runners from upto p in
  min p' = min p ∧ max p' = max p ∧ runners p' = runners p ∧
  idleRunners p' = idleRunners p ∧ pending p' = pending p ∧
  terminated p' = terminated p.
Proof.
  unfold create_idle_runners.
  induction (Z.to_nat (upto - from)) as [|n IH]; [done|].
  destruct IH as (? & ? & ? & ? & ? & ?). by split_and!.
Qed.

(** A setter that returns keeps [0 < min ≤ max]. *)
Lemma setters_keep_bounds (v : SetterValue) (p p' : Pool) :
  0 < min p <= max p →
  set_min v p = Ok p' ∨ set_max v p = Ok p' →
  0 < min p' <= max p'.
Proof.
  intros Hb [H|H]; [unfold set_min in H|unfold set_max in H];
    destruct v as [v|]; try done.
  - destruct (Z.leb_spec v 0); [done|]. destruct (Z.gtb_spec v (max p)); [done|].
    cbv zeta in H.
    destruct (create_idle_runners_keeps (size (with_min v p)) (min (with_min v p))
                (with_min v p)) as (Hmin & Hmax & _).
    assert (min p' = v ∧ max p' = max p) as [-> ->]; [|lia].
    injection H as <-. by case_match.
  - destruct (Z.leb_spec v 0); [done|]. destruct (Z.ltb_spec v (min p)); [done|].
    assert (min p' = min p ∧ max p' = v) as [-> ->]; [|lia].
    injection H as <-. by case_match.
Qed.

(** The setter of [min] terminates every idle runner as soon as the size
    exceeds the new minimum. *)
Lemma set_min_terminates_every_idle_runner (p p' : Pool) (v : Z) :
  set_min (Int v) p = Ok p' → size p > v →
  runners p' = filter (λ r, r ∉ idleRunners p) (runners p) ∧
  idleRunners p' = [] ∧
  terminated p' = terminated p ++ idleRunners p.
Proof.
  unfold set_min. destruct (v <=? 0); [done|]. destruct (v >? max p); [done|].
  intros H Hsize. cbv zeta in H.
  destruct (create_idle_runners_keeps (size (with_min v p)) (min (with_min v p))
              (with_min v p)) as (Hmin & _ & Hrun & Hidle & _ & Hterm).
  set (p2 := create_idle_runners _ _ _) in *.
  assert ((size p2 >? min p2) = true) as Hgt.
  { unfold size in *. rewrite Hmin, Hrun. simpl. lia. }
  rewrite Hgt in H. injection H as <-. simpl. by rewrite Hrun, Hidle, Hterm.
Qed.

(** When the new maximum is below the size, the setter terminates every
    idle runner. *)
Lemma set_max_terminates_every_idle_runner (p p' : Pool) (v : Z) :
  set_max (Int v) p = Ok p' → size p > v →
  runners p' = filter (λ r, r ∉ idleRunners p) (runners p) ∧
  idleRunners p' = [] ∧
  terminated p' = (terminated p ++ idleRunners p)%list.
Proof.
  unfold set_max. destruct (v <=? 0); [done|]. destruct (v <? min p); [done|].
  intros H Hsize. cbv zeta in H.
  assert ((size (with_max v p) >? max (with_max v p)) = true) as Hgt.
  { unfold size in *. simpl. lia. }
  rewrite Hgt in H. by injection H as <-.
Qed.

(** What a setter terminates are idle runners, and what it keeps are at
    least the busy ones. *)
Lemma terminateIdleRunners_only_idle (p : Pool) :
  let p' := terminateIdleRunners p in
  (∀ r, r ∈ runners p → r ∉ idleRunners p → r ∈ runners p') ∧
  runners p' ⊆ runners p ∧
  ∃ gone, terminated p' = terminated p ++ gone ∧ gone ⊆ idleRunners p.
Proof.
  simpl. split_and!.
  - intros r Hr Hbusy. by apply list_elem_of_filter.
  - intros r Hr. by apply list_elem_of_filter in Hr as [_ Hr].
  - by exists (idleRunners p).
Qed.

(** C7, as amended. A setter that returns keeps [0 < min ≤ max] and
    terminates idle runners only: every busy runner is still in the pool,
    no runner has joined it, and the workers terminated were idle. *)
Theorem setters_keep_bounds_and_busy_runners (v : SetterValue) (p p' : Pool)
    (Hbounds : 0 < min p <= max p)
    (Hset : set_min v p = Ok p' ∨ set_max v p = Ok p') :
  0 < min p' <= max p' ∧
  (∀ r, r ∈ runners p → r ∉ idleRunners p → r ∈ runners p') ∧
  runners p' ⊆ runners p ∧
  ∃ gone, terminated p' = terminated p ++ gone ∧ gone ⊆ idleRunners p.
Proof.
  split; [by eapply setters_keep_bounds|].
  destruct Hset as [H|H]; [unfold set_min in H|unfold set_max in H];
    destruct v as [v|]; try done.
  - destruct (v <=? 0); [done|]. destruct (v >? max p); [done|].
    cbv zeta in H.
    destruct (create_idle_runners_keeps (size (with_min v p)) (min (with_min v p))
                (with_min v p)) as (_ & _ & Hrun & Hidle & _ & Hterm).
    set (p2 := create_idle_runners _ _ _) in *. simpl in Hrun, Hidle, Hterm.
    destruct (size p2 >? min p2); injection H as <-.
    + destruct (terminateIdleRunners_only_idle p2) as (H1 & H2 & gone & H3 & H4).
      rewrite Hrun, Hidle in H1. rewrite Hrun in H2.
      rewrite Hterm in H3. rewrite Hidle in H4.
      split_and!; [done|done|]. by exists gone.
    + rewrite Hrun, Hterm. split; [by intros r Hr _|]. split; [reflexivity|].
      exists []. rewrite app_nil_r. split; [done|set_solver].
  - destruct (v <=? 0); [done|]. destruct (v <? min p); [done|].
    cbv zeta in H.
    destruct (size (with_max v p) >? max (with_max v p)); injection H as <-.
    + apply (terminateIdleRunners_only_idle (with_max v p)).
    + simpl. split; [by intros r Hr _|]. split; [reflexivity|].
      exists []. rewrite app_nil_r. split; [done|set_solver].
Qed.

Lemma setters_keep_bounds_and_busy_runners_witness :
  ∃ p p', three_busy_runners = Ok p ∧ set_max (Int 2) p = Ok p' ∧
    0 < min p' <= max p' ∧
    (∀ r, r ∈ runners p → r ∉ idleRunners p → r ∈ runners p') ∧
    runners p' ⊆ runners p ∧
    ∃ gone, terminated p' = terminated p ++ gone ∧ gone ⊆ idleRunners p.
Proof.
  eexists _, _. split; [by vm_compute|]. split; [by vm_compute|].
  eapply (setters_keep_bounds_and_busy_runners (Int 2)).
  - vm_compute. split; [reflexivity|discriminate].
  - right. vm_compute. reflexivity.
Defined.

(** C7, as stated, fails: with [min = 1], [max = 3] and three busy
    runners the invariant holds, and after [max = 2] the three runners are
    still there, above the new maximum. *)
Lemma lowering_max_leaves_busy_runners :
  ∃ p p', three_busy_runners = Ok p ∧
    (0 < min p <= size p ∧ size p <= max p) ∧
    set_max (Int 2) p = Ok p' ∧
    runners p' = [0; 1; 2]%nat ∧ max p' = 2 ∧
    ¬ (0 < min p' <= size p' ∧ size p' <= max p').
Proof.
  eexists _, _. split; [by vm_compute|]. split; [by vm_compute|].
  split; [by vm_compute|]. split; [by vm_compute|]. split; [by vm_compute|].
  intros [_ Hmax]. by vm_compute in Hmax.
Qed.

(** Both setters can also leave the pool with fewer runners than [min]:
    with [min = 1], [max = 3] and three idle runners, [max = 2] terminates
    all three, where one would do, and leaves none; with [min = 2] and two
    idle runners, [min = 1] terminates both and leaves none. *)
Lemma setters_terminate_below_min :
  (∃ p p', three_idle_runners = Ok p ∧
     min p = 1 ∧ max p = 3 ∧ runners p = [0; 1; 2]%nat ∧
     idleRunners p = [0; 1; 2]%nat ∧
     set_max (Int 2) p = Ok p' ∧
     min p' = 1 ∧ max p' = 2 ∧ runners p' = [] ∧
     terminated p' = [0; 1; 2]%nat ∧ size p' < min p') ∧
  (∃ p p', two_idle_runners = Ok p ∧
     min p = 2 ∧ max p = 3 ∧ runners p = [0; 1]%nat ∧
     idleRunners p = [0; 1]%nat ∧
     set_min (Int 1) p = Ok p' ∧
     min p' = 1 ∧ runners p' = [] ∧
     terminated p' = [0; 1]%nat ∧ size p' < min p').
Proof.
  split.
  - eexists _, _. split; [by vm_compute|]. split_and!; by vm_compute.
  - eexists _, _. split; [by vm_compute|]. split_and!; by vm_compute.
Qed.


Lemma acquire_idle (p : Pool) (r : Runner) (rest : list Runner) :
  idleRunners p = r :: rest →
  ∃ p', acquire p = (Immediately r, p') ∧
        idleRunners p' = rest ∧ runners p' = runners p ∧
        pending p' = pending p ∧ listening p' = listening p.
Proof. intros H. unfold acquire. rewrite H. by eexists. Qed.

(** The listener found for the id of a worker just created is its own. *)
Lemma listening_find_new (p : Pool) (is_idle : bool) :
  fresh_ids p →
  list_find (λ wi : Runner * bool, wi.1 = next_runner p)
    (listening p ++ [(next_runner p, is_idle)]) =
  Some (length (listening p), (next_runner p, is_idle)).
Proof.
  intros [Hl _]. apply list_find_Some. split_and!.
  - by rewrite lookup_app_r, Nat.sub_diag by lia.
  - done.
  - intros j [w i] Hj Hlt. rewrite lookup_app_l in Hj by done.
    rewrite Forall_forall in Hl.
    apply list_elem_of_lookup_2, Hl in Hj. simpl in *. lia.
Qed.

Lemma acquire_creates (p : Pool) :
  fresh_ids p → idleRunners p = [] → size p < max p →
  ∃ p', acquire p = (OnceReady (next_runner p), p') ∧
        (next_runner p ∉ runners p) ∧
        runners p' = runners p ∧ idleRunners p' = [] ∧
        pending p' = pending p ∧
        runners (onMessage (next_runner p) true p') =
          (runners p ++ [next_runner p])%list ∧
        idleRunners (onMessage (next_runner p) true p') = [] ∧
        pending (onMessage (next_runner p) true p') = pending p.
Proof.
  intros Hfresh Hidle Hsize. unfold acquire. rewrite Hidle.
  destruct (Z.ltb_spec (size p) (max p)) as [_|?]; [|lia].
  simpl. eexists. split; [done|].
  assert (next_runner p ∉ runners p) as Hnew.
  { destruct Hfresh as [_ Hr]. rewrite Forall_forall in Hr.
    intros Hin. apply Hr in Hin. lia. }
  unfold onMessage. simpl. rewrite listening_find_new by done. simpl.
  by split_and!.
Qed.

Lemma acquire_queues (p : Pool) :
  idleRunners p = [] → max p <= size p →
  ∃ p', acquire p = (Queued (next_waiter p), p') ∧
        pending p' = (pending p ++ [next_waiter p])%list ∧
        runners p' = runners p ∧ idleRunners p' = [] ∧
        served p' = served p.
Proof.
  intros Hidle Hsize. unfold acquire. rewrite Hidle.
  destruct (Z.ltb_spec (size p) (max p)) as [?|_]; [lia|].
  by eexists.
Qed.

(** One [release] with a waiter queued: the head of the pending queue is
    resolved, with the head of the idle queue. *)
Lemma release_serves_head (p : Pool) (r : Runner) (d : Waiter)
    (ds : list Waiter) :
  r ∈ runners p → pending p = d :: ds →
  ∃ p' x xs, release r p = Ok p' ∧
    (idleRunners p ++ [r])%list = x :: xs ∧
    runners p' = runners p ∧ pending p' = ds ∧ idleRunners p' = xs ∧
    served p' = (served p ++ [(d, x)])%list.
Proof.
  intros Hr Hp. unfold release. rewrite bool_decide_eq_true_2 by done.
  destruct (idleRunners p ++ [r])%list as [|x xs] eqn:Hidle.
  { by destruct (idleRunners p). }
  exists (dispatchPending
            {| runners := runners p; idleRunners := x :: xs;
               pending := pending p; min := min p; max := max p;
               listening := listening p; next_runner := next_runner p;
               next_waiter := next_waiter p; terminated := terminated p;
               served := served p; failed := failed p |}), x, xs.
  split; [done|]. split; [done|].
  unfold dispatchPending. simpl. rewrite Hp. simpl. done.
Qed.

(** Releases serve the waiters in the order in which they were queued:
    after [n] releases the first [n] waiters have been resolved, the
    [i]-th waiter by the [i]-th release. *)
Lemma release_all_fifo (rs : list Runner) : ∀ p,
  Forall (λ r, r ∈ runners p) rs →
  (length rs ≤ length (pending p))%nat →
  ∃ p', release_all rs p = Ok p' ∧
    runners p' = runners p ∧
    pending p' = drop (length rs) (pending p) ∧
    served p' =
      (served p ++ zip (take (length rs) (pending p))
                       (take (length rs) (idleRunners p ++ rs)))%list ∧
    idleRunners p' = drop (length rs) (idleRunners p ++ rs)%list.
Proof.
  induction rs as [|r rs IH]; intros p Hin Hlen.
  - exists p. simpl. rewrite !drop_0, !app_nil_r. done.
  - apply Forall_cons in Hin as [Hr Hin].
    destruct (pending p) as [|d ds] eqn:Hp; [simpl in Hlen; lia|].
    destruct (release_serves_head p r d ds Hr Hp)
      as (p1 & x & xs & Hrel & Hidle & Hrun & Hpend & Hidle1 & Hserved).
    destruct (IH p1) as (p' & Hall & Hrun' & Hpend' & Hserved' & Hidle').
    { by rewrite Hrun. }
    { rewrite Hpend. simpl in Hlen. lia. }
    exists p'. simpl release_all. rewrite Hrel. split; [done|].
    assert ((idleRunners p ++ r :: rs)%list = x :: (xs ++ rs)%list) as Heq.
    { by rewrite (cons_middle r), app_assoc, Hidle. }
    rewrite Heq. simpl.
    rewrite Hrun', Hrun, Hpend', Hpend, Hserved', Hserved, Hidle', Hidle1, Hpend.
    by rewrite <-app_assoc.
Qed.

(** C8. [acquire] returns the front of the idle queue when there is one;
    otherwise, below [max], it creates a runner that on its ready message
    joins [runners] and not the idle queue; otherwise it puts the caller
    at the back of the pending queue. A run of releases resolves the
    waiters at the front of the pending queue, in queue order. *)
Theorem acquire_and_fifo_release (p : Pool) (Hfresh : fresh_ids p) :
  (∀ r rest, idleRunners p = r :: rest →
     ∃ p', acquire p = (Immediately r, p') ∧
           idleRunners p' = rest ∧ runners p' = runners p ∧
           pending p' = pending p) ∧
  (idleRunners p = [] → size p < max p →
     ∃ p', acquire p = (OnceReady (next_runner p), p') ∧
           (next_runner p ∉ runners p) ∧
           pending p' = pending p ∧
           runners (onMessage (next_runner p) true p') =
             runners p ++ [next_runner p] ∧
           idleRunners (onMessage (next_runner p) true p') = []) ∧
  (idleRunners p = [] → max p <= size p →
     ∃ p', acquire p = (Queued (next_waiter p), p') ∧
           pending p' = pending p ++ [next_waiter p] ∧
           runners p' = runners p ∧ idleRunners p' = [] ∧
           served p' = served p) ∧
  (∀ rs, Forall (λ r, r ∈ runners p) rs →
     (length rs ≤ length (pending p))%nat →
     ∃ p', release_all rs p = Ok p' ∧
           pending p' = drop (length rs) (pending p) ∧
           fst <$> served p' =
             (fst <$> served p) ++ take (length rs) (pending p)).
Proof.
  split_and!.
  - intros r rest H. destruct (acquire_idle p r rest H) as (p' & ? & ? & ? & ? & ?).
    by exists p'.
  - intros Hidle Hsize.
    destruct (acquire_creates p Hfresh Hidle Hsize)
      as (p' & ? & ? & ? & ? & ? & ? & ? & ?).
    by exists p'.
  - apply acquire_queues.
  - intros rs Hin Hlen.
    destruct (release_all_fifo rs p Hin Hlen) as (p' & ? & ? & ? & Hs & Hi).
    exists p'. split_and!; [done..|].
    rewrite Hs, fmap_app, fst_zip; [done|].
    rewrite !length_take, length_app. lia.
Qed.

Lemma saturated_pool_reached :
  ∃ p0, new 4 (Some 1) (Some 1) = Ok p0 ∧
        snd (acquire (snd (acquire (snd (acquire (onMessage 0%nat true p0))))))
          = saturated_pool.
Proof. eexists. split; by vm_compute. Qed.

Lemma acquire_and_fifo_release_witness :
  fresh_ids saturated_pool ∧
  ∃ p', release_all [0%nat; 0%nat] saturated_pool = Ok p' ∧
        pending p' = [] ∧ fst <$> served p' = [0%nat; 1%nat].
Proof.
  assert (fresh_ids saturated_pool) as Hfresh by by_compute.
  split; [exact Hfresh|].
  destruct (acquire_and_fifo_release saturated_pool Hfresh) as (_ & _ & _ & H).
  destruct (H [0%nat; 0%nat]) as (p' & Hrel & Hpend & Hserved).
  - by_compute.
  - simpl. lia.
  - exists p'. split; [exact Hrel|]. split; [exact Hpend|exact Hserved].
Defined.

End runner_pool.

(** ** Runs of the dependency counter *)
Section counter_runs.
Import Runs.

Lemma init_lookup (deps : list string) : ∀ (counts : gmap string Z) (k : string),
  DependencyCounter.init deps counts !! k =
    if bool_decide (k ∈ deps) then Some 0 else counts !! k.
Proof.
  unfold DependencyCounter.init.
  induction deps as [|d deps IH]; intros counts k; simpl.
  - done.
  - rewrite IH. destruct (decide (k ∈ deps)) as [Hin|Hin].
    + by rewrite !bool_decide_eq_true_2 by set_solver.
    + rewrite (bool_decide_eq_false_2 (k ∈ deps)) by done.
      destruct (decide (d = k)) as [->|Hne].
      * rewrite lookup_insert_eq. by rewrite bool_decide_eq_true_2 by set_solver.
      * rewrite lookup_insert_ne by done.
        by rewrite bool_decide_eq_false_2 by set_solver.
Qed.

(** X1. A counter made by [new DependencyCounter(deps)] holds the count 0
    for exactly the ids of [deps]: [isZero] is true for them and for no
    other id, [get] of another id is [undefined], and [decrement] of
    another id throws. *)
Theorem new_counter_is_zero_on_its_ids (deps : list string) (k : string) :
  (DependencyCounter.isZero k (DependencyCounter.new deps) = true ↔ k ∈ deps) ∧
  (k ∈ deps → DependencyCounter.get k (DependencyCounter.new deps) = Some 0) ∧
  (k ∉ deps → DependencyCounter.get k (DependencyCounter.new deps) = None) ∧
  (k ∉ deps →
   fst (DependencyCounter.decrement k (DependencyCounter.new deps)) =
     Throw (DependencyCounter.already_zero k)).
Proof.
  unfold DependencyCounter.isZero, DependencyCounter.get, DependencyCounter.new,
    DependencyCounter.decrement.
  rewrite init_lookup, lookup_empty. split_and!.
  - rewrite bool_decide_eq_true. by case_bool_decide.
  - intros Hk. by rewrite bool_decide_eq_true_2.
  - intros Hk. by rewrite bool_decide_eq_false_2.
  - intros Hk. by rewrite bool_decide_eq_false_2.
Qed.





(** X3. [decrement] undoes [increment] for a count [c >= 0] whose
    successor is still counted exactly, that is below 2^53: after
    [increment(taskId)] a [decrement(taskId)] returns the count from
    before the two calls and leaves it stored (an id that was absent is
    then stored with 0); no other id changes. (At [c] = 2^53 the sum of
    the code is 2^53 again, and the [decrement] returns 2^53 - 1.) *)
Theorem increment_then_decrement (counts : gmap string Z) (taskId : string)
    (c : Z) (Hc : default 0 (counts !! taskId) = c) (Hpos : 0 <= c)
    (Hexact : DependencyCounter.exact (c + 1)) :
  ∃ counts1,
    DependencyCounter.increment taskId 1 counts = (Ok (c + 1), counts1) ∧
    DependencyCounter.decrement taskId counts1 = (Ok c, <[taskId := c]> counts) ∧
    (∀ k, k ≠ taskId → counts1 !! k = counts !! k).
Proof.
  unfold DependencyCounter.increment, DependencyCounter.decrement.
  rewrite Hc. eexists. split; [done|]. rewrite lookup_insert_eq. simpl.
  destruct (Z.ltb_spec (c + 1 - 1) 0) as [?|_]; [lia|].
  split.
  - rewrite insert_insert_eq. do 2 f_equal; lia.
  - intros k Hk. by rewrite lookup_insert_ne.
Qed.

Lemma increment_then_decrement_witness :
  ∃ counts1,
    DependencyCounter.increment "a" 1 {["a" := 2]} = (Ok (2 + 1), counts1) ∧
    DependencyCounter.decrement "a" counts1 = (Ok 2, <["a" := 2]> {["a" := 2]}) ∧
    (∀ k, k ≠ "a" → counts1 !! k = ({["a" := 2]} : gmap string Z) !! k).
Proof.
  apply (increment_then_decrement {["a" := 2]} "a" 2).
  - vm_compute. reflexivity.
  - lia.
  - unfold DependencyCounter.exact. lia.
Defined.

End counter_runs.

(** ** [Deferred] *)
Section deferred_settling.
Import Runs.

Lemma settled_stays {T} (ops : list (Settle T)) (d : Deferred.t T) :
  Deferred.settled d = true → foldl after d ops = d.
Proof.
  intros Hd. induction ops as [|op ops IH]; [done|].
  simpl. unfold after at 2, settle.
  destruct op; unfold Deferred.resolve, Deferred.reject; by rewrite Hd.
Qed.

(** X4. The first call of [resolve] or [reject] on a [Deferred] decides
    it: whatever calls follow, the state stays the one the first call gave,
    and each later call throws the already-settled error. *)
Theorem first_settle_wins {T} (op : Settle T) (ops : list (Settle T)) :
  foldl after Deferred.Pending (op :: ops) = outcome op ∧
  Forall (λ op', settle op' (outcome op) = Throw Deferred.already_settled) ops.
Proof.
  split.
  - simpl. destruct op; apply settled_stays; done.
  - apply Forall_forall. intros op' _. by destruct op, op'.
Qed.

End deferred_settling.

(** ** The response handler *)
Section messages.
Import Guards ResponseHandler.

(** X5. The handler made by [createResponseMessageHandler] for a
    non-empty type and request id calls exactly one of its callbacks:
    [reject] with "Unexpected message" unless the data is an object whose
    [type] and [id] are the expected strings, [reject] with the text of
    [error] when [ok] is [false], and [resolve] with the data in every
    other case, also when [ok] is missing. *)
Theorem handler_calls_one_callback {S : Type} (type requestId : string)
    (resolve : Data → M S unit) (reject : error → M S unit) (data : Data)
    (Htype : type ≠ EmptyString) (Hid : requestId ≠ EmptyString) :
  createResponseMessageHandler type requestId resolve reject data =
    match data with
    | Object fields =>
        if bool_decide (fields !! "type" = Some (VString type) ∧
                        fields !! "id" = Some (VString requestId)) then
          if bool_decide (fields !! "ok" = Some (VBool false))
          then reject (JsError (error_text (prop data "error")))
          else resolve data
        else reject unexpected_message
    | _ => reject unexpected_message
    end.
Proof.
  unfold createResponseMessageHandler, isErrorResponse.
  destruct data as [| | |fields]; try done.
  assert (Descriptor.truthy type = true) as Ht1.
  { unfold Descriptor.truthy. by destruct type. }
  assert (Descriptor.truthy requestId = true) as Ht2.
  { unfold Descriptor.truthy. by destruct requestId. }
  unfold isResponse, expected, has, prop. rewrite Ht1, Ht2. simpl.
  destruct (fields !! "type") as [t|], (fields !! "id") as [i|],
    (fields !! "ok") as [o|]; simpl;
    repeat case_bool_decide; simpl; try done;
    try (exfalso; naive_solver).
Qed.

Lemma handler_calls_one_callback_witness :
  createResponseMessageHandler "workflow:execute" "r1"
    (λ _, ret tt) (λ e, throw e)
    (MessageExamples.error_response "r1" "boom") =
  (throw (JsError "boom") : M unit unit).
Proof.
  apply (handler_calls_one_callback "workflow:execute" "r1"
           (λ _, ret tt) (λ e, throw e)
           (MessageExamples.error_response "r1" "boom")).
  - discriminate.
  - discriminate.
Defined.

End messages.

(** ** The listener of a runner's worker *)
Section runner_worker.
Import Guards RunnerWorker.

Lemma receive_idle (w : Worker) (data : Data) :
  requestId w = VNull →
  receive w data =
    {| requestId := VNull;
       posted := posted w ++ option_list (invalid_reply data) |}.
Proof.
  intros Hw. unfold receive, onmessage, invalid_reply.
  destruct (isRequest data None).
  - unfold bind, gets, try_finally, modify, ret. rewrite Hw. simpl.
    destruct w as [r p]. simpl in *. by rewrite app_nil_r, Hw.
  - unfold bind, Scheduler.of_result.
    destruct (read_id data) as [id|e]; simpl.
    + destruct w as [r p]. simpl in *. by rewrite Hw.
    + destruct w as [r p]. simpl in *. by rewrite app_nil_r, Hw.
Qed.

(** X6. The runner worker's listener never answers "Worker is busy":
    after any sequence of messages [requestId] is [null] again and the
    worker has posted, after its ready message, one "Invalid message"
    reply for each message that is not a request and has an [id] to read,
    in order; a request gets no reply, and neither does [null] or
    [undefined], on which the listener throws. *)
Theorem worker_is_never_busy (messages : list Data) :
  foldl receive started messages =
    {| requestId := VNull;
       posted := ReadyMessage :: omap invalid_reply messages |}.
Proof.
  assert (∀ w, requestId w = VNull →
            foldl receive w messages =
              {| requestId := VNull;
                 posted := posted w ++ omap invalid_reply messages |}) as Hgen.
  { induction messages as [|m ms IH]; intros w Hw.
    - simpl. destruct w as [r p]. simpl in *. by rewrite app_nil_r, Hw.
    - simpl. rewrite (receive_idle w m Hw). rewrite IH by done. simpl.
      f_equal. rewrite <-app_assoc. f_equal.
      by destruct (invalid_reply m). }
  by rewrite Hgen.
Qed.

End runner_worker.

(** ** The public [executeWorkflow] *)
Section facade.
Import Guards ResponseHandler Facade.

Variable requestId : string.

Lemma accepted_object (data : Data) :
  isResponse data (Some "workflow:execute") (Some requestId) = true →
  ∃ fields, data = Object fields.
Proof. destruct data; try done. by eexists. Qed.

(** A message that is accepted and does not finish: the current
    [Deferred] is resolved with it and a new one takes its place. *)
Lemma handleMessage_intermediate (data : Data) (s : State) (d : nat) :
  accepted requestId data = true →
  truthy_value (prop data "finish") = false →
  deferredResult s = Some d →
  deferreds s !! d = Some Deferred.Pending →
  handleMessage requestId data s =
    (Ok tt,
     set_deferreds (λ ds, <[d := Deferred.Resolved data]> ds)
       (set_deferredResult (Some (length (deferreds s)))
          (set_deferreds (λ ds, ds ++ [Deferred.Pending]) s))).
Proof.
  intros [Hr He]%andb_true_iff Hfin Hdr Hd.
  apply negb_true_iff in He.
  unfold handleMessage, createResponseMessageHandler. rewrite Hr, He.
  unfold resolve, bind, gets. rewrite Hdr, Hfin.
  unfold new_deferredResult, settle_deferred. simpl.
  assert (d < length (deferreds s))%nat as Hlt by by eapply lookup_lt_Some.
  by rewrite lookup_app_l, Hd by done.
Qed.

Lemma handleMessage_finish (data : Data) (s : State) (d : nat) :
  accepted requestId data = true →
  truthy_value (prop data "finish") = true →
  deferredResult s = Some d →
  deferreds s !! d = Some Deferred.Pending →
  handleMessage requestId data s =
    (Ok tt,
     set_deferreds (λ ds, <[d := Deferred.Resolved data]> ds)
       (set_deferredResult None s)).
Proof.
  intros [Hr He]%andb_true_iff Hfin Hdr Hd.
  apply negb_true_iff in He.
  unfold handleMessage, createResponseMessageHandler. rewrite Hr, He.
  unfold resolve, bind, gets. rewrite Hdr, Hfin.
  unfold modify, settle_deferred. simpl. by rewrite Hd.
Qed.

Lemma handleMessage_refused (data : Data) (s : State) (d : nat) :
  accepted requestId data = false →
  deferredResult s = Some d →
  deferreds s !! d = Some Deferred.Pending →
  handleMessage requestId data s =
    (Ok tt,
     set_deferreds (λ ds, <[d := Deferred.Rejected (refusal requestId data)]> ds)
       (set_deferredResult None s)).
Proof.
  intros Hacc Hdr Hd. unfold accepted in Hacc. unfold refusal.
  unfold handleMessage, createResponseMessageHandler.
  destruct (isResponse data _ _); simpl in Hacc.
  - apply negb_false_iff in Hacc. rewrite Hacc.
    unfold reject, bind, gets, modify, settle_deferred. rewrite Hdr. simpl.
    by rewrite Hd.
  - unfold reject, bind, gets, modify, settle_deferred. rewrite Hdr. simpl.
    by rewrite Hd.
Qed.

Lemma await_resolved d signal script s v :
  deferreds s !! d = Some (Deferred.Resolved v) →
  await requestId d signal script s = (Some (Ok v), signal, script, s).
Proof. intros Hd. destruct script; simpl; by rewrite Hd. Qed.

Lemma await_rejected d signal script s e :
  deferreds s !! d = Some (Deferred.Rejected e) →
  await requestId d signal script s = (Some (Throw e), signal, script, s).
Proof. intros Hd. destruct script; simpl; by rewrite Hd. Qed.

Lemma await_pending d signal a script s :
  deferreds s !! d = Some Deferred.Pending →
  await requestId d signal (a :: script) s =
    await requestId d (fst (act requestId a signal s)) script
      (snd (act requestId a signal s)).
Proof. intros Hd. simpl. rewrite Hd. by destruct (act requestId a signal s). Qed.

Lemma loop_step fuel signal script pauses acc s :
  loop requestId (S fuel) signal script pauses acc s =
    match deferredResult s with
    | None => (acc, Api.Returned, s)
    | Some _ =>
        match (if signal
               then abort requestId workflow_aborted "Workflow aborted"
               else ret tt) s with
        | (Throw e, s1) => (acc, Api.Threw e, s1)
        | (Ok _, s1) =>
            match deferredResult s1 with
            | None => (acc, Api.Threw null_promise, s1)
            | Some d =>
                match await requestId d signal script s1 with
                | (None, _, _, s2) => (acc, Api.Suspended, s2)
                | (Some (Throw reason), _, _, s2) => (acc, Api.Threw reason, s2)
                | (Some (Ok Null), _, _, s2) =>
                    (acc, Api.Threw (JsError "Unexpected null result"), s2)
                | (Some (Ok result), signal', script', s2) =>
                    let '(signal'', s3) :=
                      parked requestId (pauses (length acc)) signal' s2 in
                    loop requestId fuel signal'' script' pauses
                      (acc ++ [result]) s3
                end
            end
        end
    end.
Proof. done. Qed.

(** The loop yields the accepted messages that do not finish, one by
    one, and waits again, when nothing arrives while it is parked. *)
Lemma loop_intermediates (pre : list Data) : ∀ fuel script pauses acc s,
  Forall (intermediate requestId) pre →
  (∀ i, (length acc ≤ i < length acc + length pre)%nat → pauses i = []) →
  waiting s →
  ∃ s', loop requestId (length pre + fuel) false
          ((PortMessage <$> pre) ++ script) pauses acc s =
        loop requestId fuel false script pauses (acc ++ pre) s' ∧
        waiting s' ∧ posted s' = posted s ∧ engine s' = engine s ∧
        aborted s' = aborted s.
Proof.
  induction pre as [|m pre IH]; intros fuel script pauses acc s Hall Hp Hs.
  - exists s. simpl. by rewrite app_nil_r.
  - apply Forall_cons in Hall as [[Hacc Hfin] Hall].
    destruct Hs as [(d & Hdr & Hd) Hl].
    pose proof (handleMessage_intermediate m s d Hacc Hfin Hdr Hd) as Hm.
    set (s1 := set_deferreds _ _) in Hm.
    assert (d < length (deferreds s))%nat as Hlt by by eapply lookup_lt_Some.
    assert (deferreds s1 !! d = Some (Deferred.Resolved m)) as Hd1.
    { unfold s1. simpl. apply list_lookup_insert_eq.
      rewrite length_app. simpl. lia. }
    assert (waiting s1) as Hs1.
    { split; [|done]. exists (length (deferreds s)). split; [done|].
      unfold s1. simpl. rewrite list_lookup_insert_ne by lia.
      by rewrite lookup_app_r, Nat.sub_diag by lia. }
    destruct (IH fuel script pauses (acc ++ [m]) s1 Hall) as
      (s' & Hloop & Hs' & Hp' & He & Ha); [|done|].
    { intros i Hi. apply Hp. rewrite length_app in Hi. simpl in *. lia. }
    exists s'. split; [|done].
    change (length (m :: pre) + fuel)%nat with (S (length pre + fuel)).
    rewrite loop_step, Hdr. unfold ret. rewrite Hdr.
    rewrite fmap_cons. simpl app.
    rewrite await_pending by done. unfold act. rewrite Hl, Hm. simpl fst.
    simpl snd. rewrite (await_resolved _ _ _ _ _ Hd1).
    unfold accepted in Hacc. apply andb_true_iff in Hacc as [Hr _].
    apply accepted_object in Hr as [fields ->].
    rewrite Hp by (simpl; lia). simpl parked. cbv iota beta.
    rewrite Hloop. by rewrite <-app_assoc.
Qed.

(** *** Every script *)

Lemma handleMessage_settles (data : Data) (s : State) (d : nat) :
  deferredResult s = Some d →
  deferreds s !! d = Some Deferred.Pending →
  ∃ r, handed r ∧
       live (snd (handleMessage requestId data s)) ∧
       deferreds (snd (handleMessage requestId data s)) !! d =
         Some (match r with
               | Ok v => Deferred.Resolved v
               | Throw e => Deferred.Rejected e
               end).
Proof.
  intros Hdr Hd.
  assert (d < length (deferreds s))%nat as Hlt by by eapply lookup_lt_Some.
  destruct (accepted requestId data) eqn:Hacc.
  - pose proof Hacc as [Hr _]%andb_true_iff.
    apply accepted_object in Hr as [fields ->].
    exists (Ok (Object fields)). split; [by eexists|].
    destruct (truthy_value (prop (Object fields) "finish")) eqn:Hfin.
    + rewrite (handleMessage_finish _ s d) by done. simpl. split; [done|].
      by apply list_lookup_insert_eq.
    + rewrite (handleMessage_intermediate _ s d) by done. simpl. split.
      * unfold live. simpl. rewrite list_lookup_insert_ne by lia.
        by rewrite lookup_app_r, Nat.sub_diag by lia.
      * apply list_lookup_insert_eq. rewrite length_app. simpl. lia.
  - exists (Throw (refusal requestId data)). split.
    + simpl. unfold refusal, raised.
      destruct (isResponse data _ _); [right; right; right; by eexists|].
      by right; right; left.
    + rewrite (handleMessage_refused _ s d) by done. simpl. split; [done|].
      by apply list_lookup_insert_eq.
Qed.

Lemma await_hands d : ∀ script signal s r signal' script' s',
  deferredResult s = Some d →
  deferreds s !! d = Some Deferred.Pending →
  await requestId d signal script s = (Some r, signal', script', s') →
  handed r ∧ live s' ∧ (length script' < length script)%nat.
Proof.
  induction script as [|a script IH]; intros signal s r signal' script' s' Hdr Hd.
  - simpl. by rewrite Hd.
  - rewrite await_pending by done.
    destruct a as [data| |]; simpl.
    + destruct (listening s).
      * destruct (handleMessage_settles data s d Hdr Hd) as (r0 & Hr0 & Hl & Hd0).
        destruct r0 as [v|e].
        -- rewrite (await_resolved _ _ _ _ _ Hd0). intros [= <- <- <- <-].
           split_and!; [done|done|lia].
        -- rewrite (await_rejected _ _ _ _ _ Hd0). intros [= <- <- <- <-].
           split_and!; [done|done|lia].
      * intros Haw. apply IH in Haw as (? & ? & ?); [|done..].
        split_and!; [done|done|lia].
    + intros Haw. apply IH in Haw as (? & ? & ?); [|done..].
      split_and!; [done|done|lia].
    + intros Haw. apply IH in Haw as (? & ? & ?); [|done..].
      split_and!; [done|done|lia].
Qed.

Lemma abort_ends (s : State) (d : nat) (e : error) (message : string) :
  deferredResult s = Some d →
  deferreds s !! d = Some Deferred.Pending →
  (∃ s1, abort requestId e message s = (Throw engine_not_started, s1)) ∨
  (∃ s1, abort requestId e message s = (Ok tt, s1) ∧ deferredResult s1 = None).
Proof.
  intros Hdr Hd.
  unfold abort, reject.
  unfold bind, gets, modify, dispatch, settle_deferred, ret.
  simpl. destruct (aborted s); simpl.
  - right. rewrite Hdr. simpl. rewrite Hd. simpl. by eexists.
  - destruct (engine s); [right|left; by eexists].
    simpl. rewrite Hdr. simpl. rewrite Hd. simpl. by eexists.
Qed.

(** A message that arrives when [deferredResult] is [null] changes
    nothing but, at most, [deferredResult], which stays [null]. *)
Lemma handleMessage_idle (data : Data) (s : State) :
  deferredResult s = None →
  deferredResult (snd (handleMessage requestId data s)) = None.
Proof.
  intros Hdr. unfold handleMessage, createResponseMessageHandler.
  destruct (isResponse data _ _); [destruct (isErrorResponse data _ _)|].
  all: unfold resolve, reject, bind, gets, modify, ret; rewrite Hdr; done.
Qed.

Lemma act_live (a : Action) (signal : bool) (s : State) :
  live s → live (snd (act requestId a signal s)).
Proof.
  intros Hs. destruct a as [data| |]; simpl; [|done..].
  destruct (listening s); [|done].
  unfold live in Hs. destruct (deferredResult s) as [d|] eqn:Hdr.
  - by destruct (handleMessage_settles data s d Hdr Hs) as (_ & _ & Hl & _).
  - unfold live. by rewrite handleMessage_idle.
Qed.

Lemma parked_live (actions : list Action) : ∀ signal s,
  live s → live (snd (parked requestId actions signal s)).
Proof.
  induction actions as [|a actions IH]; intros signal s Hs; [done|].
  simpl. pose proof (act_live a signal s Hs) as Ha.
  destruct (act requestId a signal s) as [signal' s']. by apply IH.
Qed.

Lemma loop_ends pauses : ∀ fuel signal script acc s,
  live s → (length script < fuel)%nat →
  (loop requestId fuel signal script pauses acc s).1.2 ≠ Api.OutOfFuel ∧
  ∀ e, (loop requestId fuel signal script pauses acc s).1.2 = Api.Threw e →
       raised e.
Proof.
  induction fuel as [|fuel IH]; intros signal script acc s Hs Hfuel; [lia|].
  rewrite loop_step. unfold live in Hs.
  destruct (deferredResult s) as [d|] eqn:Hdr; [|done].
  destruct signal.
  - destruct (abort_ends s d workflow_aborted "Workflow aborted" Hdr Hs)
      as [[s1 ->]|(s1 & -> & ->)]; simpl.
    + split; [done|]. intros e [= <-]. by right; left.
    + split; [done|]. intros e [= <-]. by left.
  - unfold ret. rewrite Hdr.
    destruct (await requestId d false script s)
      as [[[r signal'] script'] s'] eqn:Haw.
    destruct r as [r|]; [|done].
    apply await_hands in Haw as (Hr & Hl & Hlen); [|done..].
    destruct r as [v|e]; simpl in Hr.
    + destruct Hr as [fields ->].
      pose proof (parked_live (pauses (length acc)) signal' s' Hl) as Hp.
      destruct (parked requestId _ signal' s') as [signal'' s''].
      apply IH; [done|lia].
    + simpl. split; [done|]. by intros e' [= <-].
Qed.

(** The loop when the caller is late after the value that follows
    [pre]: the message [m] is yielded, and what the [actions] did while
    the generator was parked is all that the loop sees afterwards. *)
Lemma loop_late (pre : list Data) (m : Data) (actions : list Action) :
  ∀ fuel script s,
    Forall (intermediate requestId) pre →
    intermediate requestId m →
    waiting s →
    ∃ s', loop requestId (length pre + S fuel) false
            ((PortMessage <$> pre) ++ PortMessage m :: script)
            (late (length pre) actions) [] s =
          loop requestId fuel
            (fst (parked requestId actions false s'))
            script (late (length pre) actions) (pre ++ [m])
            (snd (parked requestId actions false s')) ∧
          waiting s' ∧ posted s' = posted s ∧ engine s' = engine s ∧
          aborted s' = aborted s.
Proof.
  intros fuel script s Hpre [Hacc Hfin] Hs.
  destruct (loop_intermediates pre (S fuel) (PortMessage m :: script)
              (late (length pre) actions) [] s Hpre)
    as (s1 & -> & [(d & Hdr & Hd) Hl] & Hp & He & Ha); [|done|].
  { intros i Hi. unfold late. simpl in Hi.
    by destruct (Nat.eqb_spec i (length pre)); [lia|]. }
  pose proof (handleMessage_intermediate m s1 d Hacc Hfin Hdr Hd) as Hm.
  set (s2 := set_deferreds _ _) in Hm.
  assert (d < length (deferreds s1))%nat as Hlt by by eapply lookup_lt_Some.
  assert (deferreds s2 !! d = Some (Deferred.Resolved m)) as Hd2.
  { unfold s2. simpl. apply list_lookup_insert_eq.
    rewrite length_app. simpl. lia. }
  assert (waiting s2) as Hs2.
  { split; [|done]. exists (length (deferreds s1)). split; [done|].
    unfold s2. simpl. rewrite list_lookup_insert_ne by lia.
    by rewrite lookup_app_r, Nat.sub_diag by lia. }
  exists s2. split; [|by split_and!].
  rewrite loop_step, Hdr. unfold ret. rewrite Hdr.
  rewrite await_pending by done. unfold act. rewrite Hl, Hm. simpl fst.
  simpl snd. rewrite (await_resolved _ _ _ _ _ Hd2).
  pose proof Hacc as [Hr _]%andb_true_iff.
  apply accepted_object in Hr as [fields ->].
  simpl app. unfold late at 1. rewrite Nat.eqb_refl.
  by destruct (parked requestId actions false s2).
Qed.

End facade.

(** *** Runs of the generator *)
Section facade_runs.
Import Guards ResponseHandler Facade.

Lemma entered_dispatch requestId tasks :
  dispatch (ExecuteWorkflowRequest requestId tasks) entered =
    (Ok tt, set_posted (λ _, [ExecuteWorkflowRequest requestId tasks]) entered).
Proof. done. Qed.

Lemma waiting_entered requestId tasks :
  waiting (set_posted (λ _, [ExecuteWorkflowRequest requestId tasks]) entered).
Proof. split; [|done]. by exists 0%nat. Qed.

(** X7. The public [executeWorkflow], once validation has passed and the
    engine is ready, for a caller that asks for the next value as soon as
    it is handed one: when accepted responses arrive that do not finish,
    followed by an accepted one whose [finish] is truthy, the generator
    yields each of them in order and returns; only the execute request
    was posted, the listener is detached, and what arrives later is
    ignored. The condition on the caller is needed: when the finishing
    response arrives while the generator is parked at the [yield] of the
    response before it, the generator returns without yielding it. *)
Theorem stream_ends_with_the_finish_message
    (tasks : list Descriptor.TaskDescriptor) (skipValidation : bool)
    (requestId : string) (pre : list Data) (fin : Data) (rest : list Action)
    (pauses : nat → list Action)
    (Hvalid : validated tasks skipValidation = Some (Ok tt))
    (Hpre : Forall (intermediate requestId) pre)
    (Hfin : accepted requestId fin = true)
    (Hfinish : truthy_value (prop fin "finish") = true)
    (Hprompt : ∀ i, pauses i = []) :
  executeWorkflow tasks skipValidation (Ok tt) requestId false
      ((PortMessage <$> pre) ++ PortMessage fin :: rest) pauses =
    {| yielded := pre ++ [fin];
       ended := Api.Returned;
       sent := [ExecuteWorkflowRequest requestId tasks];
       attached := false |} ∧
  ∀ m, intermediate requestId m →
    executeWorkflow tasks skipValidation (Ok tt) requestId false
        ((PortMessage <$> pre) ++ PortMessage m :: rest)
        (late (length pre) [PortMessage fin]) =
      {| yielded := pre ++ [m];
         ended := Api.Returned;
         sent := [ExecuteWorkflowRequest requestId tasks];
         attached := false |}.
Proof.
  unfold executeWorkflow. rewrite Hvalid. unfold attempt.
  rewrite entered_dispatch. split.
  - replace (S (length ((PortMessage <$> pre) ++ PortMessage fin :: rest)))
      with (length pre + S (S (length rest)))%nat
      by (rewrite length_app, length_fmap; simpl; lia).
    destruct (loop_intermediates requestId pre (S (S (length rest)))
                (PortMessage fin :: rest) pauses [] _ Hpre
                (λ i _, Hprompt i) (waiting_entered requestId tasks))
      as (s' & -> & [(d & Hdr & Hd) Hl] & Hp & He & _).
    rewrite loop_step, Hdr. unfold ret. rewrite Hdr.
    rewrite await_pending by done. unfold act. rewrite Hl.
    rewrite (handleMessage_finish requestId fin s' d) by done.
    simpl fst. simpl snd.
    assert (d < length (deferreds s'))%nat as Hlt by by eapply lookup_lt_Some.
    erewrite await_resolved; [|by apply list_lookup_insert_eq].
    pose proof Hfin as [Hr _]%andb_true_iff.
    apply accepted_object in Hr as [fields ->].
    rewrite Hprompt. simpl parked. cbv iota beta.
    rewrite loop_step. simpl. by rewrite Hp, He.
  - intros m Hm.
    replace (S (length ((PortMessage <$> pre) ++ PortMessage m :: rest)))
      with (length pre + S (S (length rest)))%nat
      by (rewrite length_app, length_fmap; simpl; lia).
    destruct (loop_late requestId pre m [PortMessage fin] (S (length rest)) rest
                _ Hpre Hm (waiting_entered requestId tasks))
      as (s' & -> & [(d & Hdr & Hd) Hl] & Hp & He & _).
    simpl parked. unfold act. rewrite Hl.
    rewrite (handleMessage_finish requestId fin s' d) by done.
    simpl fst. simpl snd. rewrite loop_step. simpl. by rewrite Hp, He.
Qed.

Lemma stream_ends_with_the_finish_message_witness :
  executeWorkflow [] false (Ok tt) "r1" false
      ((PortMessage <$> [MessageExamples.response "r1" false]) ++
       PortMessage (MessageExamples.response "r1" true) :: []) prompt =
    {| yielded := [MessageExamples.response "r1" false] ++
                  [MessageExamples.response "r1" true];
       ended := Api.Returned;
       sent := [ExecuteWorkflowRequest "r1" []];
       attached := false |}.
Proof.
  apply (stream_ends_with_the_finish_message [] false "r1"
           [MessageExamples.response "r1" false]
           (MessageExamples.response "r1" true) [] prompt).
  - vm_compute. reflexivity.
  - apply Forall_singleton. split; vm_compute; reflexivity.
  - vm_compute. reflexivity.
  - vm_compute. reflexivity.
  - reflexivity.
Defined.

(** X8. A message that the handler does not accept (an error response,
    or a message that is no response to this request) ends the stream of
    the public [executeWorkflow] for a caller that asks for the next
    value as soon as it is handed one: the responses before it are
    yielded, then the generator throws the handler's reason wrapped in
    [AggregateError] "Workflow failed". No abort message is posted to the
    engine. The condition on the caller is needed: when the message
    arrives while the generator is parked at the [yield] of the response
    before it, the generator returns as if the workflow had finished, and
    throws nothing. *)
Theorem refused_message_ends_the_stream
    (tasks : list Descriptor.TaskDescriptor) (skipValidation : bool)
    (requestId : string) (pre : list Data) (bad : Data) (rest : list Action)
    (pauses : nat → list Action)
    (Hvalid : validated tasks skipValidation = Some (Ok tt))
    (Hpre : Forall (intermediate requestId) pre)
    (Hbad : accepted requestId bad = false)
    (Hprompt : ∀ i, pauses i = []) :
  executeWorkflow tasks skipValidation (Ok tt) requestId false
      ((PortMessage <$> pre) ++ PortMessage bad :: rest) pauses =
    {| yielded := pre;
       ended := Api.Threw (workflow_failed (refusal requestId bad));
       sent := [ExecuteWorkflowRequest requestId tasks];
       attached := false |} ∧
  ∀ m, intermediate requestId m →
    executeWorkflow tasks skipValidation (Ok tt) requestId false
        ((PortMessage <$> pre) ++ PortMessage m :: rest)
        (late (length pre) [PortMessage bad]) =
      {| yielded := pre ++ [m];
         ended := Api.Returned;
         sent := [ExecuteWorkflowRequest requestId tasks];
         attached := false |}.
Proof.
  unfold executeWorkflow. rewrite Hvalid. unfold attempt.
  rewrite entered_dispatch. split.
  - replace (S (length ((PortMessage <$> pre) ++ PortMessage bad :: rest)))
      with (length pre + S (S (length rest)))%nat
      by (rewrite length_app, length_fmap; simpl; lia).
    destruct (loop_intermediates requestId pre (S (S (length rest)))
                (PortMessage bad :: rest) pauses [] _ Hpre
                (λ i _, Hprompt i) (waiting_entered requestId tasks))
      as (s' & -> & [(d & Hdr & Hd) Hl] & Hp & He & _).
    rewrite loop_step, Hdr. unfold ret. rewrite Hdr.
    rewrite await_pending by done. unfold act. rewrite Hl.
    rewrite (handleMessage_refused requestId bad s' d) by done.
    simpl fst. simpl snd.
    assert (d < length (deferreds s'))%nat as Hlt by by eapply lookup_lt_Some.
    erewrite await_rejected; [|by apply list_lookup_insert_eq].
    simpl. by rewrite Hp, He.
  - intros m Hm.
    replace (S (length ((PortMessage <$> pre) ++ PortMessage m :: rest)))
      with (length pre + S (S (length rest)))%nat
      by (rewrite length_app, length_fmap; simpl; lia).
    destruct (loop_late requestId pre m [PortMessage bad] (S (length rest)) rest
                _ Hpre Hm (waiting_entered requestId tasks))
      as (s' & -> & [(d & Hdr & Hd) Hl] & Hp & He & _).
    simpl parked. unfold act. rewrite Hl.
    rewrite (handleMessage_refused requestId bad s' d) by done.
    simpl fst. simpl snd. rewrite loop_step. simpl. by rewrite Hp, He.
Qed.

Lemma refused_message_ends_the_stream_witness :
  executeWorkflow [] false (Ok tt) "r1" false
      ((PortMessage <$> [MessageExamples.response "r1" false]) ++
       PortMessage (MessageExamples.error_response "r1" "boom") :: []) prompt =
    {| yielded := [MessageExamples.response "r1" false];
       ended := Api.Threw (workflow_failed
                  (refusal "r1" (MessageExamples.error_response "r1" "boom")));
       sent := [ExecuteWorkflowRequest "r1" []];
       attached := false |}.
Proof.
  apply (refused_message_ends_the_stream [] false "r1"
           [MessageExamples.response "r1" false]
           (MessageExamples.error_response "r1" "boom") [] prompt).
  - vm_compute. reflexivity.
  - apply Forall_singleton. split; vm_compute; reflexivity.
  - vm_compute. reflexivity.
  - reflexivity.
Defined.



(** X10. However the messages, the signal and engine errors fall, while
    the generator awaits or while it is parked at a [yield], the public
    [executeWorkflow] ends in one of these ways: it returns, it stays
    suspended, it throws the error of the validation or of
    [waitForReady] as it is, or it throws [AggregateError] "Workflow
    failed" around one of: the [TypeError] of the null read, "The engine
    is not started.", "Unexpected message", or the text of an error
    response. The bound on the loop of the model is never reached. *)
Theorem failures_are_wrapped
    (tasks : list Descriptor.TaskDescriptor) (skipValidation : bool)
    (ready : result unit) (requestId : string) (signal : bool)
    (script : list Action) (pauses : nat → list Action) :
  let run :=
    executeWorkflow tasks skipValidation ready requestId signal script pauses in
  ended run ≠ Api.OutOfFuel ∧
  ∀ e, ended run = Api.Threw e →
    validated tasks skipValidation = Some (Throw e) ∨
    ready = Throw e ∨
    ∃ x, e = workflow_failed x ∧ raised x.
Proof.
  simpl. unfold executeWorkflow.
  destruct (validated tasks skipValidation) as [[[]|e0]|] eqn:Hv.
  - destruct ready as [[]|e1].
    + unfold attempt. rewrite entered_dispatch.
      pose proof (loop_ends requestId pauses (S (length script)) signal script []
                    (set_posted (λ _, [ExecuteWorkflowRequest requestId tasks])
                       entered)) as Hloop.
      destruct (loop requestId _ signal script pauses [] _) as [[acc t] s].
      simpl in *.
      destruct Hloop as [Hfuel Hraised]; [done|lia|].
      split.
      * by destruct t.
      * intros e He. right; right. destruct t; try done.
        injection He as <-. eexists. split; [done|]. by apply Hraised.
    + simpl. split; [done|]. intros e [= <-]. by right; left.
  - simpl. split; [done|]. intros e [= <-]. by left.
  - unfold validated in Hv. destruct skipValidation; [done|].
    destruct (validateTaskGraph_total tasks) as [r Hr]. congruence.
Qed.

(** X11. With validation on, the public [executeWorkflow] refuses every
    workflow in which some task holds a reference that the validator
    follows: it throws the error of [validateTaskGraph] before it posts
    anything. With [skipValidation] the request is posted. *)
Theorem validation_refuses_every_dependency
    (tasks : list Descriptor.TaskDescriptor) (ready : result unit)
    (requestId : string) (signal : bool) (script : list Action)
    (pauses : nat → list Action)
    (t : Descriptor.TaskDescriptor)
    (Ht : t ∈ tasks) (Hdep : GraphValidator.task_targets t ≠ []) :
  (∃ e, GraphValidator.validateTaskGraph tasks = Some (Throw e) ∧
        executeWorkflow tasks false ready requestId signal script pauses =
          {| yielded := []; ended := Api.Threw e; sent := [];
             attached := false |}) ∧
  sent (executeWorkflow tasks true (Ok tt) requestId false [] pauses) =
    [ExecuteWorkflowRequest requestId tasks].
Proof.
  split; [|done].
  destruct (validateTaskGraph_total tasks) as [[[]|e] Hr].
  - apply validateTaskGraph_ok_iff in Hr as (_ & _ & Hnone).
    rewrite Forall_forall in Hnone. by apply Hnone in Ht.
  - exists e. split; [done|]. unfold executeWorkflow, validated. by rewrite Hr.
Qed.

Lemma validation_refuses_every_dependency_witness :
  ∃ e, GraphValidator.validateTaskGraph Examples.readme_tasks = Some (Throw e) ∧
       executeWorkflow Examples.readme_tasks false (Ok tt) "r1" false [] prompt =
         {| yielded := []; ended := Api.Threw e; sent := [];
            attached := false |}.
Proof.
  apply (validation_refuses_every_dependency Examples.readme_tasks (Ok tt)
           "r1" false [] prompt Examples.readme_descriptor_b).
  - apply list_elem_of_further, list_elem_of_here.
  - vm_compute. discriminate.
Defined.

End facade_runs.

(** ** The runner pool: construction, release and workers *)
Section runner_pool_workers.
Import RunnerPool.

Lemma create_idle_runners_listening (n : nat) (p : Pool) :
  let p' := Nat.iter n (λ q, snd (createRunner true q)) p in
  listening p' =
    listening p ++ ((λ i, (i, true)) <$> seq (next_runner p) n) ∧
  next_runner p' = (next_runner p + n)%nat.
Proof.
  induction n as [|n IH].
  - simpl. split; [by rewrite app_nil_r|lia].
  - cbv zeta in *. rewrite Nat.iter_succ.
    set (q := Nat.iter n _ p) in *. destruct IH as [IH1 IH2].
    rewrite seq_S, fmap_app, app_assoc, <-IH1.
    unfold createRunner. simpl. rewrite IH2. split; [done|lia].
Qed.

(** The pool the constructor returns holds no runner and has the
    bounds of the options, or their defaults. *)
Lemma new_returns (hardwareConcurrency : Z) (options_min options_max : option Z)
    (p : Pool) :
  new hardwareConcurrency options_min options_max = Ok p →
  min p = default 1 options_min ∧
  max p = default hardwareConcurrency options_max ∧
  runners p = [] ∧ idleRunners p = [] ∧ pending p = [].
Proof.
  unfold new.
  destruct (match options_min with Some m => m <=? 0 | None => false end);
    [done|].
  destruct (match options_max with Some m => m <=? 0 | None => false end);
    [done|].
  destruct (match options_min, options_max with
            | Some a, Some b => a >? b
            | _, _ => false
            end); [done|].
  cbv zeta. set (p0 := Build_Pool _ _ _ _ _ _ _ _ _ _ _).
  intros [= <-]. destruct (0 <? default 1 options_min); [|by split_and!].
  destruct (create_idle_runners_keeps 0 (default 1 options_min) p0)
    as (-> & -> & -> & -> & -> & _). by split_and!.
Qed.

(** X13. The constructor compares [min] with [max] only when both are
    given: with [min] above the default of [max] it returns a pool whose
    [max] is below its [min], and the setter of [min] refuses the value
    the pool already has. *)
Theorem constructor_accepts_min_above_default_max (hardwareConcurrency m : Z)
    (Hm : 0 < m) (Hdefault : hardwareConcurrency < m) :
  ∃ p, new hardwareConcurrency (Some m) None = Ok p ∧
       min p = m ∧ max p = hardwareConcurrency ∧ max p < min p ∧
       set_min (Int (min p)) p =
         Throw (TypeError "The minimum number of runners cannot exceed the maximum number of runners").
Proof.
  destruct (new hardwareConcurrency (Some m) None) as [p|e] eqn:Hnew.
  - apply new_returns in Hnew as (Hmin & Hmax & _). simpl in Hmin, Hmax.
    exists p. split_and!; [done|done|done|lia|].
    unfold set_min. rewrite Hmin, Hmax.
    destruct (Z.leb_spec m 0); [lia|].
    by destruct (Z.gtb_spec m hardwareConcurrency); [|lia].
  - unfold new in Hnew. destruct (Z.leb_spec m 0); [lia|done].
Qed.

Lemma constructor_accepts_min_above_default_max_witness :
  ∃ p, new 4 (Some 8) None = Ok p ∧
       min p = 8 ∧ max p = 4 ∧ max p < min p ∧
       set_min (Int (min p)) p =
         Throw (TypeError "The minimum number of runners cannot exceed the maximum number of runners").
Proof.
  apply (constructor_accepts_min_above_default_max 4 8); lia.
Defined.

(** *** The idle queue *)

Lemma dispatchPending_idle (p : Pool) :
  idleRunners (dispatchPending p) ⊆ idleRunners p ∧
  runners (dispatchPending p) = runners p.
Proof.
  unfold dispatchPending.
  destruct (pending p) as [|d ds], (idleRunners p) as [|r rs] eqn:Hi; simpl;
    rewrite ?Hi; try (split; [set_solver|done]).
Qed.

Lemma idle_members_step (p : Pool) (o : Op) :
  idleRunners p ⊆ runners p → idleRunners (step p o) ⊆ runners (step p o).
Proof.
  intros Hp. destruct o as [|r|w ready|v|v|]; simpl.
  - unfold acquire. destruct (idleRunners p) as [|r rs] eqn:Hi; simpl.
    + destruct (size p <? max p); simpl; rewrite ?Hi; set_solver.
    + set_solver.
  - unfold release. case_bool_decide as Hr; [|done].
    destruct (dispatchPending_idle
                {| runners := runners p; idleRunners := idleRunners p ++ [r];
                   pending := pending p; min := min p; max := max p;
                   listening := listening p; next_runner := next_runner p;
                   next_waiter := next_waiter p; terminated := terminated p;
                   served := served p; failed := failed p |}) as [Hsub ->].
    simpl in *. set_solver.
  - unfold onMessage. destruct (list_find _ _) as [[? [? is_idle]]|]; [|done].
    destruct ready; simpl; [|done]. destruct is_idle; set_solver.
  - unfold set_min. destruct v as [v|]; [|done].
    destruct (v <=? 0); [done|]. destruct (v >? max p); [done|].
    cbv zeta.
    destruct (create_idle_runners_keeps (size (with_min v p)) (min (with_min v p))
                (with_min v p)) as (_ & _ & Hr & Hi & _).
    destruct (_ >? _); [simpl; set_solver|]. rewrite Hr, Hi. done.
  - unfold set_max. destruct v as [v|]; [|done].
    destruct (v <=? 0); [done|]. destruct (v <? min p); [done|].
    cbv zeta. destruct (_ >? _); simpl; [set_solver|done].
  - set_solver.
Qed.

(** X14. In every state that calls and worker messages reach from the
    constructor, each runner in the idle queue is a runner of the
    pool. *)
Theorem idle_runners_are_pool_members (hardwareConcurrency : Z)
    (options_min options_max : option Z) (p0 : Pool) (ops : list Op)
    (Hnew : new hardwareConcurrency options_min options_max = Ok p0) :
  idleRunners (foldl step p0 ops) ⊆ runners (foldl step p0 ops).
Proof.
  assert (idleRunners p0 ⊆ runners p0) as Hp0.
  { apply new_returns in Hnew as (_ & _ & -> & -> & _). done. }
  clear Hnew. revert p0 Hp0.
  induction ops as [|o ops IH]; intros p Hp; [done|].
  simpl. apply IH. by apply idle_members_step.
Qed.

Lemma idle_runners_are_pool_members_witness :
  ∃ p0, new 4 (Some 1) (Some 2) = Ok p0 ∧
    idleRunners (foldl step p0 [Message 0%nat true; Acquire; Release 0%nat]) ⊆
    runners (foldl step p0 [Message 0%nat true; Acquire; Release 0%nat]).
Proof.
  eexists. split; [by vm_compute|].
  apply (idle_runners_are_pool_members 4 (Some 1) (Some 2)).
  vm_compute. reflexivity.
Defined.

(** X15. [release] does not check that the runner was acquired:
    released twice with no acquire waiting, a runner stands twice in the
    idle queue, [busy] drops by two, and the next two calls of [acquire]
    both return it. *)
Theorem release_twice_hands_the_runner_out_twice (p : Pool) (r : Runner)
    (Hr : r ∈ runners p) (Hidle : idleRunners p = [])
    (Hpending : pending p = []) :
  ∃ p1 p2 p3 p4,
    release r p = Ok p1 ∧ release r p1 = Ok p2 ∧
    idleRunners p2 = [r; r] ∧ busy p2 = size p - 2 ∧
    acquire p2 = (Immediately r, p3) ∧ acquire p3 = (Immediately r, p4).
Proof.
  assert (∀ q, r ∈ runners q → pending q = [] →
            ∃ q', release r q = Ok q' ∧ runners q' = runners q ∧
                  idleRunners q' = idleRunners q ++ [r] ∧ pending q' = [])
    as Hrelease.
  { intros q Hq Hpq. unfold release. rewrite bool_decide_eq_true_2 by done.
    unfold dispatchPending. simpl. rewrite Hpq. by eexists. }
  destruct (Hrelease p Hr Hpending) as (p1 & Hrel1 & Hr1 & Hi1 & Hp1).
  destruct (Hrelease p1) as (p2 & Hrel2 & Hr2 & Hi2 & Hp2);
    [by rewrite Hr1|done|].
  rewrite Hi1, Hidle in Hi2. simpl in Hi2.
  exists p1, p2. unfold acquire. rewrite Hi2. simpl.
  eexists _, _. split_and!; try done.
  unfold busy, size. rewrite Hi2, Hr2, Hr1. simpl. lia.
Qed.

Lemma release_twice_hands_the_runner_out_twice_witness :
  ∃ p p1 p2 p3 p4,
    Examples.three_busy_runners = Ok p ∧
    release 1%nat p = Ok p1 ∧ release 1%nat p1 = Ok p2 ∧
    idleRunners p2 = [1%nat; 1%nat] ∧ busy p2 = size p - 2 ∧
    acquire p2 = (Immediately 1%nat, p3) ∧ acquire p3 = (Immediately 1%nat, p4).
Proof.
  assert (∃ p, Examples.three_busy_runners = Ok p ∧ 1%nat ∈ runners p ∧
               idleRunners p = [] ∧ pending p = []) as (p & Hp & H1 & H2 & H3).
  { eexists. split; [by vm_compute|]. split_and!; [by_compute|done|done]. }
  destruct (release_twice_hands_the_runner_out_twice p 1%nat H1 H2 H3)
    as (p1 & p2 & p3 & p4 & H).
  exists p, p1, p2, p3, p4. split; [exact Hp|exact H].
Defined.

(** *** Workers that are starting, and workers that speak again *)

Lemma listening_find (p : Pool) (w : Runner) :
  w ∈ (fst <$> listening p) →
  ∃ i is_idle, list_find (λ wi : Runner * bool, wi.1 = w) (listening p) =
                 Some (i, (w, is_idle)).
Proof.
  intros ([w' is_idle] & -> & Hin)%list_elem_of_fmap. simpl.
  destruct (list_find (λ wi : Runner * bool, wi.1 = w') (listening p))
    as [[i [w'' b]]|] eqn:Hfind.
  - apply list_find_Some in Hfind as (_ & Hw & _). simpl in Hw. subst w''.
    by eexists _, _.
  - apply list_find_None in Hfind. rewrite Forall_forall in Hfind.
    by apply Hfind in Hin.
Qed.

(** X16. [terminate] empties the pool, calls [terminate()] on the
    runners it held and on no other worker, and rejects the pending
    acquires. The listeners stay attached: the ready message of a worker
    that was still starting makes it the only runner of the terminated
    pool. *)
Theorem terminate_leaves_starting_workers (p : Pool) (w : Runner)
    (Hw : w ∈ (fst <$> listening p)) :
  let p' := terminate p in
  size p' = 0 ∧ idle p' = 0 ∧ pending p' = [] ∧
  terminated p' = terminated p ++ runners p ∧
  failed p' = failed p ++ pending p ∧
  listening p' = listening p ∧
  runners (onMessage w true p') = [w] ∧
  terminated (onMessage w true p') = terminated p ++ runners p.
Proof.
  simpl. destruct (listening_find p w Hw) as (i & is_idle & Hfind).
  unfold onMessage, terminate. simpl. rewrite Hfind. by simpl.
Qed.

Lemma terminate_leaves_starting_workers_witness :
  ∃ p, new 4 (Some 1) (Some 2) = Ok p ∧
       runners (onMessage 0%nat true (terminate p)) = [0%nat].
Proof.
  eexists. split; [by vm_compute|].
  eapply (terminate_leaves_starting_workers _ 0%nat). by_compute.
Defined.

(** X17. [acquire] compares [max] with the runners that are ready and
    not with the workers it has started: with no idle runner and the size
    below [max], two calls in a row each start a worker, and once both are
    ready the pool has two more runners, which is above [max] when one
    was missing. *)
Theorem acquire_does_not_count_starting_workers (p : Pool)
    (Hfresh : fresh_ids p) (Hidle : idleRunners p = [])
    (Hsize : size p < max p) :
  let w := next_runner p in
  ∃ p1 p2,
    acquire p = (OnceReady w, p1) ∧ acquire p1 = (OnceReady (S w), p2) ∧
    let p3 := onMessage (S w) true (onMessage w true p2) in
    runners p3 = runners p ++ [w; S w] ∧ max p3 = max p ∧
    size p3 = size p + 2.
Proof.
  simpl.
  assert (∀ q, idleRunners q = [] → size q < max q →
            acquire q = (OnceReady (next_runner q), snd (createRunner false q)))
    as Hacquire.
  { intros q Hq Hlt. unfold acquire. rewrite Hq.
    by destruct (Z.ltb_spec (size q) (max q)) as [_|?]; [|lia]. }
  exists (snd (createRunner false p)),
         (snd (createRunner false (snd (createRunner false p)))).
  split; [by apply Hacquire|]. split; [by apply Hacquire|].
  destruct Hfresh as [Hl _]. rewrite Forall_forall in Hl.
  assert (list_find (λ wi : Runner * bool, wi.1 = next_runner p)
            ((listening p ++ [(next_runner p, false)]) ++
               [(S (next_runner p), false)]) =
          Some (length (listening p), (next_runner p, false))) as Hfind1.
  { apply list_find_Some. split_and!.
    - rewrite <-app_assoc. by rewrite lookup_app_r, Nat.sub_diag by lia.
    - done.
    - intros j [w i] Hj Hlt. rewrite <-app_assoc, lookup_app_l in Hj by done.
      apply list_elem_of_lookup_2, Hl in Hj. simpl in *. lia. }
  assert (list_find (λ wi : Runner * bool, wi.1 = S (next_runner p))
            ((listening p ++ [(next_runner p, false)]) ++
               [(S (next_runner p), false)]) =
          Some (S (length (listening p)), (S (next_runner p), false))) as Hfind2.
  { apply list_find_Some. split_and!.
    - rewrite lookup_app_r by (rewrite length_app; simpl; lia).
      rewrite length_app. simpl.
      by replace (S (length (listening p)) - (length (listening p) + 1))%nat
        with 0%nat by lia.
    - done.
    - intros j [w i] Hj Hlt. rewrite <-app_assoc in Hj.
      destruct (decide (j < length (listening p))%nat) as [Hlt'|Hge].
      + rewrite lookup_app_l in Hj by done.
        apply list_elem_of_lookup_2, Hl in Hj. simpl in *. lia.
      + rewrite lookup_app_r in Hj by lia.
        replace (j - length (listening p))%nat with 0%nat in Hj by lia.
        injection Hj as <- <-. simpl. lia. }
  unfold onMessage. simpl. rewrite Hfind1. simpl. rewrite Hfind2. simpl.
  split_and!; [by rewrite <-app_assoc|done|].
  unfold size. simpl. rewrite !length_app. simpl. lia.
Qed.

Lemma acquire_does_not_count_starting_workers_witness :
  ∃ p p1 p2,
    new 4 (Some 1) (Some 1) = Ok p ∧
    acquire p = (OnceReady 1%nat, p1) ∧ acquire p1 = (OnceReady 2%nat, p2) ∧
    size (onMessage 2%nat true (onMessage 1%nat true p2)) = size p + 2.
Proof.
  assert (∃ p, new 4 (Some 1) (Some 1) = Ok p ∧ fresh_ids p ∧
               idleRunners p = [] ∧ size p < max p ∧ next_runner p = 1%nat)
    as (p & Hp & H1 & H2 & H3 & H4).
  { eexists. split; [by vm_compute|]. split_and!; [by_compute|done|done|done]. }
  destruct (acquire_does_not_count_starting_workers p H1 H2 H3)
    as (p1 & p2 & Ha1 & Ha2 & _ & _ & Hs).
  rewrite H4 in Ha1, Ha2, Hs.
  exists p, p1, p2. split_and!; [exact Hp|exact Ha1|exact Ha2|exact Hs].
Defined.

(** X18. The listener of a worker stays attached when the worker is
    admitted. A later message of the pooled worker that is no ready
    message makes the pool call [terminate()] on it and leaves it in the
    pool, where [acquire] hands it out; a second ready message puts it
    into the pool and the idle queue a second time. *)
Theorem pooled_worker_that_speaks_is_terminated (p : Pool)
    (Hfresh : fresh_ids p) (Hidle : idleRunners p = []) :
  let w := next_runner p in
  let admitted := onMessage w true (snd (createRunner true p)) in
  let spoken := onMessage w false admitted in
  runners admitted = runners p ++ [w] ∧ idleRunners admitted = [w] ∧
  terminated spoken = terminated p ++ [w] ∧
  runners spoken = runners p ++ [w] ∧
  (∃ p', acquire spoken = (Immediately w, p')) ∧
  runners (onMessage w true admitted) = runners p ++ [w; w] ∧
  idleRunners (onMessage w true admitted) = [w; w].
Proof.
  simpl. pose proof (listening_find_new p true Hfresh) as Hfind.
  unfold onMessage. simpl. rewrite !Hfind. simpl. rewrite !Hfind. simpl.
  rewrite Hidle. simpl.
  split_and!; try done.
  - by eexists.
  - by rewrite <-app_assoc.
Qed.

Lemma pooled_worker_that_speaks_is_terminated_witness :
  ∃ p, new 4 (Some 1) (Some 2) = Ok p ∧
    terminated (onMessage 1%nat false
                  (onMessage 1%nat true (snd (createRunner true p)))) =
      [1%nat].
Proof.
  assert (∃ p, new 4 (Some 1) (Some 2) = Ok p ∧ fresh_ids p ∧
               idleRunners p = [] ∧ next_runner p = 1%nat ∧ terminated p = [])
    as (p & Hp & H1 & H2 & H3 & H4).
  { eexists. split; [by vm_compute|]. split_and!; [by_compute|done|done|done]. }
  destruct (pooled_worker_that_speaks_is_terminated p H1 H2)
    as (_ & _ & Ht & _).
  rewrite H3, H4 in Ht. exists p. split; [exact Hp|exact Ht].
Defined.

End runner_pool_workers.

(** ** The options of the constructor, value by value *)
Section pool_options.
Import RunnerPool PoolOptions.

Lemma Qle_bool_inject (m n : Z) :
  Qle_bool (inject_Z m) (inject_Z n) = (m <=? n).
Proof.
  apply eq_true_iff_eq. rewrite Qle_bool_iff, Z.leb_le.
  by rewrite <-Zle_Qle.
Qed.

Lemma lt_ceiling (i : Z) (q : Q) :
  lt (Finite (inject_Z i)) (Finite q) = (i <? Qceiling q).
Proof.
  simpl. rewrite Z.ltb_antisym. f_equal.
  apply eq_true_iff_eq. rewrite Qle_bool_iff, Z.leb_le. split.
  - intros H. apply Qceiling_resp_le in H. by rewrite Qceiling_Z in H.
  - intros H. eapply Qle_trans; [apply Qle_ceiling|]. by rewrite <-Zle_Qle.
Qed.

Lemma create_runners_S (fuel : nat) (i : Z) (min : Number) (created : nat) :
  create_runners (S fuel) i min created =
    if lt (Finite (inject_Z i)) min
    then create_runners fuel (next i) min (S created)
    else Some created.
Proof. done. Qed.

Lemma create_runners_counts (q : Q) : ∀ (n fuel : nat) (i : Z) (created : nat),
  0 <= i → i + Z.of_nat n = Qceiling q → Qceiling q <= 2 ^ 53 →
  (n < fuel)%nat →
  create_runners fuel i (Finite q) created = Some (created + n)%nat.
Proof.
  induction n as [|n IH]; intros fuel i created Hi Hn Hc Hfuel.
  - destruct fuel as [|fuel]; [lia|]. rewrite create_runners_S.
    rewrite lt_ceiling. destruct (Z.ltb_spec i (Qceiling q)); [lia|].
    f_equal. lia.
  - destruct fuel as [|fuel]; [lia|]. rewrite create_runners_S.
    rewrite lt_ceiling. destruct (Z.ltb_spec i (Qceiling q)); [|lia].
    unfold next. destruct (Z.ltb_spec i (2 ^ 53)); [|lia].
    rewrite IH by lia. f_equal. lia.
Qed.

Lemma create_runners_never_ends (min : Number) :
  (∀ i, i <= 2 ^ 53 → lt (Finite (inject_Z i)) min = true) →
  ∀ (fuel : nat) (i : Z) (created : nat),
    i <= 2 ^ 53 → create_runners fuel i min created = None.
Proof.
  intros Hlt. induction fuel as [|fuel IH]; intros i created Hi; [done|].
  rewrite create_runners_S, Hlt by done. apply IH.
  unfold next. destruct (Z.ltb_spec i (2 ^ 53)); lia.
Qed.

Lemma refused_dec (options_min options_max : OptionValue) :
  refused options_min options_max ↔
  match read options_min with Some m => le m (Finite 0) | None => false end = true ∨
  match read options_max with Some m => le m (Finite 0) | None => false end = true ∨
  match read options_min, read options_max with
  | Some a, Some b => gt a b
  | _, _ => false
  end = true.
Proof.
  unfold refused. split.
  - intros [(m & -> & H)|[(m & -> & H)|(a & b & -> & -> & H)]]; auto.
  - intros [H|[H|H]].
    + left. destruct (read options_min) as [m|]; [by exists m|done].
    + right; left. destruct (read options_max) as [m|]; [by exists m|done].
    + right; right. destruct (read options_min) as [a|]; [|done].
      destruct (read options_max) as [b|]; [by exists a, b|done].
Qed.

(** The three tests of the constructor fail on options that are not
    refused. *)
Lemma accepted_tests (options_min options_max : OptionValue) :
  ¬ refused options_min options_max →
  match read options_min with Some m => le m (Finite 0) | None => false end = false ∧
  match read options_max with Some m => le m (Finite 0) | None => false end = false ∧
  match read options_min, read options_max with
  | Some a, Some b => gt a b
  | _, _ => false
  end = false.
Proof.
  rewrite refused_dec. intros H.
  split_and!; apply not_true_is_false; intros ?; apply H; auto.
Qed.

Lemma stored_min_positive (options_min options_max : OptionValue) (q : Q) :
  ¬ refused options_min options_max →
  spread (Finite 1) options_min = Some (Finite q) →
  Qle_bool q 0 = false.
Proof.
  intros [H _]%accepted_tests Hq.
  destruct options_min as [| |n]; simplify_eq/=; done.
Qed.

Lemma positive_ceiling (q : Q) : Qle_bool q 0 = false → 0 < Qceiling q.
Proof.
  intros Hq. destruct (Z.lt_ge_cases 0 (Qceiling q)) as [|Hle]; [done|].
  exfalso. apply not_true_iff_false in Hq. apply Hq, Qle_bool_iff.
  eapply Qle_trans; [apply Qle_ceiling|].
  change 0%Q with (inject_Z 0). by rewrite <-Zle_Qle.
Qed.

Lemma construct_finite (fuel : nat) (hardwareConcurrency : Z)
    (options_min options_max : OptionValue) (q : Q) :
  ¬ refused options_min options_max →
  spread (Finite 1) options_min = Some (Finite q) →
  Qceiling q <= 2 ^ 53 →
  (Z.to_nat (Qceiling q) < fuel)%nat →
  construct fuel hardwareConcurrency options_min options_max =
    Some (Ok {| stored_min := Some (Finite q);
                stored_max := spread (Finite (inject_Z hardwareConcurrency))
                                options_max;
                workers := Z.to_nat (Qceiling q) |}).
Proof.
  intros Hacc Hq Hc Hfuel.
  pose proof (stored_min_positive _ _ _ Hacc Hq) as Hpos.
  pose proof (positive_ceiling q Hpos) as Hceil.
  apply accepted_tests in Hacc as (H1 & H2 & H3).
  unfold construct. rewrite H1, H2, H3, Hq. cbv zeta. simpl to_number.
  unfold gt at 1. simpl lt. rewrite Hpos. simpl negb. cbv iota.
  by rewrite (create_runners_counts q (Z.to_nat (Qceiling q))) by lia.
Qed.

Lemma construct_never_returns (hardwareConcurrency : Z)
    (options_min options_max : OptionValue) (n : Number) :
  ¬ refused options_min options_max →
  spread (Finite 1) options_min = Some n →
  (∀ i, i <= 2 ^ 53 → lt (Finite (inject_Z i)) n = true) →
  ∀ fuel, construct fuel hardwareConcurrency options_min options_max = None.
Proof.
  intros Hacc Hn Hlt fuel.
  apply accepted_tests in Hacc as (H1 & H2 & H3).
  unfold construct. rewrite H1, H2, H3, Hn. cbv zeta. simpl to_number.
  unfold gt at 1. change (Finite 0) with (Finite (inject_Z 0)).
  rewrite Hlt by lia.
  by rewrite (create_runners_never_ends n Hlt) by lia.
Qed.

Lemma construct_no_worker (hardwareConcurrency : Z)
    (options_min options_max : OptionValue) :
  ¬ refused options_min options_max →
  gt (to_number (spread (Finite 1) options_min)) (Finite 0) = false →
  ∀ fuel,
    construct fuel hardwareConcurrency options_min options_max =
      Some (Ok {| stored_min := spread (Finite 1) options_min;
                  stored_max := spread (Finite (inject_Z hardwareConcurrency))
                                  options_max;
                  workers := 0 |}).
Proof.
  intros Hacc Hgt fuel.
  apply accepted_tests in Hacc as (H1 & H2 & H3).
  unfold construct. rewrite H1, H2, H3. cbv zeta. by rewrite Hgt.
Qed.

Lemma construct_refuses (fuel : nat) (hardwareConcurrency : Z)
    (options_min options_max : OptionValue) :
  (∃ e, construct fuel hardwareConcurrency options_min options_max =
          Some (Throw e)) ↔
  refused options_min options_max.
Proof.
  rewrite refused_dec. unfold construct.
  destruct (match read options_min with
            | Some m => le m (Finite 0)
            | None => false
            end); [split; [by left|by eexists]|].
  destruct (match read options_max with
            | Some m => le m (Finite 0)
            | None => false
            end); [split; [by right; left|by eexists]|].
  destruct (match read options_min, read options_max with
            | Some a, Some b => gt a b
            | _, _ => false
            end); [split; [by right; right|by eexists]|].
  cbv zeta. split; [|by intros [?|[?|?]]].
  intros [e He]. destruct (gt _ _); [|done].
  by destruct (create_runners _ _ _ _).
Qed.

(** The tests of [RunnerPool.new] are those of [construct] on integers. *)
Lemma integer_tests (options : option Z) :
  match read (integer options) with
  | Some m => le m (Finite 0)
  | None => false
  end = match options with Some m => m <=? 0 | None => false end.
Proof.
  destruct options as [m|]; [|done]. simpl.
  change 0%Q with (inject_Z 0). apply Qle_bool_inject.
Qed.

Lemma integer_order (options_min options_max : option Z) :
  match read (integer options_min), read (integer options_max) with
  | Some a, Some b => gt a b
  | _, _ => false
  end = match options_min, options_max with
        | Some a, Some b => a >? b
        | _, _ => false
        end.
Proof.
  destruct options_min as [a|], options_max as [b|]; try done. simpl.
  rewrite Qle_bool_inject, Z.gtb_ltb. apply eq_sym, Z.ltb_antisym.
Qed.

Lemma integer_spread (fallback : Z) (options : option Z) :
  spread (Finite (inject_Z fallback)) (integer options) =
    Some (Finite (inject_Z (default fallback options))).
Proof. by destruct options. Qed.

(** X12. [new RunnerPool(options)], for every value of [min] and [max]
    that the type [number | undefined] allows. It throws exactly when a
    [min] or a [max] that is not [undefined] is at most 0, or both are
    not [undefined] and [min] is above [max]. Otherwise the options kept
    are the ones given, a key that holds [undefined] included, and the
    defaults for the keys that are absent; and the constructor starts one
    worker for every integer from 0 that is below the [min] it kept: none
    for [undefined] and [NaN], [min] workers for an integer, 2 for 1.5,
    and without end for a [min] above 2^53. On options that are absent or
    integers it is [RunnerPool.new]: the pool has the same bounds, has
    started [min] workers that are to become idle and waits for their
    ready messages, and holds no runner yet. *)
Theorem constructor_starts_min_workers (hardwareConcurrency : Z)
    (options_min options_max : OptionValue) :
  let kept_min := spread (Finite 1) options_min in
  let kept_max := spread (Finite (inject_Z hardwareConcurrency)) options_max in
  let returns fuel n :=
    construct fuel hardwareConcurrency options_min options_max =
      Some (Ok {| stored_min := kept_min; stored_max := kept_max;
                  workers := n |}) in
  (∀ fuel,
     (∃ e, construct fuel hardwareConcurrency options_min options_max =
             Some (Throw e)) ↔
     refused options_min options_max) ∧
  (¬ refused options_min options_max →
   match kept_min with
   | Some (Finite q) =>
       if Qle_bool q (inject_Z (2 ^ 53))
       then ∀ fuel, (Z.to_nat (Qceiling q) < fuel)%nat →
                    returns fuel (Z.to_nat (Qceiling q))
       else ∀ fuel,
              construct fuel hardwareConcurrency options_min options_max = None
   | Some PlusInfinity =>
       ∀ fuel, construct fuel hardwareConcurrency options_min options_max = None
   | _ => ∀ fuel, returns fuel 0%nat
   end) ∧
  ∀ given_min given_max,
    options_min = integer given_min → options_max = integer given_max →
    default 1 given_min <= 2 ^ 53 →
    match new hardwareConcurrency given_min given_max with
    | Ok p =>
        kept_min = Some (Finite (inject_Z (min p))) ∧
        kept_max = Some (Finite (inject_Z (max p))) ∧
        min p = default 1 given_min ∧
        max p = default hardwareConcurrency given_max ∧
        0 < min p ∧ (given_max = None ∨ min p <= max p) ∧
        (∀ fuel, (Z.to_nat (min p) < fuel)%nat →
                 returns fuel (Z.to_nat (min p))) ∧
        listening p = (λ i, (i, true)) <$> seq 0 (Z.to_nat (min p)) ∧
        runners p = [] ∧ idleRunners p = [] ∧ pending p = []
    | Throw e =>
        ∀ fuel,
          construct fuel hardwareConcurrency options_min options_max =
            Some (Throw e)
    end.
Proof.
  cbv zeta. split_and!.
  - intros fuel. apply construct_refuses.
  - intros Hacc.
    destruct (spread (Finite 1) options_min) as [[q| | |]|] eqn:Hmin.
    + destruct (Qle_bool q (inject_Z (2 ^ 53))) eqn:Hq.
      * intros fuel Hfuel. apply construct_finite; [done|done| |done].
        apply Qle_bool_iff, Qceiling_resp_le in Hq.
        by rewrite Qceiling_Z in Hq.
      * apply (construct_never_returns _ _ _ (Finite q)); [done|done|].
        intros i Hi. simpl. apply negb_true_iff, not_true_iff_false.
        intros Hle%Qle_bool_iff. apply not_true_iff_false in Hq.
        apply Hq, Qle_bool_iff. eapply Qle_trans; [exact Hle|].
        by rewrite <-Zle_Qle.
    + intros fuel. rewrite <-Hmin. apply construct_no_worker; [done|].
      by rewrite Hmin.
    + by apply (construct_never_returns _ _ _ PlusInfinity).
    + intros fuel. rewrite <-Hmin. apply construct_no_worker; [done|].
      by rewrite Hmin.
    + intros fuel. rewrite <-Hmin. apply construct_no_worker; [done|].
      by rewrite Hmin.
  - intros given_min given_max -> -> Hsafe.
    change (Finite 1) with (Finite (inject_Z 1)). rewrite !integer_spread.
    unfold new, construct. rewrite !integer_tests, integer_order.
    destruct (match given_min with Some m => m <=? 0 | None => false end)
      eqn:H1; [done|].
    destruct (match given_max with Some m => m <=? 0 | None => false end)
      eqn:H2; [done|].
    destruct (match given_min, given_max with
              | Some a, Some b => a >? b
              | _, _ => false
              end) eqn:H3; [done|].
    cbv zeta. set (p0 := Build_Pool _ _ _ _ _ _ _ _ _ _ _).
    assert (0 < min p0) as Hpos.
    { simpl. destruct given_min as [m|]; simpl; lia. }
    destruct (Z.ltb_spec 0 (min p0)) as [_|?]; [|lia].
    destruct (create_idle_runners_keeps 0 (min p0) p0)
      as (Hmin & Hmax & Hr & Hi & Hp & _).
    rewrite Hmin, Hmax, Hr, Hi, Hp. simpl min. simpl max.
    split_and!; try done.
    + destruct given_min as [a|], given_max as [b|]; simpl; try (by left).
      * right. lia.
      * right. simpl in H2. lia.
    + intros fuel Hfuel.
      change (Finite 1) with (Finite (inject_Z 1)). rewrite !integer_spread.
      simpl to_number. unfold gt at 1. simpl lt.
      change 0%Q with (inject_Z 0). rewrite Qle_bool_inject.
      destruct (Z.leb_spec (default 1 given_min) 0); [simpl in Hpos; lia|].
      simpl negb. cbv iota.
      rewrite (create_runners_counts _ (Z.to_nat (default 1 given_min)));
        rewrite ?Qceiling_Z; [done|lia|simpl in Hpos; lia|done|done].
    + unfold create_idle_runners. rewrite Z.sub_0_r.
      by destruct (create_idle_runners_listening
                     (Z.to_nat (default 1 given_min)) p0) as [-> _].
Qed.

(** The constructor on [{min: undefined}], on [{min: 1.5}] and on
    [{min: NaN}], with 4 for [navigator.hardwareConcurrency]. *)
Lemma constructor_examples :
  construct 3 4 Undefined Absent =
    Some (Ok {| stored_min := None; stored_max := Some (Finite 4);
                workers := 0 |}) ∧
  construct 3 4 (Num (Finite (3 # 2))) Absent =
    Some (Ok {| stored_min := Some (Finite (3 # 2));
                stored_max := Some (Finite 4); workers := 2 |}) ∧
  construct 3 4 (Num NaN) Absent =
    Some (Ok {| stored_min := Some NaN; stored_max := Some (Finite 4);
                workers := 0 |}).
Proof. by vm_compute. Qed.

End pool_options.

(** ** [resolveDependencies] *)
Section resolution.
Import Descriptor Scheduler Resolution.

Lemma map_getOrError_mapM results : ∀ dep i,
  match map_getOrError results i dep with
  | Ok values => mapM (results_get results) dep = Some values
  | Throw e =>
      mapM (results_get results) dep = None ∧
      ∃ key, e = missing_from_results key
  end.
Proof.
  induction dep as [|d dep IH]; intros i; [done|].
  simpl. unfold getOrError.
  destruct (results_get results d) as [v|]; [|split; [done|by eexists]].
  specialize (IH (S i)). simpl.
  destruct (map_getOrError results (S i) dep); [by rewrite IH|].
  destruct IH as [-> ?]. by split.
Qed.

Lemma resolve_key_wanted descriptor results depKey (m : gmap string Dependency) :
  match wanted descriptor results depKey with
  | Some d => resolve_key descriptor results depKey m = (Ok tt, <[depKey := d]> m)
  | None =>
      ∃ key, resolve_key descriptor results depKey m =
               (Throw (missing_from_results key), m)
  end.
Proof.
  unfold wanted, resolve_key.
  destruct (descriptor_dep descriptor depKey) as [[s|dep|]|];
    try (unfold bind, of_result, getOrError, modify; simpl;
         destruct (results !! depKey); simpl; [done|by eexists]).
  pose proof (map_getOrError_mapM results dep 0%nat) as H.
  unfold bind, of_result, modify.
  destruct (map_getOrError results 0 dep) as [values|e].
  - by rewrite H.
  - destruct H as [-> [key ->]]. by eexists.
Qed.

Lemma for_of_resolve_key descriptor results (depKeys : list string) :
  ∀ m : gmap string Dependency,
    match for_of depKeys (resolve_key descriptor results) m with
    | (Ok _, dependencies) =>
        (∀ depKey, depKey ∈ depKeys →
                   is_Some (wanted descriptor results depKey)) ∧
        ∀ depKey,
          dependencies !! depKey =
            if bool_decide (depKey ∈ depKeys)
            then wanted descriptor results depKey else m !! depKey
    | (Throw e, _) =>
        ∃ before depKey after key,
          depKeys = before ++ depKey :: after ∧
          (∀ k, k ∈ before → is_Some (wanted descriptor results k)) ∧
          wanted descriptor results depKey = None ∧
          e = missing_from_results key
    end.
Proof.
  set (body := resolve_key descriptor results).
  induction depKeys as [|k ks IH]; intros m.
  - simpl. split; [by intros ? ?%elem_of_nil|done].
  - simpl. unfold bind at 1.
    pose proof (resolve_key_wanted descriptor results k m) as Hk.
    fold body in Hk.
    destruct (wanted descriptor results k) as [d|] eqn:Hw.
    + rewrite Hk. specialize (IH (<[k := d]> m)).
      destruct (for_of ks body (<[k := d]> m)) as [[[]|e] deps].
      * destruct IH as [Hall Hget]. split.
        -- intros depKey [->|Hin]%elem_of_cons; [by rewrite Hw|by apply Hall].
        -- intros depKey. rewrite Hget.
           destruct (decide (depKey ∈ ks)) as [Hin|Hnin].
           ++ by rewrite !bool_decide_eq_true_2 by set_solver.
           ++ rewrite (bool_decide_eq_false_2 (depKey ∈ ks)) by done.
              destruct (decide (k = depKey)) as [->|Hne].
              ** rewrite lookup_insert_eq.
                 by rewrite bool_decide_eq_true_2 by set_solver.
              ** rewrite lookup_insert_ne by done.
                 by rewrite bool_decide_eq_false_2 by set_solver.
      * destruct IH as (before & depKey & after & key & -> & Hb & Hnone & ->).
        exists (k :: before), depKey, after, key. split_and!; [done| |done..].
        intros k' [->|Hin]%elem_of_cons; [by rewrite Hw|by apply Hb].
    + destruct Hk as [key ->]. exists [], k, ks, key.
      split_and!; [done| |done..]. by intros ? ?%elem_of_nil.
Qed.

(** X19. [resolveDependencies], for keys that the assignment
    [dependencies[depKey] = ...] stores as properties (every key but
    [__proto__], which names the setter of [Object.prototype]). When it
    returns, every lookup has found its result, and its record has
    exactly the keys of [task.dependencies]: under a key whose value in
    the descriptor is an array it holds the results of the elements, in
    order, and under every other key the result stored under the key
    itself. When it throws, the lookups of some key found nothing, those
    of the keys before it had found their results, and the error is the
    one of [getOrError]. So it throws exactly when one of the lookups
    finds nothing. *)
Theorem resolveDependencies_looks_up_keys (depKeys : list string)
    (descriptor : TaskDescriptor)
    (results : gmap string Buffers.SharedArrayBuffer)
    (Hown : "__proto__" ∉ depKeys) :
  match resolveDependencies depKeys descriptor results with
  | Ok dependencies =>
      (∀ depKey, depKey ∈ depKeys →
                 is_Some (wanted descriptor results depKey)) ∧
      ∀ depKey,
        dependencies !! depKey =
          if bool_decide (depKey ∈ depKeys)
          then wanted descriptor results depKey else None
  | Throw e =>
      ∃ before depKey after key,
        depKeys = before ++ depKey :: after ∧
        (∀ k, k ∈ before → is_Some (wanted descriptor results k)) ∧
        wanted descriptor results depKey = None ∧
        e = missing_from_results key
  end.
Proof.
  unfold resolveDependencies.
  pose proof (for_of_resolve_key descriptor results depKeys ∅) as Hgen.
  destruct (for_of depKeys _ ∅) as [[[]|e] deps].
  - destruct Hgen as [Hall Hget]. split; [done|].
    intros depKey. rewrite Hget, lookup_empty. by case_bool_decide.
  - done.
Qed.

Lemma resolveDependencies_looks_up_keys_witness :
  ("__proto__" ∉ ["c"]) ∧
  match resolveDependencies ["c"] Examples.keyed_descriptor_b
          {["a" := Examples.buffer]} with
  | Ok dependencies =>
      (∀ depKey, depKey ∈ ["c"] →
                 is_Some (wanted Examples.keyed_descriptor_b
                            {["a" := Examples.buffer]} depKey)) ∧
      ∀ depKey,
        dependencies !! depKey =
          if bool_decide (depKey ∈ ["c"])
          then wanted Examples.keyed_descriptor_b
                 {["a" := Examples.buffer]} depKey
          else None
  | Throw e =>
      ∃ before depKey after key,
        ["c"] = before ++ depKey :: after ∧
        (∀ k, k ∈ before →
              is_Some (wanted Examples.keyed_descriptor_b
                         {["a" := Examples.buffer]} k)) ∧
        wanted Examples.keyed_descriptor_b
          {["a" := Examples.buffer]} depKey = None ∧
        e = missing_from_results key
  end.
Proof.
  assert ("__proto__" ∉ ["c"]) as Hown by by_compute.
  split; [exact Hown|].
  exact (resolveDependencies_looks_up_keys ["c"] Examples.keyed_descriptor_b
           {["a" := Examples.buffer]} Hown).
Defined.

(** X20. [resolveDependencies] resolves a scalar dependency by its key,
    not by the task id the descriptor gives for it: the record holds
    [results.get(key)] under the key, and when no result is stored under
    the key the call throws, whatever is stored under the target. *)
Theorem scalar_dependency_is_resolved_by_its_key (depKeys : list string)
    (descriptor : TaskDescriptor)
    (results : gmap string Buffers.SharedArrayBuffer) (key target : string)
    (Hkey : key ∈ depKeys)
    (Hdep : descriptor_dep descriptor key = Some (DScalar target)) :
  match resolveDependencies depKeys descriptor results with
  | Ok dependencies =>
      ∃ buffer, results !! key = Some buffer ∧
                dependencies !! key = Some (One buffer)
  | Throw _ => True
  end ∧
  (results !! key = None →
   ∃ e, resolveDependencies depKeys descriptor results = Throw e).
Proof.
  unfold resolveDependencies.
  pose proof (for_of_resolve_key descriptor results depKeys ∅) as Hgen.
  destruct (for_of depKeys _ ∅) as [[[]|e] deps].
  - destruct Hgen as [Hall Hget]. specialize (Hall key Hkey).
    specialize (Hget key). rewrite bool_decide_eq_true_2 in Hget by done.
    unfold wanted in Hall, Hget. rewrite Hdep in Hall, Hget.
    destruct (results !! key) as [buffer|]; [|by destruct Hall].
    split; [by exists buffer|done].
  - split; [done|]. by eexists.
Qed.

Lemma scalar_dependency_is_resolved_by_its_key_witness :
  ∃ e, resolveDependencies ["c"] Examples.keyed_descriptor_b
         {["a" := Examples.buffer]} = Throw e.
Proof.
  apply (scalar_dependency_is_resolved_by_its_key ["c"]
           Examples.keyed_descriptor_b {["a" := Examples.buffer]} "c" "a").
  - apply list_elem_of_here.
  - vm_compute. reflexivity.
  - vm_compute. reflexivity.
Defined.

End resolution.

(** ** The counts after [initializeDependencies] *)
Section initial_counts.
Import Descriptor Scheduler Api References.

Lemma keeps_count_add_dependent k taskId :
  keeps dependencyCount (add_dependent k taskId).
Proof.
  intros s. unfold add_dependent. by destruct (k ≫= _) as [[k' set]|].
Qed.

(** X21. When [initializeDependencies] returns, the count of the task
    has grown by the number of references the task holds under the keys
    of the descriptor (one for a buffer, the length for an array), each of
    these keys is a key of the task, and no other count has changed. *)
Theorem initializeDependencies_counts_references (task : Task)
    (descriptor : TaskDescriptor) (s s' : State)
    (Hinit : initializeDependencies task descriptor s = (Ok tt, s')) :
  default 0 (dependencyCount s' !! task_id task) =
    default 0 (dependencyCount s !! task_id task) +
    references task (depKeys descriptor) ∧
  (∀ depKey, depKey ∈ depKeys descriptor →
             is_Some (task_dependencies task !! depKey)) ∧
  ∀ k, k ≠ task_id task → dependencyCount s' !! k = dependencyCount s !! k.
Proof.
  unfold initializeDependencies in Hinit.
  set (body := λ depKey : string, _) in Hinit.
  revert s Hinit. induction (depKeys descriptor) as [|depKey l IH]; intros s.
  - intros [= <-]. simpl. split_and!; [lia| |done]. by intros ? ?%elem_of_nil.
  - simpl. unfold bind at 1.
    destruct (body depKey s) as [[[]|e] s1] eqn:Hbody; [|done].
    intros Hrest. apply IH in Hrest as (Hcount & Hall & Hother).
    assert (∃ w, match task_dependencies task !! depKey with
                 | Some TSingle => w = 1
                 | Some (TGroup length) => w = Z.of_nat length
                 | None => False
                 end ∧
                 dependencyCount s1 =
                   <[task_id task :=
                       default 0 (dependencyCount s !! task_id task) + w]>
                     (dependencyCount s)) as (w & Hw & Hs1).
    { unfold body in Hbody.
      destruct (task_dependencies task !! depKey) as [[|n]|]; [| |done].
      - exists 1. split; [done|].
        unfold bind, on_counter, DependencyCounter.increment in Hbody.
        simpl in Hbody.
        pose proof (keeps_count_add_dependent (Some depKey) (task_id task)
                      (set_dependencyCount
                         (λ _, <[task_id task :=
                                   default 0 (dependencyCount s !! task_id task) + 1]>
                                 (dependencyCount s)) s)) as Hk.
        rewrite Hbody in Hk. exact Hk.
      - exists (Z.of_nat n). split; [done|].
        unfold bind at 1, on_counter, DependencyCounter.increment in Hbody.
        simpl in Hbody.
        match type of Hbody with
        | for_of ?l ?f ?s0 = _ =>
            assert (keeps dependencyCount (for_of l f)) as Hk
        end.
        { apply keeps_for_of. intros i. apply keeps_bind; [done|].
          intros depTaskId. apply keeps_count_add_dependent. }
        match type of Hbody with
        | for_of ?l ?f ?s0 = _ => specialize (Hk s0)
        end.
        rewrite Hbody in Hk. exact Hk. }
    rewrite Hs1 in Hcount, Hother. rewrite lookup_insert_eq in Hcount.
    simpl in Hcount. split_and!.
    + rewrite Hcount.
      destruct (task_dependencies task !! depKey) as [[|n]|]; [| |done];
        subst w; lia.
    + intros k [->|Hin]%elem_of_cons; [|by apply Hall].
      by destruct (task_dependencies task !! depKey).
    + intros k Hk. rewrite Hother by done. by rewrite lookup_insert_ne.
Qed.

Lemma initializeDependencies_counts_references_witness :
  ∃ s s',
    initializeDependencies Examples.readme_task_b Examples.readme_descriptor_b s =
      (Ok tt, s') ∧
    default 0 (dependencyCount s' !! task_id Examples.readme_task_b) =
      default 0 (dependencyCount s !! task_id Examples.readme_task_b) +
      references Examples.readme_task_b (depKeys Examples.readme_descriptor_b).
Proof.
  exists (set_dependents (λ _, {["a" := []]}) (fresh Examples.readme_workflow)).
  eexists. split; [vm_compute; reflexivity|].
  eapply (initializeDependencies_counts_references Examples.readme_task_b
            Examples.readme_descriptor_b).
  vm_compute. reflexivity.
Defined.

End initial_counts.

(** ** Tasks that are never released *)
Section progress.
Import Descriptor Scheduler Api Progress.

Lemma preserves_bind {A B} (P : State → Prop) (m : M State A)
    (k : A → M State B) :
  preserves P m → (∀ a, preserves P (k a)) → preserves P (bind m k).
Proof.
  intros Hm Hk s Hs. unfold bind. specialize (Hm s Hs).
  destruct (m s) as [[a|e] s']; simpl in *; [|done]. by apply Hk.
Qed.

Lemma preserves_for_of {A} (P : State → Prop) (l : list A)
    (body : A → M State unit) :
  (∀ x, preserves P (body x)) → preserves P (for_of l body).
Proof.
  intros Hbody. induction l as [|x l IH]; [by intros ? ?|].
  simpl. apply preserves_bind; [apply Hbody|done].
Qed.

Lemma preserves_try_finally {A} (P : State → Prop) (m : M State A)
    (f : M State unit) :
  preserves P m → preserves P f → preserves P (try_finally m f).
Proof.
  intros Hm Hf s Hs. unfold try_finally. specialize (Hm s Hs).
  destruct (m s) as [r s']. simpl in Hm. specialize (Hf s' Hm).
  by destruct (f s') as [[[]|e] s''].
Qed.

Lemma keeps_gates_preserves {A} (k : string) (m : M State A) :
  keeps gates m → preserves (held k) m.
Proof.
  intros Hm s [Hc Hr]. specialize (Hm s). unfold gates in Hm.
  injection Hm as Hc' Hr'. unfold held. by rewrite Hc', Hr'.
Qed.

Lemma held_decrement_and_resolve (k : string) (k' : option string) :
  preserves (held k) (decrement_and_resolve k').
Proof.
  intros s [Hc Hr]. unfold decrement_and_resolve, bind, decrement_key.
  destruct k' as [k'|]; [|done].
  unfold on_counter, DependencyCounter.decrement.
  destruct (decide (k' = k)) as [->|Hne].
  { rewrite Hc. simpl. done. }
  destruct (default 0 (dependencyCount s !! k') - 1 <? 0); [done|]. simpl.
  assert (held k (set_dependencyCount
                    (λ _, <[k' := default 0 (dependencyCount s !! k') - 1]>
                            (dependencyCount s)) s)) as Hheld.
  { split; [|done]. simpl. by rewrite lookup_insert_ne. }
  destruct (_ =? 0); [|done].
  unfold resolve_readiness. simpl.
  destruct (taskReadiness s !! k') as [d|]; [|done]. simpl.
  destruct (Deferred.resolve () d) as [d'|e]; [|done]. simpl.
  destruct Hheld as [Hc' Hr']. split; [done|]. simpl.
  by rewrite lookup_insert_ne.
Qed.

Lemma held_updateDependencies (k : string) task descriptor :
  preserves (held k) (updateDependencies task descriptor).
Proof.
  apply preserves_bind.
  - apply preserves_for_of. intros depKey.
    destruct (task_dependencies task !! depKey) as [[|n]|];
      try apply held_decrement_and_resolve.
    apply preserves_for_of. intros i. apply preserves_bind; [by intros ? ?|].
    intros depTaskId. apply held_decrement_and_resolve.
  - intros _. apply preserves_bind.
    + intros s Hs. by destruct (dependents s !! task_id task).
    + intros set. apply preserves_for_of. intros dependent.
      apply held_decrement_and_resolve.
Qed.

Lemma held_reject_remaining (k : string) reason :
  preserves (held k) (reject_remaining reason).
Proof.
  apply preserves_bind; [by intros ? ?|]. intros l. apply preserves_for_of.
  intros k' s [Hc Hr]. unfold reject_readiness.
  destruct (taskReadiness s !! k') as [d|] eqn:Hd; [|done].
  destruct (Deferred.reject reason d) as [d'|e] eqn:Hrej; [|done].
  split; [done|]. simpl.
  destruct (decide (k' = k)) as [->|Hne].
  - rewrite lookup_insert_eq. unfold Deferred.reject in Hrej.
    destruct (Deferred.settled d); [done|]. by injection Hrej as <-.
  - by rewrite lookup_insert_ne.
Qed.

Lemma held_settle_deferred (k : string) i settle :
  preserves (held k) (settle_deferred i settle).
Proof.
  apply keeps_gates_preserves. intros s. unfold settle_deferred.
  destruct (deferreds s !! i) as [d|]; [|done]. by destruct (settle d).
Qed.

Lemma held_resolve_with (k : string) workflow taskId d result :
  preserves (held k) (resolve_with workflow taskId d result).
Proof.
  unfold resolve_with. apply preserves_bind.
  - destruct (finish result); [|by intros ? ?].
    apply preserves_bind; [by apply keeps_gates_preserves|]. intros _.
    apply preserves_bind; [|intros _; by apply keeps_gates_preserves].
    destruct (tasks_get workflow taskId), (taskDescriptors workflow !! taskId);
      try (by intros ? ?). apply held_updateDependencies.
  - intros _. apply preserves_bind; [by intros ? ?|]. intros remaining.
    apply preserves_bind; [|intros _; apply held_settle_deferred].
    destruct remaining; by apply keeps_gates_preserves.
Qed.

Lemma held_V1 (k : string) workflow :
  (∀ result, preserves (held k) (V1.resolve workflow result)) ∧
  (∀ reason, preserves (held k) (V1.reject reason)) ∧
  (∀ reason, preserves (held k) (V1.abort reason)).
Proof.
  assert (∀ reason, preserves (held k) (V1.reject reason)) as Hreject.
  { intros reason. apply preserves_bind; [by intros ? ?|]. intros deferred.
    apply preserves_bind; [by apply keeps_gates_preserves|]. intros _.
    apply preserves_bind; [apply held_reject_remaining|]. intros _.
    destruct deferred; [apply held_settle_deferred|by intros ? ?]. }
  split_and!; [|done|].
  - intros result. apply preserves_bind; [by intros ? ?|]. intros [d|]; [|by intros ? ?].
    apply held_resolve_with.
  - intros reason. apply preserves_bind; [by intros ? ?|]. intros a.
    apply preserves_bind; [by intros ? ?|]. intros deferred.
    destruct (negb a && _); [|by intros ? ?].
    apply preserves_bind; [by apply keeps_gates_preserves|]. intros _.
    apply preserves_bind; [apply held_reject_remaining|]. intros _.
    apply Hreject.
Qed.

Lemma held_V2 (k : string) workflow :
  (∀ result, preserves (held k) (V2.resolve workflow result)) ∧
  (∀ reason, preserves (held k) (V2.reject reason)) ∧
  (∀ reason, preserves (held k) (V2.abort reason)).
Proof.
  assert (∀ reason, preserves (held k) (V2.reject reason)) as Hreject.
  { intros reason. apply preserves_bind; [by intros ? ?|]. intros [d|]; [|by intros ? ?].
    apply preserves_bind; [by apply keeps_gates_preserves|]. intros _.
    apply preserves_try_finally;
      [apply held_reject_remaining|apply held_settle_deferred]. }
  split_and!; [|done|].
  - intros result. apply preserves_bind; [by intros ? ?|]. intros [d|]; [|by intros ? ?].
    apply held_resolve_with.
  - intros reason. apply preserves_bind; [by intros ? ?|]. intros a.
    apply preserves_bind; [by intros ? ?|]. intros deferred.
    destruct (negb a && _); [|by intros ? ?].
    apply preserves_bind; [by apply keeps_gates_preserves|]. intros _.
    apply Hreject.
Qed.

Lemma held_after (k : string) workflow resolve reject abort :
  (∀ result, preserves (held k) (resolve workflow result)) →
  (∀ reason, preserves (held k) (reject reason)) →
  (∀ reason, preserves (held k) (abort reason)) →
  ∀ events s, held k s →
    held k (foldl (after workflow resolve reject abort) s events).
Proof.
  intros Hresolve Hreject Habort.
  induction events as [|e events IH]; intros s Hs; [done|].
  simpl. apply IH. destruct e as [[message|e|]|reason]; simpl.
  - unfold deliver. destruct (isErrorResponse message).
    + pose proof (Hreject (ErrorResponseReason (msg_id message)
                             (msg_error message)) s Hs) as H.
      destruct (reject _ s) as [[[]|e] s']; simpl in *; [done|].
      by apply Hreject.
    + pose proof (Hresolve message s Hs) as H.
      destruct (resolve workflow message s) as [[[]|e] s']; simpl in *; [done|].
      by apply Hreject.
  - by apply Hreject.
  - done.
  - by apply Habort.
Qed.

(** X22. A task whose count is 0 when the initialisation ends is never
    released: whatever messages, errors and aborts follow, in either
    revision of [executeWorkflow], its count stays 0 and its readiness
    [Deferred] is never resolved. The readiness is resolved only by a
    decrement that reaches 0, and a decrement of 0 throws. *)
Theorem initial_tasks_are_never_released (workflow : ExecutableWorkflow)
    (s : State) (k : string) (events : list Event)
    (Hsetup : setup workflow (fresh workflow) = (Ok tt, s))
    (Hinitial : dependencyCount s !! k = Some 0) :
  held k (foldl (after workflow V1.resolve V1.reject V1.abort) s events) ∧
  held k (foldl (after workflow V2.resolve V2.reject V2.abort) s events).
Proof.
  assert (held k s) as Hs.
  { split; [done|]. apply setup_ready in Hsetup as (_ & _ & _ & _ & _ & Hp & _).
    intros Hr. by apply Hp in Hr. }
  destruct (held_V1 k workflow) as (? & ? & ?).
  destruct (held_V2 k workflow) as (? & ? & ?).
  split; by apply held_after.
Qed.

Lemma initial_tasks_are_never_released_witness :
  ∃ s, setup Examples.single_task_workflow (fresh Examples.single_task_workflow) =
         (Ok tt, s) ∧
       held "a" (foldl (after Examples.single_task_workflow
                          V2.resolve V2.reject V2.abort) s
                   [Acted (RunnerMessage (Examples.final_of "a"))]).
Proof.
  eexists. split; [vm_compute; reflexivity|].
  eapply (initial_tasks_are_never_released Examples.single_task_workflow).
  - vm_compute. reflexivity.
  - vm_compute. reflexivity.
Defined.

End progress.

(** ** The errors of [validateTaskGraph] *)
Section validation_errors.
Import Descriptor GraphValidator GraphSpec Chains.

Lemma for_each_outcome {A S} (P : S → Prop) (Q : error → Prop)
    (body : A → S → option (result S)) (l : list A) :
  (∀ x s r, x ∈ l → P s → body x s = Some r →
     match r with Ok s' => P s' | Throw e => Q e end) →
  ∀ s r, P s → for_each body l s = Some r →
    match r with Ok s' => P s' | Throw e => Q e end.
Proof.
  induction l as [|x l IH]; intros Hbody s r Hs.
  - by intros [= <-].
  - rewrite for_each_cons. destruct (body x s) as [[s1|e]|] eqn:Hx; [| |done].
    + apply IH; [|by apply (Hbody x s (Ok s1)); [left|..]].
      intros y s2 r2 Hy. apply Hbody. by right.
    + intros [= <-]. by apply (Hbody x s (Throw e)); [left|..].
Qed.

Lemma chain_singleton E u : chain E [u].
Proof. intros i a b Ha Hb. by destruct i. Qed.

Lemma chain_snoc E (l : list string) (u v : string) :
  chain E (l ++ [u]) → E u v → chain E ((l ++ [u]) ++ [v]).
Proof.
  intros Hl Huv i a b Ha Hb.
  destruct (decide (S i < length (l ++ [u]))%nat) as [Hlt|Hge].
  - rewrite lookup_app_l in Ha by lia. rewrite lookup_app_l in Hb by done.
    by eapply Hl.
  - assert (S i = length (l ++ [u])) as Hi.
    { apply lookup_lt_Some in Hb. rewrite length_app in Hb. simpl in Hb. lia. }
    rewrite lookup_app_r, Hi, Nat.sub_diag in Hb by lia.
    injection Hb as <-.
    rewrite lookup_app_l in Ha by lia.
    rewrite length_app in Hi. simpl in Hi.
    replace i with (length l) in Ha by lia.
    rewrite lookup_app_r, Nat.sub_diag in Ha by lia. by injection Ha as <-.
Qed.

Lemma head_snoc (l : list string) (u v : string) :
  head ((l ++ [u]) ++ [v]) = head (l ++ [u]).
Proof. by destruct l. Qed.

Section visits.

Variable taskMap : gmap string TaskDescriptor.

Local Abbreviation holds := (Chains.holds taskMap).
Local Abbreviation visit_error := (Chains.visit_error taskMap).

Lemma visit_outcome : ∀ fuel i st r top,
  has_task taskMap i = true →
  chain holds (stack st ++ [i]) →
  head (stack st ++ [i]) = Some top →
  visit fuel taskMap i st = Some r →
  match r with
  | Ok st' => stack st' = stack st
  | Throw e => visit_error top e
  end.
Proof.
  induction fuel as [|fuel IH]; intros i st r top Hi Hchain Hhead; [done|].
  rewrite visit_S. destruct (has_visited st i) eqn:Hv.
  { intros [= <-]. right. eexists _, _. split_and!; [done|done| |done].
    by rewrite last_snoc. }
  apply has_visited_false in Hv as [_ Hinh].
  destruct (taskMap !! i) as [task|] eqn:Htask.
  2:{ unfold has_task in Hi. rewrite Htask, Hinh in Hi.
      rewrite bool_decide_eq_false_2 in Hi by by intros [? ?]. done. }
  cbv zeta. set (st1 := {| visited := {[i]} ∪ visited st;
                           stack := stack st ++ [i] |}).
  set (P := λ s : VisitState, stack s = stack st ++ [i]).
  assert (∀ d s r, d ∈ task_targets task → P s →
            check_and_visit (visit fuel taskMap) taskMap d s = Some r →
            match r with Ok s' => P s' | Throw e => visit_error top e end)
    as Hcheck.
  { intros d s r0 Hd Hs. unfold check_and_visit.
    destruct (has_task taskMap d) eqn:Hhas.
    - intros Hvisit. unfold P in Hs.
      eapply (IH d s r0 top) in Hvisit; [|done| |].
      + destruct r0; [unfold P; congruence|done].
      + rewrite Hs. apply chain_snoc; [done|]. by exists task.
      + by rewrite Hs, head_snoc.
    - intros [= <-]. left. exists d, i. split_and!; [done|done|by exists task]. }
  assert (∀ r0,
          match dependencies task with
          | None => Some (Ok st1)
          | Some deps =>
              for_each (λ kd s, visit_dep (visit fuel taskMap) taskMap kd.2 s)
                deps st1
          end = Some r0 →
          match r0 with Ok s' => P s' | Throw e => visit_error top e end)
    as Hbody.
  { intros r0. unfold task_targets in Hcheck.
    destruct (dependencies task) as [deps|]; [|by intros [= <-]].
    apply for_each_outcome; [|done].
    intros [key dep] s r1 Hkd Hs. simpl.
    assert (∀ d, d ∈ dep_targets dep →
                 d ∈ flat_map (λ kd : string * DepRef, dep_targets kd.2) deps)
      as Hin.
    { intros d Hd. apply list_elem_of_In, in_flat_map.
      exists (key, dep). split; by apply list_elem_of_In. }
    destruct dep as [d|elems|]; simpl.
    - destruct (truthy d) eqn:Ht; [|by intros [= <-]].
      apply Hcheck; [|done]. apply Hin. simpl. rewrite Ht. by left.
    - apply for_each_outcome; [|done].
      intros [d|] s2 r2 Hel Hs2; [|by intros [= <-]].
      apply Hcheck; [|done]. apply Hin. simpl.
      apply list_elem_of_In, in_flat_map. exists (GStr d).
      split; [by apply list_elem_of_In|by left].
    - by intros [= <-]. }
  destruct (match dependencies task with None => _ | Some deps => _ end)
    as [[st2|e]|]; [| |done].
  - intros [= <-]. simpl. specialize (Hbody _ eq_refl). simpl in Hbody.
    unfold P in Hbody. rewrite Hbody. apply removelast_last.
  - intros [= <-]. by specialize (Hbody _ eq_refl).
Qed.

End visits.

Lemma build_taskMap_throws tasks : ∀ m0 e,
  build_taskMap tasks m0 = Throw e →
  ∃ pre t post,
    tasks = pre ++ t :: post ∧ e = DuplicateTaskError (id t) ∧
    (id t ∈ id <$> pre ∨ has_task m0 (id t) = true).
Proof.
  induction tasks as [|t tasks IH]; intros m0 e; [done|].
  simpl. destruct (has_task m0 (id t)) eqn:Ht.
  - intros [= <-]. exists [], t, tasks. split_and!; [done|done|by right].
  - intros (pre & t' & post & -> & -> & Hdup)%IH.
    exists (t :: pre), t', post. split_and!; [done|done|].
    destruct Hdup as [Hin|Hhas]; [left; set_solver|].
    unfold has_task in Hhas. apply orb_true_iff in Hhas as [Hown|Hinh].
    + apply bool_decide_eq_true in Hown.
      destruct (decide (id t = id t')) as [Heq|Hne].
      * left. rewrite fmap_cons, <-Heq. by left.
      * rewrite lookup_insert_ne in Hown by done.
        right. unfold has_task. by rewrite bool_decide_eq_true_2.
    + right. unfold has_task. by rewrite Hinh, orb_true_r.
Qed.

(** X23. An error thrown by [validateTaskGraph] is one of the three
    documented ones and names something real: [DuplicateTaskError] the id
    of a task that repeats the id of an earlier task or is a key of
    [Object.prototype]; [DependencyNotFoundError] a reference held by some
    task that is the id of no task; [CyclicDependencyError] a dependency
    [d] with a path that ends in [d], starts at a task of the list and
    follows references from each element to the next. *)
Theorem validation_errors_name_real_defects (tasks : list TaskDescriptor)
    (e : error) (Hthrows : validateTaskGraph tasks = Some (Throw e)) :
  (∃ pre t post,
     tasks = pre ++ t :: post ∧ e = DuplicateTaskError (id t) ∧
     (id t ∈ id <$> pre ∨ inherited (id t) = true)) ∨
  (∃ d u,
     e = DependencyNotFoundError d ∧ (d ∉ id <$> tasks) ∧
     inherited d = false ∧ edge tasks u d) ∨
  (∃ d path t,
     e = CyclicDependencyError d path ∧ last path = Some d ∧
     t ∈ tasks ∧ head path = Some (id t) ∧ chain (edge tasks) path).
Proof.
  unfold validateTaskGraph, validateTaskGraph_fuel in Hthrows.
  destruct (build_taskMap tasks ∅) as [m|e0] eqn:Hb.
  2:{ injection Hthrows as ->. left.
      apply build_taskMap_throws in Hb as (pre & t & post & -> & -> & Hdup).
      exists pre, t, post. split_and!; [done|done|].
      destruct Hdup as [?|Hhas]; [by left|right].
      unfold has_task in Hhas. rewrite lookup_empty in Hhas.
      by rewrite bool_decide_eq_false_2 in Hhas by (by intros [? ?]). }
  apply build_taskMap_ok in Hb as (_ & _ & _ & Hget & Hother & _);
    [|apply hygienic_empty].
  right.
  assert (∀ u t, m !! u = Some t → t ∈ tasks ∧ id t = u) as Hown.
  { intros u t Hu. destruct (decide (u ∈ id <$> tasks)) as [Hin|Hnin].
    - apply list_elem_of_fmap in Hin as (t' & -> & Hin).
      rewrite (Hget t' Hin) in Hu. by injection Hu as <-.
    - by rewrite Hother, lookup_empty in Hu. }
  set (holds := λ u v, ∃ t, m !! u = Some t ∧ v ∈ task_targets t).
  assert (∀ u v, holds u v → edge tasks u v) as Hedge.
  { intros u v (t & Hu & Hv). exists t. apply Hown in Hu as [? ?]. done. }
  set (Q := λ e : error,
         (∃ d u, e = DependencyNotFoundError d ∧ has_task m d = false ∧
                 holds u d) ∨
         (∃ d path t, e = CyclicDependencyError d path ∧ chain holds path ∧
                      last path = Some d ∧ t ∈ tasks ∧
                      head path = Some (id t))).
  assert (Q e) as [(d & u & -> & Hd & Hud)|(d & path & t & -> & Hc & Hl & Ht & Hh)].
  { destruct (for_each _ tasks initial_state) as [[st|e1]|] eqn:Hloop;
      [done| |done].
    injection Hthrows as ->.
    apply (for_each_outcome (λ s, stack s = []) Q) in Hloop; [done| |done].
    intros t s r Ht Hs Hvisit.
    apply (visit_outcome m _ _ _ _ (id t)) in Hvisit.
    - destruct r as [s'|e1]; [congruence|].
      destruct Hvisit as [(d & u & -> & ? & ?)|(d & path & -> & ? & ? & ?)].
      + left. by exists d, u.
      + right. by exists d, path, t.
    - unfold has_task. rewrite (Hget t Ht).
      by rewrite bool_decide_eq_true_2 by done.
    - rewrite Hs. apply chain_singleton.
    - by rewrite Hs. }
  - left. apply has_task_false in Hd as [Hnone Hinh].
    exists d, u. split_and!; [done| |done|by apply Hedge].
    intros (t & -> & Hin)%list_elem_of_fmap. by rewrite (Hget t Hin) in Hnone.
  - right. exists d, path, t. split_and!; try done.
    intros i a b Ha Hb'. apply Hedge. by eapply Hc.
Qed.

Lemma validation_errors_name_real_defects_witness :
  ∃ d path t,
    CyclicDependencyError "a" ["b"; "a"] = CyclicDependencyError d path ∧
    last path = Some d ∧ t ∈ Examples.readme_tasks ∧
    head path = Some (id t) ∧ chain (edge Examples.readme_tasks) path.
Proof.
  destruct (validation_errors_name_real_defects Examples.readme_tasks
              (CyclicDependencyError "a" ["b"; "a"]))
    as [(? & ? & ? & _ & [=] & _)|[(? & ? & [=] & _)|H]].
  - vm_compute. reflexivity.
  - exact H.
Defined.

End validation_errors.

(** ** The errors of [fromSharedArrayBuffer] *)
Section buffer_errors.
Import Buffers.



End buffer_errors.

(** ** The release of dependents *)
Section release.
Import Descriptor Scheduler Api.

Lemma decrement_and_release (l : list string) : ∀ s,
  NoDup l →
  (∀ U, U ∈ l → ∃ c, dependencyCount s !! U = Some c ∧ 0 < c ∧
                     taskReadiness s !! U = Some Deferred.Pending) →
  ∃ s', for_of l (λ dependent, decrement_and_resolve (Some dependent)) s =
          (Ok tt, s') ∧
        (∀ U, U ∈ l →
           dependencyCount s' !! U = (λ c, c - 1) <$> dependencyCount s !! U ∧
           taskReadiness s' !! U =
             Some (if bool_decide (dependencyCount s !! U = Some 1)
                   then Deferred.Resolved tt else Deferred.Pending)) ∧
        (∀ U, U ∉ l →
           dependencyCount s' !! U = dependencyCount s !! U ∧
           taskReadiness s' !! U = taskReadiness s !! U).
Proof.
  induction l as [|k l IH]; intros s Hnd Hc.
  - exists s. split_and!; try done. intros U HU. by apply elem_of_nil in HU.
  - apply NoDup_cons in Hnd as [Hk Hnd].
    destruct (Hc k) as (c & Hkc & Hpos & Hkr); [left|].
    simpl. unfold bind at 1, decrement_and_resolve at 1, bind at 1.
    unfold decrement_key, on_counter, DependencyCounter.decrement.
    rewrite Hkc. simpl.
    destruct (Z.ltb_spec (c - 1) 0) as [?|_]; [lia|].
    set (s1 := set_dependencyCount (λ _, <[k := c - 1]> (dependencyCount s)) s).
    assert (∃ s2, (if c - 1 =? 0 then resolve_readiness (Some k) else ret tt) s1 =
                    (Ok tt, s2) ∧
                  dependencyCount s2 = <[k := c - 1]> (dependencyCount s) ∧
                  taskReadiness s2 =
                    <[k := if bool_decide (c = 1)
                           then Deferred.Resolved tt else Deferred.Pending]>
                      (taskReadiness s)) as (s2 & -> & Hc2 & Hr2).
    { destruct (Z.eqb_spec (c - 1) 0) as [Hz|Hnz].
      - unfold resolve_readiness. simpl. rewrite Hkr. simpl.
        eexists. split; [done|]. split; [done|]. simpl.
        by rewrite bool_decide_eq_true_2 by lia.
      - exists s1. split; [done|]. split; [done|]. simpl.
        rewrite bool_decide_eq_false_2 by lia. by rewrite insert_id. }
    destruct (IH s2) as (s' & Hrun & Hin & Hout); [done| |].
    { intros U HU. rewrite Hc2, Hr2.
      rewrite !lookup_insert_ne by set_solver. apply Hc. by right. }
    exists s'. rewrite Hrun. split_and!; [done| |].
    + intros U [->|HU]%elem_of_cons.
      * destruct (Hout k Hk) as [-> ->]. rewrite Hc2, Hr2, Hkc.
        rewrite !lookup_insert_eq. simpl. split; [done|].
        f_equal. by repeat case_bool_decide; simplify_eq.
      * destruct (Hin U HU) as [-> ->]. rewrite Hc2.
        by rewrite lookup_insert_ne by set_solver.
    + intros U [Hne HU]%not_elem_of_cons.
      destruct (Hout U HU) as [-> ->]. rewrite Hc2, Hr2.
      by rewrite !lookup_insert_ne.
Qed.

(** X25. When a task without dependencies of its own finishes and each
    of its dependents waits with a positive count and a pending readiness,
    [updateDependencies] takes one from the count of each dependent and
    resolves the readiness of exactly those whose count was 1; the counts
    and the readiness of all other tasks stay as they are. *)
Theorem updateDependencies_releases_at_zero (task : Task)
    (descriptor : TaskDescriptor) (set : list string) (s : State)
    (Hdeps : dependencies descriptor = None)
    (Hset : dependents s !! task_id task = Some set)
    (Hnd : NoDup set)
    (Hwait : ∀ U, U ∈ set →
       ∃ c, dependencyCount s !! U = Some c ∧ 0 < c ∧
            taskReadiness s !! U = Some Deferred.Pending) :
  ∃ s', updateDependencies task descriptor s = (Ok tt, s') ∧
        (∀ U, U ∈ set →
           dependencyCount s' !! U = (λ c, c - 1) <$> dependencyCount s !! U ∧
           taskReadiness s' !! U =
             Some (if bool_decide (dependencyCount s !! U = Some 1)
                   then Deferred.Resolved tt else Deferred.Pending)) ∧
        (∀ U, U ∉ set →
           dependencyCount s' !! U = dependencyCount s !! U ∧
           taskReadiness s' !! U = taskReadiness s !! U).
Proof.
  unfold updateDependencies, depKeys.
  rewrite Hdeps. simpl. unfold bind at 1, ret. unfold bind at 1.
  rewrite Hset. by apply decrement_and_release.
Qed.

Lemma updateDependencies_releases_at_zero_witness :
  ∃ s', updateDependencies Examples.task_a Examples.descriptor_a
          (snd (setup Examples.chain_workflow (fresh Examples.chain_workflow))) =
          (Ok tt, s') ∧
        taskReadiness s' !! "b" = Some (Deferred.Resolved tt).
Proof.
  destruct (updateDependencies_releases_at_zero Examples.task_a
              Examples.descriptor_a ["b"]
              (snd (setup Examples.chain_workflow (fresh Examples.chain_workflow))))
    as (s' & Hrun & Hin & _).
  - reflexivity.
  - vm_compute. reflexivity.
  - by_compute.
  - intros U HU. apply list_elem_of_singleton in HU as ->.
    exists 1. split_and!; [vm_compute; reflexivity|lia|vm_compute; reflexivity].
  - exists s'. split; [exact Hrun|].
    destruct (Hin "b") as [_ Hb]; [apply list_elem_of_here|].
    rewrite Hb. reflexivity.
Defined.

End release.

(** ** Runs in which no task reports *)
Section quiet_runs.
Import Descriptor Scheduler Api Quiet.

Lemma await_quiet workflow resolve reject (d : nat) (s : State) :
  deferreds s !! d = Some Deferred.Pending →
  ∀ script signal, quiet script →
    ∃ signal', await workflow resolve reject d signal script s =
                 (None, signal', [], s).
Proof.
  intros Hd. induction script as [|a script IH]; intros signal Hq.
  - exists signal. simpl. by rewrite Hd.
  - apply Forall_cons in Hq as [-> Hq]. simpl. rewrite Hd. by apply IH.
Qed.

Lemma loop_quiet workflow resolve reject abort signal_reason
    (script : list Action) (s : State) :
  ready_to_run workflow s → quiet script →
  loop workflow resolve reject abort signal_reason
    (S (length script)) false script [] s =
    {| yielded := []; ended := Suspended |}.
Proof.
  intros (_ & _ & Hd & Hdm & _) Hq. simpl. rewrite Hdm.
  destruct (await_quiet workflow resolve reject 0 s) with script false
    as [signal' ->]; [by rewrite Hd|done|done].
Qed.

(** X26. When the initialisation of [executeWorkflow] returns, the
    readiness of every task is pending, so that every [execute] waits at
    its first [await]. As long as nothing reaches [resolve] or [reject]
    (and [execute] passes on only what [executeTask] yields), the
    generator, in either revision, yields nothing and stays suspended at
    its first [await], also when the signal fires meanwhile: the signal
    is tested at the head of the loop only. *)
Theorem quiet_run_stays_suspended (workflow : ExecutableWorkflow)
    (s : State) (script : list Action)
    (Hsetup : setup workflow (fresh workflow) = (Ok tt, s))
    (Hquiet : quiet script) :
  (∀ k d, taskReadiness s !! k = Some d → d = Deferred.Pending) ∧
  executeWorkflow_v1 workflow false script =
    {| yielded := []; ended := Suspended |} ∧
  executeWorkflow_v2 workflow false script =
    {| yielded := []; ended := Suspended |}.
Proof.
  pose proof (setup_ready workflow s Hsetup) as Hready.
  split_and!.
  - by destruct Hready as (_ & _ & _ & _ & _ & Hp & _).
  - unfold executeWorkflow_v1, executeWorkflow. rewrite Hsetup.
    by apply loop_quiet.
  - unfold executeWorkflow_v2, executeWorkflow. rewrite Hsetup.
    by apply loop_quiet.
Qed.

Lemma quiet_run_stays_suspended_witness :
  executeWorkflow_v2 Examples.single_task_workflow false [SignalAbort] =
    {| yielded := []; ended := Suspended |}.
Proof.
  eapply (quiet_run_stays_suspended Examples.single_task_workflow _
            [SignalAbort]).
  - vm_compute. reflexivity.
  - apply Forall_singleton. reflexivity.
Defined.

End quiet_runs.

(** ** The guards *)
Section guards.
Import Guards.

(** X27. The guards for success, error and finish responses narrow
    [isResponse]: each holds only for a response that [isResponse]
    accepts with the same arguments, and success and error exclude each
    other. The expected type and id only narrow the test, and an empty
    string in their place switches the comparison off like a missing
    argument. *)
Theorem guards_narrow_isResponse (data : Data) (type id : option string) :
  (isSuccessResponse data type id = true →
   isResponse data type id = true ∧ isErrorResponse data type id = false) ∧
  (isErrorResponse data type id = true →
   isResponse data type id = true ∧ isSuccessResponse data type id = false) ∧
  (isFinishResponse data type id = true → isResponse data type id = true) ∧
  (isResponse data type id = true → isResponse data None None = true) ∧
  (isRequest data type = true → isRequest data None = true) ∧
  isResponse data (Some EmptyString) id = isResponse data None id ∧
  isResponse data type (Some EmptyString) = isResponse data type None ∧
  isRequest data (Some EmptyString) = isRequest data None.
Proof.
  unfold isSuccessResponse, isErrorResponse, isFinishResponse.
  split_and!.
  - intros [Hr Hok]%andb_true_iff. rewrite Hr. split; [done|].
    apply bool_decide_eq_true in Hok. rewrite Hok. done.
  - intros [Hr Hok]%andb_true_iff. rewrite Hr. split; [done|].
    apply bool_decide_eq_true in Hok. rewrite Hok. done.
  - by intros [Hr _]%andb_true_iff.
  - destruct data as [| | |fields]; try done. unfold isResponse. simpl.
    intros [[Hh _]%andb_true_iff _]%andb_true_iff. rewrite Hh. done.
  - destruct data as [| | |fields]; try done. unfold isRequest. simpl.
    intros [Hh _]%andb_true_iff. rewrite Hh. done.
  - by destruct data.
  - by destruct data.
  - by destruct data.
Qed.

End guards.

(** ** The counter without a constructor *)
Section first_revision.
Import Runs0.





End first_revision.
